(** * LAFM-Net (train_lafm_net.py): a shallow embedding and its properties

    The development follows the training script of the repository:
    label consolidation, the early-stopping controller with its weight
    snapshots, the correlation filter, the feature-to-image mapper, the
    learnable adaptive masking module, the focal loss and the Phase-2
    optimisation step.

    Conventions.
    - Python strings are [string]s of 8-bit characters; [str.lower] is the
      ASCII lower-casing.
    - Tensors that hold weights live in a heap indexed by object identity
      ([loc]); a state dict maps parameter names to such identities, so that
      aliasing between a live model and a snapshot can be expressed.
    - Validation losses and correlation coefficients are machine floats, hence
      rationals: they are modelled in [Q] (NaN as [None] where it can arise),
      and as a [pyfloat] where NaN and the infinities take part.
    - The mask gate and the enhancement compute in float32: their arithmetic
      is a structure of operations ([float_ops]), the properties of IEEE
      arithmetic that the proofs use are collected in [ieee_laws], and the
      examples are computed in binary32.
    - The cross entropy of the focal loss is modelled over the real numbers
      [R]; rounding is not modelled there. *)

From Stdlib Require Import List String Ascii ZArith QArith Qabs Reals Lra Lqa Lia Bool
  Sorted.
From Stdlib Require SpecFloat.
From stdpp Require Import gmap strings list.
Import ListNotations.

(* ===================================================================== *)
(** * Part I: definitions                                                  *)
(* ===================================================================== *)

(* --------------------------------------------------------------------- *)
(** ** Label consolidation ([consolidate_labels])                          *)
(* --------------------------------------------------------------------- *)

(** [c.lower()] on one ASCII character: 'A'..'Z' are shifted by 32. *)
Definition lower_char (c : ascii) : ascii :=
  let n := nat_of_ascii c in
  if (65 <=? n)%nat && (n <=? 90)%nat then ascii_of_nat (n + 32) else c.

(** [s.lower()] *)
Fixpoint lower (s : string) : string :=
  match s with
  | EmptyString => EmptyString
  | String c t => String (lower_char c) (lower t)
  end.

(** [needle in hay] on Python strings: [needle] occurs as a contiguous
    substring of [hay]. *)
Fixpoint str_in (needle hay : string) : bool :=
  if String.prefix needle hay then true
  else match hay with
       | EmptyString => false
       | String _ t => str_in needle t
       end.

(** The keyword list of the last [elif]. *)
Definition brute_keywords : list string :=
  ["brute"; "bruteforce"; "ssh"; "ftp"; "web"; "xss"; "sql"]%string.

(** [any(x in label_lower for x in kws)] *)
Definition any_in (kws : list string) (label_lower : string) : bool :=
  existsb (fun x => str_in x label_lower) kws.

(** The body of the [for] loop: the string appended for one label. *)
Definition consolidate_label (label : string) : string :=
  let label_lower := lower label in
  if str_in "benign" label_lower then "Benign"
  else if str_in "ddos" label_lower then "DDoS"
  else if str_in "dos" label_lower then "DoS"
  else if str_in "bot" label_lower then "Botnet"
  else if str_in "infil" label_lower then "Infiltration"
  else if any_in brute_keywords label_lower then "Brute Force"
  else "Brute Force".

(** [consolidate_labels]: the accumulator [consolidated] starts empty and
    receives one [append] per label, in order. *)
Definition consolidate_labels (labels : list string) : list string :=
  fold_left (fun consolidated label => consolidated ++ [consolidate_label label])
            labels [].

(** The six canonical class names. *)
Definition six_classes : list string :=
  ["Benign"; "DoS"; "DDoS"; "Botnet"; "Infiltration"; "Brute Force"]%string.

(** Specification-level reading of "the lower-cased label contains [kw]". *)
Definition ci_contains (kw label : string) : Prop :=
  exists pre post : string, lower label = (pre +:+ kw +:+ post)%string.

(* --------------------------------------------------------------------- *)
(** ** Weight tensors, state dicts and the object heap                     *)
(* --------------------------------------------------------------------- *)

(** Identity of a tensor object. *)
Abbreviation loc := positive.

(** The data of a weight tensor, flattened; its shape is its length. *)
Abbreviation tensor := (list Q).

(** The heap of tensor objects. *)
Abbreviation heap := (gmap positive (list Q)).

(** An ordered dict from parameter names to tensor objects. *)
Abbreviation state_dict := (list (string * positive)).

(** An [nn.Module] is represented by its named parameters and buffers. *)
Abbreviation module := (list (string * positive)).

(** [model.state_dict()]: the returned dict refers to the live tensors
    of the model (no copy is made). *)
Definition state_dict_of (model : module) : state_dict := model.

Definition keys (sd : state_dict) : list string := map fst sd.

Definition locs (sd : state_dict) : list loc := map snd sd.

(** [sd[name]] *)
Fixpoint sd_get (name : string) (sd : state_dict) : option loc :=
  match sd with
  | [] => None
  | (k, l) :: rest => if String.eqb k name then Some l else sd_get name rest
  end.

(** The values a state dict currently denotes. *)
Definition sd_values (sd : state_dict) (h : heap) : list (string * tensor) :=
  map (fun e => (fst e, h !!! snd e)) sd.

(** [copy.deepcopy(sd)]: every entry is copied into a newly allocated
    tensor object. *)
Fixpoint deepcopy (sd : state_dict) (h : heap) : state_dict * heap :=
  match sd with
  | [] => ([], h)
  | (name, l) :: rest =>
      let l' := fresh (dom h) in
      let h1 := <[l' := h !!! l]> h in
      let r := deepcopy rest h1 in
      ((name, l') :: fst r, snd r)
  end.

(** In-place update of one weight of the live model (what an optimizer
    step or [param.copy_] does to a parameter). *)
Definition set_weight (model : module) (name : string) (v : tensor) (h : heap) : heap :=
  match sd_get name model with
  | Some l => <[l := v]> h
  | None => h
  end.

(** A sequence of in-place weight updates. *)
Definition mutate_model (model : module) (ws : list (string * tensor)) (h : heap) : heap :=
  fold_left (fun h' w => set_weight model (fst w) (snd w) h') ws h.

(** The copy loop of [load_state_dict]: [param.copy_(sd[name])] for each
    parameter; a missing key or a shape mismatch is an error. *)
Fixpoint load_params (params : list (string * loc)) (sd : state_dict) (h : heap)
  : option heap :=
  match params with
  | [] => Some h
  | (name, l) :: rest =>
      match sd_get name sd with
      | Some ls =>
          if (length (h !!! ls) =? length (h !!! l))%nat
          then load_params rest sd (<[l := h !!! ls]> h)
          else None
      | None => None
      end
  end.

(** [model.load_state_dict(sd)] with the default [strict=True]: [None]
    stands for the [RuntimeError] raised on missing or unexpected keys and on
    size mismatches. *)
Definition load_state_dict (model : module) (sd : state_dict) (h : heap) : option heap :=
  if forallb (fun k => bool_decide (k ∈ keys sd)) (keys model)
     && forallb (fun k => bool_decide (k ∈ keys model)) (keys sd)
  then load_params model sd h
  else None.

(* --------------------------------------------------------------------- *)
(** ** The early-stopping controller ([class EarlyStopping])               *)
(* --------------------------------------------------------------------- *)

(** [val_loss_min] starts at [np.inf]. *)
Inductive loss_min : Type :=
| PosInf
| Fin (q : Q).

(** The attributes of the controller ([path] and [trace_func] only serve
    the log output and are left out). *)
Record EarlyStopping : Type := mkEarlyStopping {
  patience : Z;
  verbose : bool;
  counter : Z;
  best_score : option Q;
  early_stop : bool;
  val_loss_min : loss_min;
  delta : Q;
  best_model_state_dict : option state_dict
}.

(** [EarlyStopping.__init__] *)
Definition EarlyStopping_init (patience : Z) (verbose : bool) (delta : Q) : EarlyStopping :=
  {| patience := patience; verbose := verbose; counter := 0;
     best_score := None; early_stop := false; val_loss_min := PosInf;
     delta := delta; best_model_state_dict := None |}.

(** [EarlyStopping.save_checkpoint] *)
Definition save_checkpoint (self : EarlyStopping) (val_loss : Q) (model : module)
    (h : heap) : EarlyStopping * heap :=
  let r := deepcopy (state_dict_of model) h in
  ({| patience := patience self; verbose := verbose self;
      counter := counter self; best_score := best_score self;
      early_stop := early_stop self; val_loss_min := Fin val_loss;
      delta := delta self; best_model_state_dict := Some (fst r) |},
   snd r).

Definition set_best_score (self : EarlyStopping) (score : Q) : EarlyStopping :=
  {| patience := patience self; verbose := verbose self;
     counter := counter self; best_score := Some score;
     early_stop := early_stop self; val_loss_min := val_loss_min self;
     delta := delta self; best_model_state_dict := best_model_state_dict self |}.

Definition set_counter (self : EarlyStopping) (c : Z) : EarlyStopping :=
  {| patience := patience self; verbose := verbose self;
     counter := c; best_score := best_score self;
     early_stop := early_stop self; val_loss_min := val_loss_min self;
     delta := delta self; best_model_state_dict := best_model_state_dict self |}.

Definition set_early_stop (self : EarlyStopping) (b : bool) : EarlyStopping :=
  {| patience := patience self; verbose := verbose self;
     counter := counter self; best_score := best_score self;
     early_stop := b; val_loss_min := val_loss_min self;
     delta := delta self; best_model_state_dict := best_model_state_dict self |}.

(** [EarlyStopping.__call__] *)
Definition EarlyStopping_call (self : EarlyStopping) (val_loss : Q) (model : module)
    (h : heap) : EarlyStopping * heap :=
  let score := (- val_loss)%Q in
  match best_score self with
  | None =>
      save_checkpoint (set_best_score self score) val_loss model h
  | Some best =>
      if Qlt_le_dec score (best + delta self)%Q then
        let self1 := set_counter self (counter self + 1)%Z in
        if (counter self1 >=? patience self1)%Z
        then (set_early_stop self1 true, h)
        else (self1, h)
      else
        let r := save_checkpoint (set_best_score self score) val_loss model h in
        (set_counter (fst r) 0%Z, snd r)
  end.

(** [EarlyStopping.load_best_weights]; [None] is an exception escaping
    from [load_state_dict]. *)
Definition load_best_weights (self : EarlyStopping) (model : module) (h : heap)
  : option (EarlyStopping * heap) :=
  match best_model_state_dict self with
  | Some sd =>
      match load_state_dict model sd h with
      | Some h' => Some (self, h')
      | None => None
      end
  | None => Some (self, h)
  end.

(** The controller driven over a run of epochs. Each epoch first updates the
    live weights in place (training), then reports its validation loss. *)
Fixpoint feed (self : EarlyStopping) (model : module) (h : heap)
    (epochs : list (list (string * tensor) * Q)) : EarlyStopping * heap :=
  match epochs with
  | [] => (self, h)
  | (ws, val_loss) :: rest =>
      let r := EarlyStopping_call self val_loss model (mutate_model model ws h) in
      feed (fst r) model (snd r) rest
  end.

(** A strictly decreasing sequence of losses. *)
Fixpoint strictly_decreasing (l : list Q) : Prop :=
  match l with
  | [] => True
  | x :: rest =>
      match rest with
      | [] => True
      | y :: _ => (y < x)%Q /\ strictly_decreasing rest
      end
  end.

(** The snapshot values held by the controller. *)
Definition snapshot_values (self : EarlyStopping) (h : heap) : option (list (string * tensor)) :=
  match best_model_state_dict self with
  | Some sd => Some (sd_values sd h)
  | None => None
  end.

(** Every tensor a state dict refers to is an allocated object. *)
Definition allocated (sd : state_dict) (h : heap) : Prop :=
  forall l, l ∈ locs sd -> l ∈ dom h.

(** A well-formed model: its tensors are allocated, and parameter names and
    tensor objects are pairwise distinct. *)
Definition wf_model (model : module) (h : heap) : Prop :=
  NoDup (keys model) /\ NoDup (locs model) /\ allocated model h.

(** The shapes of the tensors of a state dict. *)
Definition sd_shapes (sd : state_dict) (h : heap) : list nat :=
  map (fun e => length (h !!! snd e)) sd.

(** In-place updates keep the shape of the tensor they overwrite. *)
Definition shape_preserving (model : module) (h : heap) (ws : list (string * tensor)) : Prop :=
  Forall (fun w => forall l, sd_get (fst w) model = Some l ->
                             length (snd w) = length (h !!! l)) ws.

(* --------------------------------------------------------------------- *)
(** ** The correlation filter ([correlation_filtering])                    *)
(* --------------------------------------------------------------------- *)

(** A dataframe column: numeric, or of another dtype (object, category…). *)
Inductive column_data : Type :=
| Numeric (values : list Q)
| Other (values : list string).

(** A dataframe: its labelled columns, in column order. Column labels are
    taken to be distinct, as [df.drop(columns=…)] addresses columns by
    label. *)
Definition dataframe : Type := list (string * column_data).

(** [df.select_dtypes(include=np.number)] *)
Fixpoint select_numeric (df : dataframe) : list (string * list Q) :=
  match df with
  | [] => []
  | (name, Numeric v) :: rest => (name, v) :: select_numeric rest
  | (_, Other _) :: rest => select_numeric rest
  end.

(** [v > threshold] on a float that may be NaN: a NaN compares false. *)
Definition gt_threshold (v : option Q) (threshold : Q) : bool :=
  match v with
  | Some q => if Qlt_le_dec threshold q then true else false
  | None => false
  end.

(** [np.triu(np.ones((n, n)), k=1).astype(bool)]: true strictly above the
    diagonal. *)
Definition triu_mask (n : nat) : list (list bool) :=
  map (fun i => map (fun j => (i <? j)%nat) (seq 0 n)) (seq 0 n).

(** [m.where(mask)]: entries whose mask is false become NaN. *)
Definition where_mask (m : list (list (option Q))) (mask : list (list bool))
  : list (list (option Q)) :=
  zip_with (zip_with (fun v (b : bool) => if b then v else None)) m mask.

(** [m[column]] for the column at position [j]: the entries of that column,
    one per row. *)
Definition column_at (m : list (list (option Q))) (j : nat) : list (option Q) :=
  map (fun row => default None (row !! j)) m.

Section CorrelationFilter.

(** The Pearson coefficient that [DataFrame.corr()] computes for a pair of
    columns; [None] is NaN (for instance for a constant column). *)
Variable pearson : list Q -> list Q -> option Q.

(** [numeric_df.corr().abs()] *)
Definition corr_matrix_abs (cols : list (string * list Q)) : list (list (option Q)) :=
  map (fun ci => map (fun cj => option_map Qabs (pearson (snd ci) (snd cj))) cols) cols.

Definition upper_tri (cols : list (string * list Q)) : list (list (option Q)) :=
  where_mask (corr_matrix_abs cols) (triu_mask (length cols)).

(** [[column for column in upper_tri.columns if any(upper_tri[column] > threshold)]] *)
Definition drop_cols (cols : list (string * list Q)) (threshold : Q) : list string :=
  omap (fun jc : nat * (string * list Q) =>
          if existsb (fun v => gt_threshold v threshold)
                     (column_at (upper_tri cols) (fst jc))
          then Some (fst (snd jc)) else None)
       (imap (fun j c => (j, c)) cols).

(** [df.drop(columns=labels)] *)
Definition df_drop (df : dataframe) (labels : list string) : dataframe :=
  List.filter (fun c => negb (bool_decide (fst c ∈ labels))) df.

Definition correlation_filtering (df : dataframe) (threshold : Q) : dataframe :=
  let numeric_df := select_numeric df in
  if (length numeric_df <? 2)%nat then df
  else
    let drop := drop_cols numeric_df threshold in
    match drop with
    | [] => df
    | _ :: _ => df_drop df drop
    end.

End CorrelationFilter.

(* --------------------------------------------------------------------- *)
(** ** The feature-to-image mapper ([features_to_multichannel_image])      *)
(* --------------------------------------------------------------------- *)

Section FeatureImageMapper.

(** The element type of the arrays and its zero. *)
Context {A : Type} (zero : A).

(** [np.zeros(n)] *)
Definition np_zeros (n : Z) : list A := repeat zero (Z.to_nat n).

(** [v[start:stop]] for non-negative bounds. *)
Definition slice (v : list A) (start stop : nat) : list A :=
  firstn (stop - start) (skipn start v).

(** [v[start:]] *)
Definition slice_from (v : list A) (start : nat) : list A := skipn start v.

Fixpoint rows_of (rows cols : nat) (l : list A) : list (list A) :=
  match rows with
  | O => []
  | S r => firstn cols l :: rows_of r cols (skipn cols l)
  end.

(** [a.reshape((rows, cols))] of a one-dimensional array (row-major);
    [None] is the [ValueError] raised when the sizes disagree. *)
Definition reshape2 (l : list A) (rows cols : nat) : option (list (list A)) :=
  if (length l =? rows * cols)%nat then Some (rows_of rows cols l) else None.

(** The [if]/[else] of the loop body: the values of channel [c]. *)
Definition channel_features (feature_vector : list A) (c features_per_channel : nat)
  : list A :=
  let start_idx := (c * features_per_channel)%nat in
  let end_idx := (start_idx + features_per_channel)%nat in
  if (end_idx <=? length feature_vector)%nat then
    slice feature_vector start_idx end_idx
  else
    let available := (Z.of_nat (length feature_vector) - Z.of_nat start_idx)%Z in
    if (available >? 0)%Z then
      slice_from feature_vector start_idx
        ++ np_zeros (Z.of_nat features_per_channel - available)
    else
      np_zeros (Z.of_nat features_per_channel).

(** The [for c in range(num_channels)] loop over the remaining indices. *)
Fixpoint channels_loop (feature_vector : list A) (cs : list nat)
    (features_per_channel image_size : nat) : option (list (list (list A))) :=
  match cs with
  | [] => Some []
  | c :: rest =>
      match reshape2 (channel_features feature_vector c features_per_channel)
                     image_size image_size with
      | None => None
      | Some ch =>
          match channels_loop feature_vector rest features_per_channel image_size with
          | None => None
          | Some chs => Some (ch :: chs)
          end
      end
  end.

(** [np.stack(channels, axis=0)] of equally shaped arrays; it raises on an
    empty list. *)
Definition np_stack (channels : list (list (list A))) : option (list (list (list A))) :=
  match channels with
  | [] => None
  | _ :: _ => Some channels
  end.

Definition features_to_multichannel_image (feature_vector : list A)
    (num_channels features_per_channel image_size : nat)
  : option (list (list (list A))) :=
  match channels_loop feature_vector (seq 0 num_channels)
                      features_per_channel image_size with
  | None => None
  | Some channels => np_stack channels
  end.

(** Channel-major flattening of a (channels, height, width) array. *)
Definition flatten_image (img : list (list (list A))) : list A :=
  concat (map (@concat A) img).

(** The array has shape (c, h, w). *)
Definition has_shape (img : list (list (list A))) (c h w : nat) : Prop :=
  length img = c /\
  Forall (fun ch => length ch = h /\ Forall (fun row => length row = w) ch) img.

End FeatureImageMapper.

(* --------------------------------------------------------------------- *)
(** ** Floating-point tensors                                              *)
(* --------------------------------------------------------------------- *)

(** What a float denotes: NaN, an infinity, or a rational number (both signed
    zeros denote 0). *)
Inductive pyfloat : Type :=
| FloatNaN
| FloatNegInf
| FloatFinite (q : Q)
| FloatPosInf.

(** The float32 arithmetic of the tensors: the elementwise operations and the
    library kernels that the gate and the enhancement call. [f_value] reads a
    float as the number it denotes. *)
Record float_ops (F : Type) : Type := mkFloatOps {
  f_zero : F;                                   (* 0.0 *)
  f_one : F;                                    (* 1.0 *)
  f_add : F -> F -> F;                          (* a + b *)
  f_mul : F -> F -> F;                          (* a * b *)
  f_div : F -> F -> F;                          (* a / b *)
  f_sigmoid : F -> F;                           (* torch.sigmoid, nn.Sigmoid *)
  f_avg_pool : list (list F) -> F;              (* nn.AdaptiveAvgPool2d(1), one channel *)
  f_linear : list (list F) -> list F -> list F -> list F;
                                                (* nn.Linear: weight, bias, input *)
  f_clamp01 : F -> F;                           (* torch.clamp(., 0.0, 1.0) *)
  f_value : F -> pyfloat
}.

Arguments f_zero {F} _.
Arguments f_one {F} _.
Arguments f_add {F} _ _ _.
Arguments f_mul {F} _ _ _.
Arguments f_div {F} _ _ _.
Arguments f_sigmoid {F} _ _.
Arguments f_avg_pool {F} _ _.
Arguments f_linear {F} _ _ _ _.
Arguments f_clamp01 {F} _ _.
Arguments f_value {F} _ _.

(** The facts about IEEE 754 arithmetic and the library kernels that the
    proofs rely on, for the rounding function [rnd] of the format.
    - Rounding is monotone and leaves the numbers of the format unchanged.
    - A product of two finite floats whose exact value is no larger in
      magnitude than some finite float does not overflow: it is the rounded
      exact product. A product with a NaN operand is NaN.
    - The sigmoid of a float that is not NaN is a float between 0 and 1, both
      included; the sigmoid of NaN is NaN.
    - A linear layer has one output per row of its weight.
    - Clamping to [0, 1] keeps NaN, maps what lies below 0 to 0 and what lies
      above 1 to 1, and leaves the rest unchanged. *)
Record ieee_laws {F : Type} (ops : float_ops F) (rnd : Q -> Q) : Prop := mkIeeeLaws {
  rnd_monotone : forall x y : Q, (x <= y)%Q -> (rnd x <= rnd y)%Q;
  rnd_exact : forall (a : F) (q : Q),
    f_value ops a = FloatFinite q -> (rnd q == q)%Q;
  value_zero : exists q, f_value ops (f_zero ops) = FloatFinite q /\ (q == 0)%Q;
  value_one : exists q, f_value ops (f_one ops) = FloatFinite q /\ (q == 1)%Q;
  mul_rounds : forall (a b c : F) (qa qb qc : Q),
    f_value ops a = FloatFinite qa ->
    f_value ops b = FloatFinite qb ->
    f_value ops c = FloatFinite qc ->
    (Qabs (qa * qb) <= Qabs qc)%Q ->
    exists q, f_value ops (f_mul ops a b) = FloatFinite q /\ (q == rnd (qa * qb))%Q;
  mul_nan : forall a b : F,
    f_value ops a = FloatNaN \/ f_value ops b = FloatNaN ->
    f_value ops (f_mul ops a b) = FloatNaN;
  sigmoid_unit : forall a : F,
    f_value ops a <> FloatNaN ->
    exists q, f_value ops (f_sigmoid ops a) = FloatFinite q /\ (0 <= q <= 1)%Q;
  sigmoid_nan : forall a : F,
    f_value ops a = FloatNaN -> f_value ops (f_sigmoid ops a) = FloatNaN;
  linear_length : forall (weight : list (list F)) (b p : list F),
    length weight = length b -> length (f_linear ops weight b p) = length b;
  clamp01_value : forall a : F,
    match f_value ops a with
    | FloatNaN => f_value ops (f_clamp01 ops a) = FloatNaN
    | FloatNegInf =>
        exists q, f_value ops (f_clamp01 ops a) = FloatFinite q /\ (q == 0)%Q
    | FloatPosInf =>
        exists q, f_value ops (f_clamp01 ops a) = FloatFinite q /\ (q == 1)%Q
    | FloatFinite qa =>
        exists q, f_value ops (f_clamp01 ops a) = FloatFinite q /\
                  ((qa <= 0)%Q -> (q == 0)%Q) /\
                  ((1 <= qa)%Q -> (q == 1)%Q) /\
                  ((0 <= qa <= 1)%Q -> (q == qa)%Q)
    end
}.

(** *** binary32

    The float32 format on [spec_float] (precision 24, maximal exponent 128),
    with which the examples are computed. *)

Definition b32 : Type := SpecFloat.spec_float.

Definition b32_of_Z (n : Z) : b32 := SpecFloat.binary_normalize 24 128 n 0 false.

Definition b32_value (x : b32) : pyfloat :=
  match x with
  | SpecFloat.S754_zero _ => FloatFinite 0
  | SpecFloat.S754_infinity false => FloatPosInf
  | SpecFloat.S754_infinity true => FloatNegInf
  | SpecFloat.S754_nan => FloatNaN
  | SpecFloat.S754_finite s m e =>
      FloatFinite (Qred (inject_Z (if s then Z.neg m else Z.pos m) * Qpower 2 e))
  end.

(** [exp] in float32 at the arguments the examples need: [exp(-20.0)] is
    about 2.06e-9, [exp(100.0)] overflows and [exp(0.0)] is 1. The table has no
    other entry (NaN stands for the missing ones, and is the value at NaN). *)
Definition example_exp32 (x : b32) : b32 :=
  if SpecFloat.SFeqb x (b32_of_Z (-20)) then SpecFloat.S754_finite false 9282611 (-52)
  else if SpecFloat.SFeqb x (b32_of_Z 100) then SpecFloat.S754_infinity false
  else if SpecFloat.SFeqb x (b32_of_Z 0) then b32_of_Z 1
  else SpecFloat.S754_nan.

(** The sigmoid kernel: [1 / (1 + exp(-x))] evaluated in float32. *)
Definition sigmoid32 (x : b32) : b32 :=
  SpecFloat.SFdiv 24 128 (b32_of_Z 1)
    (SpecFloat.SFadd 24 128 (b32_of_Z 1) (example_exp32 (SpecFloat.SFopp x))).

Definition sum32 (l : list b32) : b32 :=
  fold_left (SpecFloat.SFadd 24 128) l (SpecFloat.S754_zero false).

(** The mean of a channel, summed in row-major order. *)
Definition avg_pool32 (ch : list (list b32)) : b32 :=
  SpecFloat.SFdiv 24 128 (sum32 (concat ch)) (b32_of_Z (Z.of_nat (length (concat ch)))).

(** [weight @ input + bias], each dot product summed from left to right. *)
Definition linear32 (weight : list (list b32)) (b p : list b32) : list b32 :=
  zip_with (fun row bj =>
              SpecFloat.SFadd 24 128 (sum32 (zip_with (SpecFloat.SFmul 24 128) row p)) bj)
           weight b.

Definition clamp32 (x : b32) : b32 :=
  if SpecFloat.SFltb x (SpecFloat.S754_zero false) then SpecFloat.S754_zero false
  else if SpecFloat.SFltb (b32_of_Z 1) x then b32_of_Z 1
  else x.

Definition binary32_ops : float_ops b32 :=
  {| f_zero := SpecFloat.S754_zero false;
     f_one := b32_of_Z 1;
     f_add := SpecFloat.SFadd 24 128;
     f_mul := SpecFloat.SFmul 24 128;
     f_div := SpecFloat.SFdiv 24 128;
     f_sigmoid := sigmoid32;
     f_avg_pool := avg_pool32;
     f_linear := linear32;
     f_clamp01 := clamp32;
     f_value := b32_value |}.

(** *** Exact arithmetic

    The rationals with exact operations and a three-step function in the place
    of the sigmoid: a structure in which every law of [ieee_laws] holds, with
    the identity as rounding. *)

Definition step_sigmoid (q : Q) : Q :=
  if Qle_bool q (-17) then 0%Q else if Qle_bool 17 q then 1%Q else (1 # 2)%Q.

Definition exact_sum (l : list Q) : Q := fold_right Qplus 0%Q l.

Definition exact_ops : float_ops Q :=
  {| f_zero := 0%Q;
     f_one := 1%Q;
     f_add := Qplus;
     f_mul := Qmult;
     f_div := Qdiv;
     f_sigmoid := step_sigmoid;
     f_avg_pool := fun ch => (exact_sum (concat ch) / inject_Z (Z.of_nat (length (concat ch))))%Q;
     f_linear := fun weight b p =>
                   zip_with (fun row bj => (exact_sum (zip_with Qmult row p) + bj)%Q) weight b;
     f_clamp01 := fun q => if Qle_bool q 0 then 0%Q else if Qle_bool 1 q then 1%Q else q;
     f_value := FloatFinite |}.

(* --------------------------------------------------------------------- *)
(** ** The mask gate ([LearnableAdaptiveMasking])                          *)
(* --------------------------------------------------------------------- *)

(** The parameters of the module, for [channels] channels. *)
Record LearnableAdaptiveMasking (F : Type) : Type := mkMasking {
  temperature : F;                    (* shape (1) *)
  bias : list F;                      (* shape (channels) *)
  channel_scale : list F;             (* shape (channels, 1, 1) *)
  global_fc_weight : list (list F);   (* Linear(channels, channels).weight *)
  global_fc_bias : list F             (* Linear(channels, channels).bias *)
}.

Arguments mkMasking {F} _ _ _ _ _.
Arguments temperature {F} _.
Arguments bias {F} _.
Arguments channel_scale {F} _.
Arguments global_fc_weight {F} _.
Arguments global_fc_bias {F} _.

(** The entry of a (C, H, W) tensor at an index, if the index is in range. *)
Definition elem {B : Type} (t : list (list (list B))) (c h w : nat) : option B :=
  match t !! c with
  | Some ch => match ch !! h with
               | Some row => row !! w
               | None => None
               end
  | None => None
  end.

Section MaskGate.

Context {F : Type} (ops : float_ops F).

(** [LearnableAdaptiveMasking.__init__] leaves the linear layer to its random
    initialisation; the other parameters start as below. *)
Definition masking_init (channels : nat) (fc_weight : list (list F)) (fc_bias : list F)
  : LearnableAdaptiveMasking F :=
  {| temperature := f_one ops;
     bias := repeat (f_zero ops) channels;
     channel_scale := repeat (f_one ops) channels;
     global_fc_weight := fc_weight;
     global_fc_bias := fc_bias |}.

(** [self.global_fc(x)] for one sample: pooling, the linear layer, the
    sigmoid. *)
Definition global_fc (m : LearnableAdaptiveMasking F) (x : list (list (list F)))
  : list F :=
  map (f_sigmoid ops)
      (f_linear ops (global_fc_weight m) (global_fc_bias m) (map (f_avg_pool ops) x)).

(** [(x * self.channel_scale + self.bias.view(1, -1, 1, 1)) / self.temperature]:
    channel [c] of the input meets entry [c] of both parameters. The input has
    the channel count of the module (the linear layer raises otherwise). *)
Definition scaled (m : LearnableAdaptiveMasking F) (x : list (list (list F)))
  : list (list (list F)) :=
  zip_with (fun ch (sb : F * F) =>
              map (map (fun v =>
                          f_div ops (f_add ops (f_mul ops v (fst sb)) (snd sb))
                                (temperature m))) ch)
           x (zip (channel_scale m) (bias m)).

(** [LearnableAdaptiveMasking.forward] on one sample of shape (C, H, W). *)
Definition masking_forward (m : LearnableAdaptiveMasking F) (x : list (list (list F)))
  : list (list (list F)) :=
  let base_mask := map (map (map (f_sigmoid ops))) (scaled m x) in
  let g := global_fc m x in
  zip_with (fun ch gc => map (map (fun b => f_mul ops b gc)) ch) base_mask g.

(** The forward pass on a batch: samples are processed independently. *)
Definition masking_forward_batch (m : LearnableAdaptiveMasking F)
    (xs : list (list (list (list F)))) : list (list (list (list F))) :=
  map (masking_forward m) xs.

End MaskGate.

(** The gate as [__init__] creates it for one channel, with the identity as
    linear layer, in float32. *)
Definition example_gate32 : LearnableAdaptiveMasking b32 :=
  masking_init binary32_ops 1 [[b32_of_Z 1]] [b32_of_Z 0].

(* --------------------------------------------------------------------- *)
(** ** The focal loss ([BalancedFocalLoss])                                *)
(* --------------------------------------------------------------------- *)

Definition sum_list (l : list R) : R := fold_right Rplus 0%R l.

(** [.mean()] of a one-dimensional tensor. *)
Definition mean (l : list R) : R := (sum_list l / INR (length l))%R.

(** [F.cross_entropy] of one sample: the negative log-softmax at the target.
    The default [ignore_index] -100 yields a zero loss; any other target out
    of range is an error. *)
Definition cross_entropy_sample (logits : list R) (target : Z) : option R :=
  if (target =? -100)%Z then Some 0%R
  else if (0 <=? target)%Z && (target <? Z.of_nat (length logits))%Z
       then Some (ln (sum_list (map exp logits)) - nth (Z.to_nat target) logits 0)%R
       else None.

Fixpoint cross_entropy_rows (inputs : list (list R)) (targets : list Z) : option (list R) :=
  match inputs, targets with
  | [], [] => Some []
  | row :: inputs', t :: targets' =>
      match cross_entropy_sample row t with
      | None => None
      | Some ce =>
          match cross_entropy_rows inputs' targets' with
          | None => None
          | Some ces => Some (ce :: ces)
          end
      end
  | _, _ => None
  end.

(** [F.cross_entropy(inputs, targets, reduction='none')]; [None] is the error
    raised on a batch-size mismatch or an invalid target. *)
Definition cross_entropy_none (inputs : list (list R)) (targets : list Z) : option (list R) :=
  cross_entropy_rows inputs targets.

(** [base ** gamma] for a base in [0, 1] and [gamma >= 0], the range in which
    the loss uses it. *)
Definition torch_pow (base gamma : R) : R :=
  if Req_dec_T gamma 0 then 1%R
  else if Req_dec_T base 0 then 0%R
  else Rpower base gamma.

(** [BalancedFocalLoss.forward] *)
Definition BalancedFocalLoss_forward (alpha gamma : R) (inputs : list (list R))
    (targets : list Z) : option R :=
  match cross_entropy_none inputs targets with
  | None => None
  | Some ce =>
      let pt := map (fun c => exp (- c)) ce in
      let alpha_t := repeat alpha (length targets) in
      Some (mean (zip_with Rmult
                    (zip_with Rmult alpha_t (map (fun p => torch_pow (1 - p) gamma) pt))
                    ce))
  end.

(** The focal term of one sample, as a function of its cross entropy. *)
Definition focal_term (alpha gamma ce : R) : R :=
  (alpha * torch_pow (1 - exp (- ce)) gamma * ce)%R.

(* --------------------------------------------------------------------- *)
(** ** One optimisation step of Phase 2 ([train_classifier_end_to_end])    *)
(* --------------------------------------------------------------------- *)

(** The parameters of the module-level [adaptive_masker], in the order of
    [adaptive_masker.parameters()]. *)
Inductive gate_param : Type :=
| Temperature
| Bias
| ChannelScale
| GlobalFcWeight
| GlobalFcBias.

(** The parameters of the three networks. *)
Inductive param : Type :=
| GateParam (g : gate_param)
| ClassifierParam (i : nat)
| UnetParam (i : nat).

#[global] Instance gate_param_eq_dec : EqDecision gate_param.
Proof. solve_decision. Defined.

#[global] Instance param_eq_dec : EqDecision param.
Proof. solve_decision. Defined.

Section Phase2.

(** [V]: tensor values; [S]: the per-parameter state of Adam (moment
    estimates and step count). *)
Context {V S : Type}.

(** What is attached to a parameter: [p.data], [p.grad] ([None] until a
    backward pass reaches it), [p.requires_grad] and the optimizer state. *)
Record slot : Type := mkSlot {
  p_value : V;
  p_grad : option V;
  p_requires_grad : bool;
  p_state : S
}.

Definition store : Type := param -> slot.

Definition upd (st : store) (p : param) (s : slot) : store :=
  fun q => if decide (q = p) then s else st q.

Definition values (st : store) : param -> V := fun p => p_value (st p).

(** A computed tensor together with the leaf parameters that its autograd
    graph reaches. A tensor computed while gradients are disabled has no
    graph. *)
Record gtensor : Type := mkGTensor {
  t_value : V;
  t_leaves : list param
}.

(** The numeric content of the networks, of the loss and of Adam. *)
Variable unet_forward : (param -> V) -> V -> V.
Variable masker_forward : (param -> V) -> V -> V.
Variable mul : V -> V -> V.
Variable clamp01 : V -> V.
Variable classifier_forward : (param -> V) -> V -> V.
Variable focal_loss : V -> V -> V.
Variable dloss : (param -> V) -> V -> V -> param -> V.
Variable accumulate : V -> V -> V.
Variable zeros_like : V -> V.
Variable adam_update : S -> V -> V -> S * V.
Variable n_classifier : nat.
Variable n_unet : nat.

Definition classifier_parameters : list param :=
  map ClassifierParam (seq 0 n_classifier).

Definition masker_parameters : list param :=
  map GateParam [Temperature; Bias; ChannelScale; GlobalFcWeight; GlobalFcBias].

Definition unet_parameters : list param :=
  map UnetParam (seq 0 n_unet).

(** The result [v] of an operation that reads the parameters [ps] and
    inputs whose graphs reach [inputs]. *)
Definition record_op (grad_enabled : bool) (st : store) (ps inputs : list param) (v : V)
  : gtensor :=
  {| t_value := v;
     t_leaves := if grad_enabled
                 then inputs ++ List.filter (fun p => p_requires_grad (st p)) ps
                 else [] |}.

(** [feature_masking_enhancement]: the whole body runs under
    [with torch.no_grad()]. *)
Definition feature_masking_enhancement (st : store) (original_imgs : V) : gtensor :=
  let grad_enabled := false in
  let feats := record_op grad_enabled st unet_parameters []
                 (unet_forward (values st) original_imgs) in
  let mask := record_op grad_enabled st masker_parameters (t_leaves feats)
                (masker_forward (values st) (t_value feats)) in
  let enhanced := record_op grad_enabled st [] (t_leaves mask)
                    (mul original_imgs (t_value mask)) in
  record_op grad_enabled st [] (t_leaves enhanced) (clamp01 (t_value enhanced)).

(** The parameters handed to [optim.Adam]:
    [list(classifier.parameters()) + list(adaptive_masker.parameters())]. *)
Definition optimizer_params : list param :=
  classifier_parameters ++ masker_parameters.

Definition set_grad (s : slot) (g : option V) : slot :=
  {| p_value := p_value s; p_grad := g;
     p_requires_grad := p_requires_grad s; p_state := p_state s |}.

(** [opt.zero_grad()]: gradients are reset to [None], or, with
    [set_to_none=False], existing gradients are zeroed. *)
Definition zero_grad (set_to_none : bool) (st : store) : store :=
  fold_left (fun st' p =>
               upd st' p (set_grad (st' p)
                            (if set_to_none then None
                             else option_map zeros_like (p_grad (st' p)))))
            optimizer_params st.

(** [loss.backward()]: every leaf of the graph receives (accumulates) its
    gradient; a loss without a graph raises a [RuntimeError]. *)
Definition backward (st : store) (loss : gtensor) (g : param -> V) : option store :=
  match t_leaves loss with
  | [] => None
  | _ :: _ =>
      Some (fold_left (fun st' p =>
                         upd st' p (set_grad (st' p)
                                      (Some (match p_grad (st' p) with
                                             | None => g p
                                             | Some old => accumulate old (g p)
                                             end))))
                      (t_leaves loss) st)
  end.

(** [opt.step()]: Adam skips every parameter whose [grad] is [None]. *)
Definition adam_step (st : store) : store :=
  fold_left (fun st' p =>
               match p_grad (st' p) with
               | None => st'
               | Some g =>
                   let r := adam_update (p_state (st' p)) (p_value (st' p)) g in
                   upd st' p {| p_value := snd r; p_grad := p_grad (st' p);
                                p_requires_grad := p_requires_grad (st' p);
                                p_state := fst r |}
               end)
            optimizer_params st.

(** The body of the batch loop of [train_classifier_end_to_end]. *)
Definition phase2_batch_step (set_to_none : bool) (st : store) (imgs labels : V)
  : option store :=
  let st1 := zero_grad set_to_none st in
  let enh := feature_masking_enhancement st1 imgs in
  let preds := record_op true st1 classifier_parameters (t_leaves enh)
                 (classifier_forward (values st1) (t_value enh)) in
  let loss := record_op true st1 [] (t_leaves preds)
                (focal_loss (t_value preds) labels) in
  match backward st1 loss (dloss (values st1) imgs labels) with
  | None => None
  | Some st2 => Some (adam_step st2)
  end.

(** The batch loop over a list of (images, labels) batches. *)
Fixpoint phase2_train (set_to_none : bool) (st : store) (batches : list (V * V))
  : option store :=
  match batches with
  | [] => Some st
  | (imgs, labels) :: rest =>
      match phase2_batch_step set_to_none st imgs labels with
      | None => None
      | Some st' => phase2_train set_to_none st' rest
      end
  end.

(** The gate has received no gradient: the state of freshly created
    parameters. *)
Definition gate_grads_none (st : store) : Prop :=
  forall g : gate_param, p_grad (st (GateParam g)) = None.

End Phase2.

(* --------------------------------------------------------------------- *)
(** ** Concrete instances used to exercise the definitions                 *)
(* --------------------------------------------------------------------- *)

(** A model with a weight and a bias tensor. *)
Definition example_model : module :=
  [("weight"%string, 1%positive); ("bias"%string, 2%positive)].

Definition example_heap : heap :=
  <[1%positive := [1 # 2; 3 # 1]%Q]> (<[2%positive := [0 # 1]%Q]> ∅).

(** A controller that has stopped: patience 2, one initial observation and
    two observations without improvement. *)
Definition example_stopped : EarlyStopping * heap :=
  feed (EarlyStopping_init 2 false 0) example_model example_heap
       [([], 1 # 1); ([("weight"%string, [7 # 1; 7 # 1])], 2 # 1); ([], 3 # 1)]%Q.

(** Structural equality of two columns of rationals. *)
Fixpoint column_eqb (a b : list Q) : bool :=
  match a, b with
  | [], [] => true
  | x :: a', y :: b' => Qeq_bool x y && column_eqb a' b'
  | _, _ => false
  end.

(** A dataframe with the numeric columns x, y = 2x and z, and a label
    column. The Pearson coefficients of these columns are 1 for (x, y) and 0
    for (x, z) and (y, z). *)
Definition example_x : list Q := [1 # 1; 2 # 1; 3 # 1]%Q.

Definition example_y : list Q := [2 # 1; 4 # 1; 6 # 1]%Q.

Definition example_z : list Q := [1 # 1; 0 # 1; 1 # 1]%Q.

Definition example_pearson (a b : list Q) : option Q :=
  if column_eqb a b then Some (1 # 1)%Q
  else if (column_eqb a example_x && column_eqb b example_y)
          || (column_eqb a example_y && column_eqb b example_x)
       then Some (1 # 1)%Q
       else Some (0 # 1)%Q.

Definition example_df : dataframe :=
  [("x"%string, Numeric example_x);
   ("Label"%string, Other ["Benign"; "DoS"; "Bot"]%string);
   ("y"%string, Numeric example_y);
   ("z"%string, Numeric example_z)].

(** The square of the Pearson coefficient of two columns, computed exactly
    over the rationals ([None] when a column is constant). It lets the
    coefficients tabulated for the example frames be checked against the
    data without a square root. *)
Definition qsum (l : list Q) : Q := fold_right Qplus (0 # 1)%Q l.

Definition qmean (l : list Q) : Q := (qsum l / (Z.of_nat (length l) # 1))%Q.

Definition centered (l : list Q) : list Q := map (fun v => (v - qmean l)%Q) l.

Definition cov_sum (x y : list Q) : Q := qsum (zip_with Qmult (centered x) (centered y)).

Definition pearson_squared (x y : list Q) : option Q :=
  let d := (cov_sum x x * cov_sum y y)%Q in
  if Qeq_bool d 0 then None else Some (cov_sum x y * cov_sum x y / d)%Q.

(** A frame with three numeric columns: a and b = 2a are perfectly
    correlated, and k, which comes first, correlates with both at about
    0.99972. *)
Definition near_k : list Q := [1 # 1; 2 # 1; 3 # 1; 4 # 1]%Q.

Definition near_a : list Q := [1 # 1; 2 # 1; 3 # 1; 41 # 10]%Q.

Definition near_b : list Q := [2 # 1; 4 # 1; 6 # 1; 82 # 10]%Q.

Definition near_pearson (x y : list Q) : option Q :=
  if column_eqb x y then Some (1 # 1)%Q
  else if (column_eqb x near_a && column_eqb y near_b)
          || (column_eqb x near_b && column_eqb y near_a)
       then Some (1 # 1)%Q
       else Some (99972 # 100000)%Q.

Definition near_df : dataframe :=
  [("k"%string, Numeric near_k); ("a"%string, Numeric near_a);
   ("b"%string, Numeric near_b)].

(** A frame with two numeric columns that are not perfectly correlated, for
    which [DataFrame.corr()] nevertheless returns 1.0000000000000002, the
    double next above 1: a coefficient is computed in floating point. *)
Definition rounded_x : list Q := [5 # 1; 8 # 1; 9 # 1]%Q.

Definition rounded_y : list Q := [500000000 # 1; 800000000 # 1; 900000001 # 1]%Q.

Definition rounded_pearson (x y : list Q) : option Q :=
  if column_eqb x y then Some (1 # 1)%Q
  else Some (4503599627370497 # 4503599627370496)%Q.

Definition rounded_df : dataframe :=
  [("x"%string, Numeric rounded_x); ("y"%string, Numeric rounded_y)].

(** A toy instance of the Phase-2 step over integers: every parameter
    starts at 1 with no gradient, the U-Net is frozen, the optimizer update is
    plain gradient descent with step 1 and the gradient of the loss is the
    input image. *)
Definition example_store : @store Z unit :=
  fun p => {| p_value := 1%Z; p_grad := None;
              p_requires_grad := match p with UnetParam _ => false | _ => true end;
              p_state := tt |}.

Definition example_phase2_step (st : @store Z unit) (imgs labels : Z)
  : option (@store Z unit) :=
  phase2_batch_step
    (fun _ x => x)
    (fun vals x => (x * vals (GateParam Temperature))%Z)
    Z.mul
    (fun x => Z.max 0 (Z.min 1 x))
    (fun vals x => (x * vals (ClassifierParam 0))%Z)
    (fun preds labels' => (preds - labels')%Z)
    (fun _ imgs' _ _ => imgs')
    Z.add
    (fun _ => 0%Z)
    (fun s v g => (s, (v - g)%Z))
    2 3 true st imgs labels.

(* --------------------------------------------------------------------- *)
(** ** Label normalisation in the preprocessing script                     *)
(* --------------------------------------------------------------------- *)

(** [df['Label'].replace({'BENIGN': 'Benign'})] on one value
    (data_preprocessing.py): only a value equal to the key is replaced. *)
Definition replace_benign (label : string) : string :=
  if String.eqb label "BENIGN" then "Benign"%string else label.

(* --------------------------------------------------------------------- *)
(** ** Evaluation: the benign-versus-attack collapse ([evaluate_model])     *)
(* --------------------------------------------------------------------- *)

(** [np.where(np.array(ys) == b_enc, 0, 1)] *)
Definition binary_collapse (b_enc : Z) (ys : list Z) : list Z :=
  map (fun y => if (y =? b_enc)%Z then 0%Z else 1%Z) ys.

(** The number of positions at which predictions and truth agree, the
    numerator of [accuracy_score]. *)
Definition n_correct (y_true y_pred : list Z) : nat :=
  length (List.filter (fun tp => (fst tp =? snd tp)%Z) (List.combine y_true y_pred)).

(* --------------------------------------------------------------------- *)
(** ** Batch size and loaders ([main_training_and_evaluation])             *)
(* --------------------------------------------------------------------- *)

(** [a or b] on integers. *)
Definition py_or (a b : Z) : Z := if (a =? 0)%Z then b else a.

(** [bs = min(batch_size, len(train_ds), len(val_ds)) or 1] *)
Definition effective_batch_size (batch_size len_train len_val : Z) : Z :=
  py_or (Z.min (Z.min batch_size len_train) len_val) 1.

(** [len(DataLoader(ds, batch_size=bs, drop_last=...))] for a dataset of [n]
    samples. *)
Definition loader_len (n bs : Z) (drop_last : bool) : Z :=
  if drop_last then (n / bs)%Z else ((n + bs - 1) / bs)%Z.

(* --------------------------------------------------------------------- *)
(** ** The values computed by [feature_masking_enhancement]                *)
(* --------------------------------------------------------------------- *)

Section Enhancement.

Context {F : Type} (ops : float_ops F).

(** The body of [feature_masking_enhancement] on one sample, for a U-Net in
    inference mode given as the function it computes. The elementwise product
    is taken on tensors of equal shape. *)
Definition enhance_sample (m : LearnableAdaptiveMasking F)
    (frozen_unet : list (list (list F)) -> list (list (list F)))
    (original : list (list (list F))) : list (list (list F)) :=
  let feats := frozen_unet original in
  let mask := masking_forward ops m feats in
  let enhanced := zip_with (zip_with (zip_with (f_mul ops))) original mask in
  map (map (map (f_clamp01 ops))) enhanced.

Definition feature_masking_enhancement_values (m : LearnableAdaptiveMasking F)
    (frozen_unet : list (list (list F)) -> list (list (list F)))
    (original_imgs : list (list (list (list F)))) : list (list (list (list F))) :=
  map (enhance_sample m frozen_unet) original_imgs.

End Enhancement.

(* --------------------------------------------------------------------- *)
(** ** The dataset ([MultichannelFlowDataset])                             *)
(* --------------------------------------------------------------------- *)

(** [seq[idx]] for a Python sequence and an integer index: negative indices
    count from the end, and [None] is the [IndexError] raised out of range. *)
Definition py_index {B : Type} (l : list B) (idx : Z) : option B :=
  let n := Z.of_nat (length l) in
  if (0 <=? idx)%Z then l !! Z.to_nat idx
  else if (- n <=? idx)%Z then l !! Z.to_nat (n + idx)
  else None.

Section Dataset.

(** [A]: the values the stored tensors hold (float32). *)
Context {A : Type}.

(** [TF.hflip]: the last dimension (width) is reversed. *)
Definition hflip (img : list (list (list A))) : list (list (list A)) :=
  map (map (@rev A)) img.

(** [TF.vflip]: the dimension before the last (height) is reversed. *)
Definition vflip (img : list (list (list A))) : list (list (list A)) :=
  map (@rev (list A)) img.

(** The attributes of the dataset. *)
Record MultichannelFlowDataset : Type := mkDataset {
  ds_labels : list Z;
  ds_augment : bool;
  ds_flip_prob : Q;
  ds_minority_classes : list Z;
  ds_images : list (list (list (list A)))
}.

(** [F]: the values of the feature array (float64), with their zero;
    [float32]: the conversion of one value that
    [torch.tensor(..., dtype=torch.float32)] performs. *)
Context {F : Type} (zero : F) (float32 : F -> A).

(** [torch.tensor(img, dtype=torch.float32)]: every entry of the array is
    converted. *)
Definition tensor_float32 (img : list (list (list F))) : list (list (list A)) :=
  map (map (map float32)) img.

(** The conversion loop of [__init__]: one image per feature row, in order;
    an error of the mapper ends the construction. *)
Fixpoint images_of_rows (feature_array : list (list F))
    (num_channels features_per_channel image_size : nat)
  : option (list (list (list (list A)))) :=
  match feature_array with
  | [] => Some []
  | feats :: rest =>
      match features_to_multichannel_image zero feats num_channels
                                           features_per_channel image_size with
      | None => None
      | Some img =>
          match images_of_rows rest num_channels features_per_channel image_size with
          | None => None
          | Some imgs => Some (tensor_float32 img :: imgs)
          end
      end
  end.

(** [MultichannelFlowDataset.__init__]; [minority_classes or []] turns a
    missing argument into the empty list. *)
Definition dataset_init (feature_array : list (list F)) (label_array : list Z)
    (num_channels features_per_channel image_size : nat) (augment : bool)
    (minority_classes : option (list Z)) (flip_prob : Q)
  : option MultichannelFlowDataset :=
  match images_of_rows feature_array num_channels features_per_channel image_size with
  | None => None
  | Some images =>
      Some {| ds_labels := label_array;
              ds_augment := augment;
              ds_flip_prob := flip_prob;
              ds_minority_classes := default [] minority_classes;
              ds_images := images |}
  end.

(** [__len__] *)
Definition dataset_len (ds : MultichannelFlowDataset) : nat := length (ds_labels ds).

(** [__getitem__]. The generator behind [random.random()] is the sequence
    [draws] of its outputs together with the position [pos] of the next one;
    the position after the call is returned with the sample. *)
Definition dataset_getitem (draws : nat -> Q) (ds : MultichannelFlowDataset) (idx : Z)
    (pos : nat) : option (list (list (list A)) * Z * nat) :=
  match py_index (ds_images ds) idx with
  | None => None
  | Some img =>
      match py_index (ds_labels ds) idx with
      | None => None
      | Some lbl =>
          if ds_augment ds && bool_decide (lbl ∈ ds_minority_classes ds) then
            let img1 := if Qlt_le_dec (draws pos) (ds_flip_prob ds)
                        then hflip img else img in
            let img2 := if Qlt_le_dec (draws (S pos)) (ds_flip_prob ds)
                        then vflip img1 else img1 in
            Some (img2, lbl, S (S pos))
          else Some (img, lbl, pos)
      end
  end.

End Dataset.

(* --------------------------------------------------------------------- *)
(** ** Minority classes ([main_training_and_evaluation])                   *)
(* --------------------------------------------------------------------- *)

(** The number of occurrences of a class. *)
Definition class_count (c : Z) (y : list Z) : nat :=
  length (List.filter (fun x => (x =? c)%Z) y).

(** The distinct values of a list, each at its first occurrence. *)
Fixpoint distinct (seen : list Z) (y : list Z) : list Z :=
  match y with
  | [] => []
  | x :: rest =>
      if bool_decide (x ∈ seen) then distinct seen rest
      else x :: distinct (x :: seen) rest
  end.

(** [pd.Series(y).value_counts(normalize=True)]: every class that occurs,
    with its share of the samples. The entries are listed here in order of
    first occurrence; the code only tests membership in the list derived
    from them. *)
Definition value_counts_normalized (y : list Z) : list (Z * Q) :=
  map (fun c => (c, (Z.of_nat (class_count c y) # 1) / (Z.of_nat (length y) # 1))%Q)
      (distinct [] y).

(** [value_counts(normalize=True)[lambda x: x < threshold].index.tolist()] *)
Definition minority_classes_of (y_train : list Z) (threshold : Q) : list Z :=
  map fst (List.filter (fun cs => if Qlt_le_dec (snd cs) threshold then true else false)
                       (value_counts_normalized y_train)).

(* --------------------------------------------------------------------- *)
(** ** Label encoding ([LabelEncoder])                                     *)
(* --------------------------------------------------------------------- *)

(** Insertion into a list sorted by code points. *)
Fixpoint insert_sorted (x : string) (l : list string) : list string :=
  match l with
  | [] => [x]
  | y :: l' => if String.leb x y then x :: l else y :: insert_sorted x l'
  end.

(** [np.unique]: the distinct values, sorted. *)
Definition np_unique (y : list string) : list string :=
  fold_right insert_sorted [] (nodup string_dec y).

(** The position of a value in a list. *)
Fixpoint index_of (x : string) (l : list string) : option nat :=
  match l with
  | [] => None
  | y :: l' => if String.eqb y x then Some 0
               else match index_of x l' with
                    | Some i => Some (S i)
                    | None => None
                    end
  end.

(** The order of [np.unique] on strings. *)
Definition string_le (a b : string) : Prop := String.leb a b = true.

(** A fitted encoder is its [classes_]. [transform] raises on a label that
    was not seen when fitting, [inverse_transform] on a code out of range. *)
Fixpoint le_transform (classes : list string) (y : list string) : option (list nat) :=
  match y with
  | [] => Some []
  | x :: rest =>
      match index_of x classes with
      | None => None
      | Some i =>
          match le_transform classes rest with
          | None => None
          | Some codes => Some (i :: codes)
          end
      end
  end.

Fixpoint le_inverse_transform (classes : list string) (codes : list nat)
  : option (list string) :=
  match codes with
  | [] => Some []
  | i :: rest =>
      match classes !! i with
      | None => None
      | Some x =>
          match le_inverse_transform classes rest with
          | None => None
          | Some xs => Some (x :: xs)
          end
      end
  end.

(** [fit_transform]: the classes and, for every label, its position among
    them. *)
Definition le_fit_transform (y : list string) : list string * list nat :=
  let classes := np_unique y in
  (classes, map (fun x => default 0 (index_of x classes)) y).

(* --------------------------------------------------------------------- *)
(** ** Feature processing ([process_features_multichannel])                *)
(* --------------------------------------------------------------------- *)

(** A two-dimensional array: its rows and the length of its second axis. *)
Record ndarray : Type := mk_ndarray {
  nd_rows : list (list Q);
  nd_cols : nat
}.

(** [a.shape[0]] *)
Definition shape0 (a : ndarray) : nat := length (nd_rows a).

(** [np.zeros((r, c))] *)
Definition np_zeros2 (r c : nat) : ndarray :=
  {| nd_rows := repeat (repeat 0%Q c) r; nd_cols := c |}.

(** [np.hstack((a, b))]; arrays with different numbers of rows raise. *)
Definition np_hstack (a b : ndarray) : option ndarray :=
  if (shape0 a =? shape0 b)%nat
  then Some {| nd_rows := zip_with (@app Q) (nd_rows a) (nd_rows b);
               nd_cols := nd_cols a + nd_cols b |}
  else None.

(** The stop of the slice [[:n]] on an axis of length [len]. *)
Definition slice_stop (len : nat) (n : Z) : nat :=
  if (0 <=? n)%Z then Nat.min len (Z.to_nat n) else len - Z.to_nat (- n).

(** [a[:, :n]] *)
Definition slice_cols (a : ndarray) (n : Z) : ndarray :=
  {| nd_rows := map (fun row => firstn (slice_stop (length row) n) row) (nd_rows a);
     nd_cols := slice_stop (nd_cols a) n |}.

(** [df.select_dtypes(include=np.number)] as a dataframe. *)
Definition select_dtypes_number (df : dataframe) : dataframe :=
  List.filter (fun c => match snd c with Numeric _ => true | Other _ => false end) df.

(** The number of rows of a frame of numeric columns. *)
Definition df_rows (cols : list (string * list Q)) : nat :=
  match cols with
  | [] => 0
  | (_, v) :: _ => length v
  end.

(** [df.empty]: some axis has length 0. *)
Definition df_empty (cols : list (string * list Q)) : bool :=
  match cols with
  | [] => true
  | _ :: _ => (df_rows cols =? 0)%nat
  end.

(** The values the function returns and its caller unpacks. *)
Inductive pyval : Type :=
| PyNone
| PyArray (a : ndarray)
| PyCodes (y : list nat)
| PyLabelEncoder (classes : list string)
| PyScaler
| PyPCA (n_components : nat).

(** A call returns a tuple of values or raises. *)
Inductive pyresult : Type :=
| Returned (values : list pyval)
| Raised (exception : string).

(** What the first lines of [main_training_and_evaluation] come to. *)
Inductive main_outcome : Type :=
| MainReturns
| MainRaises (exception : string)
| MainProceeds (X_feats y_enc lbl_enc scl pca : pyval).

Section ProcessFeatures.

Variable pearson : list Q -> list Q -> option Q.

(** [StandardScaler().fit_transform]: the scaled array. *)
Variable scaler_fit_transform : list (string * list Q) -> ndarray.

(** [PCA(n_components, random_state).fit_transform]; [None] is the
    [ValueError] that the [try] catches. *)
Variable pca_fit_transform : nat -> Z -> ndarray -> option ndarray.

Definition process_features_multichannel (X_df : dataframe) (y_series : list string)
    (total_features : Z) (correlation_thresh : Q) (random_seed : Z) : pyresult :=
  let '(classes, y_encoded) := le_fit_transform y_series in
  let X_numerical_df := select_dtypes_number X_df in
  if df_empty (select_numeric X_numerical_df) then
    Returned [PyNone; PyNone; PyNone; PyNone]
  else
    let X_corr_filtered := correlation_filtering pearson X_numerical_df correlation_thresh in
    let X_scaled_array := scaler_fit_transform (select_numeric X_corr_filtered) in
    let actual_components :=
      Z.min (Z.min total_features (Z.of_nat (nd_cols X_scaled_array)))
            (Z.of_nat (shape0 X_scaled_array)) in
    if (actual_components <=? 0)%Z then
      Returned [PyNone; PyNone; PyNone; PyNone]
    else
      match pca_fit_transform (Z.to_nat actual_components) random_seed X_scaled_array with
      | None => Returned [PyNone; PyNone; PyNone; PyNone]
      | Some X_pca_array =>
          let X_final_features :=
            if (Z.of_nat (nd_cols X_pca_array) <? total_features)%Z then
              let padding :=
                np_zeros2 (shape0 X_pca_array)
                          (Z.to_nat (total_features - Z.of_nat (nd_cols X_pca_array))) in
              np_hstack X_pca_array padding
            else Some (slice_cols X_pca_array total_features) in
          match X_final_features with
          | None => Raised "ValueError"
          | Some X_final =>
              Returned [PyArray X_final; PyCodes y_encoded; PyLabelEncoder classes;
                        PyScaler; PyPCA (Z.to_nat actual_components)]
          end
      end.

(** The first statements of [main_training_and_evaluation]: the result of
    the loader ([None] for its [None, None]), the unpacking of the five
    values of [process_features_multichannel], and the two guards. *)
Definition main_prologue (loaded : option (dataframe * list string))
    (total_features : Z) (correlation_thresh : Q) (random_seed : Z) : main_outcome :=
  match loaded with
  | None => MainReturns
  | Some (X_raw, y_raw) =>
      match process_features_multichannel X_raw y_raw total_features
                                          correlation_thresh random_seed with
      | Raised e => MainRaises e
      | Returned [X_feats; y_enc; lbl_enc; scl; pca] =>
          match X_feats with
          | PyNone => MainReturns
          | _ => MainProceeds X_feats y_enc lbl_enc scl pca
          end
      | Returned _ => MainRaises "ValueError"
      end
  end.

End ProcessFeatures.

(** A scaler and a decomposition for the examples: the columns laid out as
    rows, and the first [k] coordinates of every row. *)
Definition example_scaler (cols : list (string * list Q)) : ndarray :=
  {| nd_rows := map (fun i => map (fun c => nth i (snd c) 0%Q) cols) (seq 0 (df_rows cols));
     nd_cols := length cols |}.

Definition example_pca (k : nat) (random_seed : Z) (a : ndarray) : option ndarray :=
  Some {| nd_rows := map (firstn k) (nd_rows a); nd_cols := k |}.

(* --------------------------------------------------------------------- *)
(** ** Cleaning of the records ([load_and_prepare_data_from_parquets],      *)
(**    [data_preprocessing.py])                                            *)
(* --------------------------------------------------------------------- *)

Section Cleaning.

(** The finite values a cell can hold (numbers, labels), compared as the
    duplicate test compares them. *)
Context {V : Type} `{EqDecision V}.

Inductive cell : Type :=
| Finite (v : V)
| NaN
| PlusInf
| MinusInf.

#[global] Instance cell_eq_dec : EqDecision cell.
Proof. solve_decision. Defined.

(** [df.replace([np.inf, -np.inf], np.nan)] on one cell. *)
Definition replace_inf (c : cell) : cell :=
  match c with
  | PlusInf | MinusInf => NaN
  | _ => c
  end.

Definition isna (c : cell) : bool :=
  match c with
  | NaN => true
  | _ => false
  end.

(** [df.dropna()]: rows with at least one missing value are removed. *)
Definition dropna (rows : list (list cell)) : list (list cell) :=
  List.filter (fun row => negb (existsb isna row)) rows.

(** [df.drop_duplicates()]: a row equal to an earlier row is removed; [seen]
    holds the rows met so far. *)
Fixpoint drop_duplicates_from (seen rows : list (list cell)) : list (list cell) :=
  match rows with
  | [] => []
  | row :: rest =>
      if bool_decide (row ∈ seen) then drop_duplicates_from seen rest
      else row :: drop_duplicates_from (row :: seen) rest
  end.

Definition drop_duplicates (rows : list (list cell)) : list (list cell) :=
  drop_duplicates_from [] rows.

(** The cleaning both files apply to a frame, given as its rows:
    [replace], [dropna], [drop_duplicates]. *)
Definition clean (rows : list (list cell)) : list (list cell) :=
  drop_duplicates (dropna (map (map replace_inf) rows)).

(** [pd.concat(dfs, axis=0, ignore_index=True)] of frames with the same
    columns. *)
Definition pd_concat (dfs : list (list (list cell))) : list (list cell) := concat dfs.

(** A row without NaN and without infinities. *)
Definition finite_row (row : list cell) : Prop :=
  List.Forall (fun c => exists v, c = Finite v) row.

End Cleaning.

Arguments cell V : clear implicits.

(* --------------------------------------------------------------------- *)
(** ** The controller on the losses of a training run                      *)
(* --------------------------------------------------------------------- *)

(** A validation loss as the training loops compute it is a float, which may
    be NaN or infinite: a [pyfloat]. *)

(** [-x] *)
Definition pyfloat_neg (x : pyfloat) : pyfloat :=
  match x with
  | FloatNaN => FloatNaN
  | FloatNegInf => FloatPosInf
  | FloatFinite q => FloatFinite (- q)
  | FloatPosInf => FloatNegInf
  end.

(** [x < y]: false as soon as an operand is NaN. *)
Definition pyfloat_lt (x y : pyfloat) : bool :=
  match x, y with
  | FloatNaN, _ => false
  | _, FloatNaN => false
  | FloatNegInf, FloatNegInf => false
  | FloatNegInf, _ => true
  | FloatFinite _, FloatNegInf => false
  | FloatFinite a, FloatFinite b => if Qlt_le_dec a b then true else false
  | FloatFinite _, FloatPosInf => true
  | FloatPosInf, _ => false
  end.

(** [x + delta] for a finite [delta]; NaN and the infinities absorb it. *)
Definition pyfloat_plus (x : pyfloat) (delta : Q) : pyfloat :=
  match x with
  | FloatFinite q => FloatFinite (q + delta)
  | _ => x
  end.

(** The attributes of [class EarlyStopping] when the losses are floats:
    [best_score] can then hold a NaN or an infinity. *)
Record EarlyStoppingFloat : Type := mkEarlyStoppingFloat {
  es_patience : Z;
  es_verbose : bool;
  es_counter : Z;
  es_best_score : option pyfloat;
  es_early_stop : bool;
  es_val_loss_min : pyfloat;
  es_delta : Q;
  es_best_model_state_dict : option state_dict
}.

(** [EarlyStopping.__init__] *)
Definition EarlyStoppingFloat_init (patience : Z) (verbose : bool) (delta : Q)
  : EarlyStoppingFloat :=
  {| es_patience := patience; es_verbose := verbose; es_counter := 0;
     es_best_score := None; es_early_stop := false; es_val_loss_min := FloatPosInf;
     es_delta := delta; es_best_model_state_dict := None |}.

(** [EarlyStopping.__call__]: [self.best_score = score] followed by
    [save_checkpoint] in the first and in the last branch, and
    [self.counter = 0] in the last. A NaN score makes the comparison false
    and so takes the last branch. *)
Definition EarlyStoppingFloat_call (self : EarlyStoppingFloat) (val_loss : pyfloat)
    (model : module) (h : heap) : EarlyStoppingFloat * heap :=
  let score := pyfloat_neg val_loss in
  match es_best_score self with
  | None =>
      let r := deepcopy (state_dict_of model) h in
      ({| es_patience := es_patience self; es_verbose := es_verbose self;
          es_counter := es_counter self; es_best_score := Some score;
          es_early_stop := es_early_stop self; es_val_loss_min := val_loss;
          es_delta := es_delta self; es_best_model_state_dict := Some (fst r) |},
       snd r)
  | Some best =>
      if pyfloat_lt score (pyfloat_plus best (es_delta self)) then
        let counter1 := (es_counter self + 1)%Z in
        ({| es_patience := es_patience self; es_verbose := es_verbose self;
            es_counter := counter1; es_best_score := es_best_score self;
            es_early_stop := if (counter1 >=? es_patience self)%Z then true
                             else es_early_stop self;
            es_val_loss_min := es_val_loss_min self;
            es_delta := es_delta self;
            es_best_model_state_dict := es_best_model_state_dict self |},
         h)
      else
        let r := deepcopy (state_dict_of model) h in
        ({| es_patience := es_patience self; es_verbose := es_verbose self;
            es_counter := 0; es_best_score := Some score;
            es_early_stop := es_early_stop self; es_val_loss_min := val_loss;
            es_delta := es_delta self; es_best_model_state_dict := Some (fst r) |},
         snd r)
  end.

(** [EarlyStopping.load_best_weights]; [None] is an exception escaping
    from [load_state_dict]. *)
Definition load_best_weights_float (self : EarlyStoppingFloat) (model : module) (h : heap)
  : option (EarlyStoppingFloat * heap) :=
  match es_best_model_state_dict self with
  | Some sd =>
      match load_state_dict model sd h with
      | Some h' => Some (self, h')
      | None => None
      end
  | None => Some (self, h)
  end.

(* --------------------------------------------------------------------- *)
(** ** The epoch loop ([train_masking_unet], [train_classifier_end_to_end]) *)
(* --------------------------------------------------------------------- *)

(** The loop both training functions run: an epoch trains (in-place updates
    of the weights), appends its validation loss to the history and calls
    the stopper; the loop is left when the stopper raises [early_stop]. An
    epoch is given by the updates it makes and the loss it reports. *)
Fixpoint epoch_loop (stopper : EarlyStoppingFloat) (model : module) (h : heap)
    (epochs : list (list (string * tensor) * pyfloat)) (history : list pyfloat)
  : EarlyStoppingFloat * heap * list pyfloat :=
  match epochs with
  | [] => (stopper, h, history)
  | (ws, v_avg) :: rest =>
      let h1 := mutate_model model ws h in
      let history1 := history ++ [v_avg] in
      let r := EarlyStoppingFloat_call stopper v_avg model h1 in
      if es_early_stop (fst r) then (fst r, snd r, history1)
      else epoch_loop (fst r) model (snd r) rest history1
  end.

(** The stopper is created with the configured patience, [verbose=True] and
    the default [delta = 0]; after the loop the best weights are loaded, and
    the model is returned with the history of validation losses. *)
Definition train_with_early_stopping (early_stopping_patience : Z) (model : module)
    (h : heap) (epochs : list (list (string * tensor) * pyfloat))
  : option (heap * list pyfloat) :=
  let stopper := EarlyStoppingFloat_init early_stopping_patience true 0 in
  let '(stopper1, h1, history) := epoch_loop stopper model h epochs [] in
  match load_best_weights_float stopper1 model h1 with
  | Some (_, h2) => Some (h2, history)
  | None => None
  end.

(** The training updates of a run of epochs alone, without a stopper. *)
Definition run_epochs (model : module) (h : heap)
    (epochs : list (list (string * tensor) * pyfloat)) : heap :=
  fold_left (fun h' e => mutate_model model (fst e) h') epochs h.

(** Two heaps hold the same values in the tensors of the model. *)
Definition agree_on (model : module) (h1 h2 : heap) : Prop :=
  forall l, l ∈ locs model -> h1 !!! l = h2 !!! l.

(** The epoch [b] whose weights the stopper holds: every later loss
    compares greater than the loss of [b]; and when no loss is NaN, no loss
    is below the loss of [b], so that [b] is the last epoch with the least
    loss. *)
Definition best_epoch (losses : list pyfloat) (b : nat) : Prop :=
  exists vb, losses !! b = Some vb /\
             (forall j v, b < j -> losses !! j = Some v -> pyfloat_lt vb v = true) /\
             ((forall j v, losses !! j = Some v -> v <> FloatNaN) ->
              forall j v, losses !! j = Some v -> pyfloat_lt v vb = false).

(** [sd] is a snapshot held in tensors of its own, with the values the model
    has in the heap [target]. *)
Definition snapshot_of (model : module) (sd : state_dict) (h target : heap) : Prop :=
  keys sd = keys model /\
  (forall l, l ∈ locs sd -> l ∉ locs model) /\
  sd_values sd h = sd_values model target.

(** What holds of the stopper and the heap after the epochs [done] of a
    training that started in [h0] with patience [P]: the model holds the
    weights the updates give, and the stopper holds the score of the epoch
    [b] of its snapshot, the snapshot, and the number of epochs since. *)
Definition tracks (model : module) (h0 : heap) (P : Z) (stopper : EarlyStoppingFloat)
    (h : heap) (done : list (list (string * tensor) * pyfloat)) (slack : Z) : Prop :=
  es_delta stopper = 0%Q /\
  es_patience stopper = P /\
  allocated model h /\
  agree_on model h (run_epochs model h0 done) /\
  ((done = [] /\ es_best_score stopper = None /\
    es_best_model_state_dict stopper = None /\ es_counter stopper = 0%Z) \/
   (exists b vb sd,
       map snd done !! b = Some vb /\
       es_best_score stopper = Some (pyfloat_neg vb) /\
       es_best_model_state_dict stopper = Some sd /\
       snapshot_of model sd h (run_epochs model h0 (firstn (S b) done)) /\
       best_epoch (map snd done) b /\
       es_counter stopper = Z.of_nat (length done - 1 - b) /\
       (es_counter stopper < Z.max P 1 + slack)%Z)).

(** Five epochs of training: the least validation loss is reached in the
    second epoch and again in the third. *)
Definition example_epochs : list (list (string * tensor) * pyfloat) :=
  [([("weight"%string, [1 # 1; 1 # 1]%Q)], FloatFinite (3 # 1));
   ([("weight"%string, [2 # 1; 2 # 1]%Q)], FloatFinite (2 # 1));
   ([("weight"%string, [3 # 1; 3 # 1]%Q)], FloatFinite (2 # 1));
   ([("weight"%string, [4 # 1; 4 # 1]%Q)], FloatFinite (5 # 1));
   ([("weight"%string, [5 # 1; 5 # 1]%Q)], FloatFinite (1 # 1))].

(** Five epochs with the losses 1, NaN, 2, 3, 4. *)
Definition example_epochs_nan : list (list (string * tensor) * pyfloat) :=
  [([("weight"%string, [1 # 1; 1 # 1]%Q)], FloatFinite (1 # 1));
   ([("weight"%string, [2 # 1; 2 # 1]%Q)], FloatNaN);
   ([("weight"%string, [3 # 1; 3 # 1]%Q)], FloatFinite (2 # 1));
   ([("weight"%string, [4 # 1; 4 # 1]%Q)], FloatFinite (3 # 1));
   ([("weight"%string, [5 # 1; 5 # 1]%Q)], FloatFinite (4 # 1))].

(** A conversion to float32 for the examples: 16777217 = 2^24 + 1 is not a
    float32 and becomes 16777216; the other values used are kept. *)
Definition example_float32 (v : Z) : Z :=
  if (v =? 16777217)%Z then 16777216%Z else v.

(* ===================================================================== *)
(** * Part II: properties                                                  *)
(* ===================================================================== *)

(* --------------------------------------------------------------------- *)
(** ** Label consolidation                                                 *)
(* --------------------------------------------------------------------- *)

Lemma append_cons (a : ascii) (s t : string) :
  (String a s +:+ t)%string = String a (s +:+ t)%string.
Proof. reflexivity. Qed.

Lemma append_nil_l (t : string) : (""%string +:+ t)%string = t.
Proof. reflexivity. Qed.

Ltac norm_append := rewrite ?append_cons, ?append_nil_l in *.

Lemma prefix_iff_app (n h : string) :
  String.prefix n h = true <-> exists post, h = (n +:+ post)%string.
Proof.
  revert h. induction n as [|a n IH]; intros h.
  - split; [intros _; exists h; reflexivity | intros _; destruct h; reflexivity].
  - destruct h as [|b h]; simpl.
    + split; [discriminate | intros [post H]; discriminate].
    + destruct (Ascii.ascii_dec a b) as [->|Hne].
      * rewrite IH. split; intros [post H]; exists post; norm_append; congruence.
      * split; [discriminate | intros [post H]; norm_append; congruence].
Qed.

Lemma str_in_here (n h : string) :
  String.prefix n h = true -> exists pre post, h = (pre +:+ n +:+ post)%string.
Proof.
  intros E. apply prefix_iff_app in E as [post E].
  exists ""%string, post. exact E.
Qed.

Lemma str_in_unfold (n h : string) :
  str_in n h = if String.prefix n h then true
               else match h with
                    | EmptyString => false
                    | String _ t => str_in n t
                    end.
Proof. destruct h; reflexivity. Qed.

Lemma str_in_iff (n h : string) :
  str_in n h = true <-> exists pre post, h = (pre +:+ n +:+ post)%string.
Proof.
  induction h as [|b h IH]; rewrite str_in_unfold.
  - destruct (String.prefix n "") eqn:E.
    + split; [intros _; apply str_in_here, E | reflexivity].
    + split; [discriminate |].
      intros [pre [post H]]. destruct pre; norm_append; [|discriminate].
      assert (String.prefix n "" = true) by (apply prefix_iff_app; eauto).
      congruence.
  - destruct (String.prefix n (String b h)) eqn:E.
    + split; [intros _; apply str_in_here, E | reflexivity].
    + rewrite IH. split.
      * intros [pre [post H]]. exists (String b pre), post.
        norm_append. congruence.
      * intros [pre [post H]]. destruct pre as [|c pre]; norm_append.
        -- assert (String.prefix n (String b h) = true)
             by (apply prefix_iff_app; eauto).
           congruence.
        -- exists pre, post. congruence.
Qed.

Lemma ci_contains_iff (kw label : string) :
  ci_contains kw label <-> str_in kw (lower label) = true.
Proof. unfold ci_contains. symmetry. apply str_in_iff. Qed.

Lemma ci_contains_false (kw label : string) :
  ~ ci_contains kw label -> str_in kw (lower label) = false.
Proof.
  rewrite ci_contains_iff. destruct (str_in kw (lower label)); congruence.
Qed.

Lemma consolidate_loop_acc (labels acc : list string) :
  fold_left (fun consolidated label => consolidated ++ [consolidate_label label])
            labels acc
  = acc ++ map consolidate_label labels.
Proof.
  revert acc. induction labels as [|l labels IH]; intros acc; simpl.
  - symmetry. apply app_nil_r.
  - rewrite IH, <- app_assoc. reflexivity.
Qed.

(** C4. [consolidate_labels] is a total function that yields one class per
    input label, always one of the six canonical classes; the class is decided
    by case-insensitive substring rules in the priority order
    benign > ddos > dos > bot > infil, and every other label (whether or not
    it carries a brute-force keyword) becomes "Brute Force"; the five sample
    labels of the specification map as stated. *)
Theorem consolidate_labels_six_classes_priority :
  (forall labels : list string,
      consolidate_labels labels = map consolidate_label labels /\
      length (consolidate_labels labels) = length labels) /\
  (forall label : string, In (consolidate_label label) six_classes) /\
  (forall label : string,
      (ci_contains "benign" label -> consolidate_label label = "Benign"%string) /\
      (~ ci_contains "benign" label -> ci_contains "ddos" label ->
       consolidate_label label = "DDoS"%string) /\
      (~ ci_contains "benign" label -> ~ ci_contains "ddos" label ->
       ci_contains "dos" label -> consolidate_label label = "DoS"%string) /\
      (~ ci_contains "benign" label -> ~ ci_contains "ddos" label ->
       ~ ci_contains "dos" label -> ci_contains "bot" label ->
       consolidate_label label = "Botnet"%string) /\
      (~ ci_contains "benign" label -> ~ ci_contains "ddos" label ->
       ~ ci_contains "dos" label -> ~ ci_contains "bot" label ->
       ci_contains "infil" label ->
       consolidate_label label = "Infiltration"%string) /\
      (~ ci_contains "benign" label -> ~ ci_contains "ddos" label ->
       ~ ci_contains "dos" label -> ~ ci_contains "bot" label ->
       ~ ci_contains "infil" label ->
       consolidate_label label = "Brute Force"%string)) /\
  (forall l1 l2 : string,
      lower l1 = lower l2 -> consolidate_label l1 = consolidate_label l2) /\
  consolidate_labels
    ["BENIGN"; "Benign-Traffic"; "DDOS attack-HOIC"; "FTP-BruteForce";
     "Infilteration"]%string
  = ["Benign"; "Benign"; "DDoS"; "Brute Force"; "Infiltration"]%string.
Proof.
  split; [|split; [|split; [|split]]].
  - intros labels. unfold consolidate_labels.
    rewrite consolidate_loop_acc. simpl. split; [reflexivity|].
    apply length_map.
  - intros label. unfold consolidate_label, six_classes.
    repeat match goal with
           | |- context [if ?b then _ else _] => destruct b
           end; simpl; tauto.
  - intros label. unfold consolidate_label.
    repeat split; intros;
      repeat match goal with
             | H : ci_contains _ _ |- _ => apply ci_contains_iff in H; rewrite H
             | H : ~ ci_contains _ _ |- _ => apply ci_contains_false in H; rewrite H
             end; try reflexivity.
    destruct (any_in brute_keywords (lower label)); reflexivity.
  - intros l1 l2 H. unfold consolidate_label. rewrite H. reflexivity.
  - vm_compute. reflexivity.
Qed.

Lemma consolidate_labels_six_classes_priority_witness :
  consolidate_label "DoS attacks-Hulk" = "DoS"%string.
Proof.
  destruct consolidate_labels_six_classes_priority as (_ & _ & Hprio & _).
  destruct (Hprio "DoS attacks-Hulk"%string) as (_ & _ & Hdos & _).
  apply Hdos.
  - intros H. apply ci_contains_iff in H. vm_compute in H. discriminate H.
  - intros H. apply ci_contains_iff in H. vm_compute in H. discriminate H.
  - apply ci_contains_iff. vm_compute. reflexivity.
Defined.

(* --------------------------------------------------------------------- *)
(** ** The heap: deep copies and in-place updates                          *)
(* --------------------------------------------------------------------- *)

(** Closes [x ∉ [a; b; …]] for distinct closed terms. *)
Ltac solve_not_elem :=
  let H := fresh "H" in
  intros H;
  repeat (apply elem_of_cons in H as [H|H]; [discriminate H|]);
  inversion H.

Lemma elem_of_locs_cons (name : string) (l l' : loc) (sd : state_dict) :
  l' ∈ locs ((name, l) :: sd) <-> l' = l \/ l' ∈ locs sd.
Proof. unfold locs. simpl. apply elem_of_cons. Qed.

Lemma deepcopy_keys (sd : state_dict) (h : heap) :
  keys (fst (deepcopy sd h)) = keys sd.
Proof.
  revert h. induction sd as [|[name l] sd IH]; intros h; simpl; [reflexivity|].
  f_equal. apply IH.
Qed.

(** A deep copy leaves every object that existed before untouched. *)
Lemma deepcopy_preserves (sd : state_dict) (h : heap) (l : loc) :
  l ∈ dom h -> snd (deepcopy sd h) !! l = h !! l.
Proof.
  revert h. induction sd as [|[name l0] sd IH]; intros h Hl; simpl; [reflexivity|].
  assert (fresh (dom h) <> l) as Hne.
  { intros <-. exact (is_fresh (dom h) Hl). }
  rewrite IH.
  - apply lookup_insert_ne. exact Hne.
  - rewrite dom_insert_L. apply elem_of_union_r, Hl.
Qed.

Lemma deepcopy_dom_mono (sd : state_dict) (h : heap) (l : loc) :
  l ∈ dom h -> l ∈ dom (snd (deepcopy sd h)).
Proof.
  intros Hl. apply elem_of_dom. rewrite deepcopy_preserves by exact Hl.
  apply elem_of_dom. exact Hl.
Qed.

(** The copies are new objects, all distinct. *)
Lemma deepcopy_fresh (sd : state_dict) (h : heap) (l : loc) :
  l ∈ locs (fst (deepcopy sd h)) -> (l ∉ dom h) /\ (l ∈ dom (snd (deepcopy sd h))).
Proof.
  revert h. induction sd as [|[name l0] sd IH]; intros h; cbn [deepcopy fst snd].
  - unfold locs; simpl. intros H. inversion H.
  - rewrite elem_of_locs_cons. intros [-> | Hin].
    + split; [apply is_fresh|].
      apply deepcopy_dom_mono. rewrite dom_insert_L.
      apply elem_of_union_l, elem_of_singleton. reflexivity.
    + destruct (IH _ Hin) as [Hn Hd]. split; [|exact Hd].
      rewrite dom_insert_L in Hn. intros Hold. apply Hn, elem_of_union_r, Hold.
Qed.

Lemma deepcopy_NoDup (sd : state_dict) (h : heap) :
  NoDup (locs (fst (deepcopy sd h))).
Proof.
  revert h. induction sd as [|[name l0] sd IH]; intros h; cbn [deepcopy fst snd].
  - constructor.
  - unfold locs; simpl. constructor; [|apply IH].
    intros Hin. apply deepcopy_fresh in Hin as [Hn _].
    rewrite dom_insert_L in Hn.
    apply Hn, elem_of_union_l, elem_of_singleton. reflexivity.
Qed.

(** Right after the copy, the snapshot denotes the values of the original. *)
Lemma deepcopy_values (sd : state_dict) (h : heap) :
  allocated sd h ->
  sd_values (fst (deepcopy sd h)) (snd (deepcopy sd h)) = sd_values sd h.
Proof.
  revert h. induction sd as [|[name l0] sd IH]; intros h Hal; simpl; [reflexivity|].
  assert (l0 ∈ dom h) as Hl0 by (apply Hal, elem_of_locs_cons; auto).
  set (l' := fresh (dom h)). set (h1 := <[l' := h !!! l0]> h).
  assert (allocated sd h1) as Hal1.
  { intros l Hl. unfold h1. rewrite dom_insert_L.
    apply elem_of_union_r, Hal, elem_of_locs_cons. auto. }
  f_equal.
  - f_equal. rewrite lookup_total_alt, deepcopy_preserves.
    + unfold h1. rewrite lookup_insert_eq. reflexivity.
    + unfold h1. rewrite dom_insert_L.
      apply elem_of_union_l, elem_of_singleton. reflexivity.
  - rewrite IH by exact Hal1. unfold sd_values.
    apply map_ext_in. intros [n l] Hin. simpl. f_equal.
    unfold h1. apply lookup_total_insert_ne.
    intros <-. apply (is_fresh (dom h)). apply Hal, elem_of_locs_cons. right.
    unfold locs. apply list_elem_of_In, in_map_iff. exists (n, fresh (dom h)).
    split; [reflexivity | exact Hin].
Qed.

(** The live tensors of the model are not modified by the copy. *)
Lemma deepcopy_model_values (model sd : state_dict) (h : heap) :
  allocated model h ->
  sd_values model (snd (deepcopy sd h)) = sd_values model h.
Proof.
  intros Hal. unfold sd_values. apply map_ext_in. intros [n l] Hin. simpl.
  f_equal. rewrite !lookup_total_alt, deepcopy_preserves; [reflexivity|].
  apply Hal. unfold locs. apply list_elem_of_In, in_map_iff.
  exists (n, l). split; [reflexivity | exact Hin].
Qed.

Lemma sd_get_in_locs (name : string) (sd : state_dict) (l : loc) :
  sd_get name sd = Some l -> l ∈ locs sd.
Proof.
  induction sd as [|[k l0] sd IH]; cbn [sd_get]; [discriminate|].
  rewrite elem_of_locs_cons. destruct (String.eqb k name).
  - intros [= ->]. auto.
  - auto.
Qed.

(** An in-place update of the model only writes to the model's tensors. *)
Lemma set_weight_other (model : module) (name : string) (v : tensor) (h : heap) (l : loc) :
  l ∉ locs model -> set_weight model name v h !! l = h !! l.
Proof.
  intros Hl. unfold set_weight. destruct (sd_get name model) as [l0|] eqn:E; [|reflexivity].
  apply lookup_insert_ne. intros ->. apply Hl. eapply sd_get_in_locs, E.
Qed.

Lemma mutate_model_other (model : module) (ws : list (string * tensor)) (h : heap) (l : loc) :
  l ∉ locs model -> mutate_model model ws h !! l = h !! l.
Proof.
  intros Hl. unfold mutate_model. revert h.
  induction ws as [|w ws IH]; intros h; simpl; [reflexivity|].
  rewrite IH. apply set_weight_other, Hl.
Qed.

(** Values of a state dict only depend on the heap at its own tensors. *)
Lemma sd_values_agree (sd : state_dict) (h h' : heap) :
  (forall l, l ∈ locs sd -> h' !! l = h !! l) ->
  sd_values sd h' = sd_values sd h.
Proof.
  intros Hag. unfold sd_values. apply map_ext_in. intros [n l] Hin. simpl.
  f_equal. rewrite !lookup_total_alt, Hag; [reflexivity|].
  unfold locs. apply list_elem_of_In, in_map_iff.
  exists (n, l). split; [reflexivity | exact Hin].
Qed.

(** The frame property of a snapshot: it is disjoint from the live model,
    so no in-place update of the model can reach it. *)
Lemma snapshot_frame (model : module) (h : heap) (ws : list (string * tensor)) :
  allocated model h ->
  sd_values (fst (deepcopy model h)) (mutate_model model ws (snd (deepcopy model h)))
  = sd_values model h.
Proof.
  intros Hal. rewrite <- (deepcopy_values model h Hal).
  apply sd_values_agree. intros l Hl. apply mutate_model_other.
  intros Hm. apply deepcopy_fresh in Hl as [Hn _]. apply Hn, Hal, Hm.
Qed.

(* --------------------------------------------------------------------- *)
(** ** The early-stopping controller                                       *)
(* --------------------------------------------------------------------- *)

(** The three branches of [__call__]. *)
Lemma call_first (es : EarlyStopping) (val_loss : Q) (model : module) (h : heap) :
  best_score es = None ->
  EarlyStopping_call es val_loss model h
  = save_checkpoint (set_best_score es (- val_loss)%Q) val_loss model h.
Proof. intros Hb. unfold EarlyStopping_call. rewrite Hb. reflexivity. Qed.

Lemma call_no_improvement (es : EarlyStopping) (val_loss : Q) (model : module)
    (h : heap) (b : Q) :
  best_score es = Some b ->
  (- val_loss < b + delta es)%Q ->
  EarlyStopping_call es val_loss model h
  = (if (counter es + 1 >=? patience es)%Z
     then set_early_stop (set_counter es (counter es + 1)%Z) true
     else set_counter es (counter es + 1)%Z, h).
Proof.
  intros Hb Hlt. unfold EarlyStopping_call. rewrite Hb.
  destruct (Qlt_le_dec (- val_loss) (b + delta es)) as [_|Hle].
  - cbn [counter patience set_counter].
    destruct (counter es + 1 >=? patience es)%Z; reflexivity.
  - exfalso. Lqa.lra.
Qed.

Lemma call_improvement (es : EarlyStopping) (val_loss : Q) (model : module)
    (h : heap) (b : Q) :
  best_score es = Some b ->
  (b + delta es <= - val_loss)%Q ->
  EarlyStopping_call es val_loss model h
  = (set_counter (fst (save_checkpoint (set_best_score es (- val_loss)%Q)
                                        val_loss model h)) 0%Z,
     snd (save_checkpoint (set_best_score es (- val_loss)%Q) val_loss model h)).
Proof.
  intros Hb Hle. unfold EarlyStopping_call. rewrite Hb.
  destruct (Qlt_le_dec (- val_loss) (b + delta es)) as [Hlt|_].
  - exfalso. Lqa.lra.
  - reflexivity.
Qed.

(** [__call__] never assigns [patience] or [delta]. *)
Lemma call_config (es : EarlyStopping) (val_loss : Q) (model : module) (h : heap) :
  patience (fst (EarlyStopping_call es val_loss model h)) = patience es /\
  delta (fst (EarlyStopping_call es val_loss model h)) = delta es.
Proof.
  unfold EarlyStopping_call.
  destruct (best_score es) as [b|]; [|split; reflexivity].
  destruct (Qlt_le_dec _ _); [|split; reflexivity].
  cbn [counter patience set_counter].
  destruct (counter es + 1 >=? patience es)%Z; split; reflexivity.
Qed.

(** No branch of [__call__] ever assigns [False] to [early_stop]. *)
Lemma call_keeps_early_stop (es : EarlyStopping) (val_loss : Q) (model : module)
    (h : heap) :
  early_stop es = true ->
  early_stop (fst (EarlyStopping_call es val_loss model h)) = true.
Proof.
  intros Hs. unfold EarlyStopping_call.
  destruct (best_score es) as [b|]; [|exact Hs].
  destruct (Qlt_le_dec _ _); [|exact Hs].
  cbn [counter patience set_counter].
  destruct (counter es + 1 >=? patience es)%Z; [reflexivity | exact Hs].
Qed.

Lemma feed_keeps_early_stop (epochs : list (list (string * tensor) * Q))
    (es : EarlyStopping) (model : module) (h : heap) :
  early_stop es = true ->
  early_stop (fst (feed es model h epochs)) = true.
Proof.
  revert es h. induction epochs as [|[ws l] epochs IH]; intros es h Hs.
  - exact Hs.
  - cbn [feed]. apply IH, call_keeps_early_stop, Hs.
Qed.

(** A run of non-improving observations: the counter counts them, the best
    score and the snapshot stay, and the stop flag is raised from the
    [patience]-th of them on. *)
Lemma feed_no_improvement (epochs : list (list (string * tensor) * Q))
    (es : EarlyStopping) (model : module) (h : heap) (b : Q) :
  best_score es = Some b ->
  (0 <= counter es)%Z ->
  early_stop es = ((0 <? counter es)%Z && (patience es <=? counter es)%Z) ->
  Forall (fun e => (- snd e < b + delta es)%Q) epochs ->
  let es' := fst (feed es model h epochs) in
  counter es' = (counter es + Z.of_nat (length epochs))%Z /\
  best_score es' = Some b /\
  early_stop es' = ((0 <? counter es')%Z && (patience es <=? counter es')%Z) /\
  best_model_state_dict es' = best_model_state_dict es.
Proof.
  revert es h. induction epochs as [|[ws l] epochs IH]; intros es h Hb Hc Hs Hall.
  - cbn [feed fst length]. rewrite Z.add_0_r. auto.
  - inversion Hall as [|e es0 Hl Hrest]; subst. cbn [snd] in Hl.
    cbn [feed]. rewrite (call_no_improvement es l model _ b Hb Hl). cbn [fst snd].
    set (es1 := if (counter es + 1 >=? patience es)%Z
                then set_early_stop (set_counter es (counter es + 1)%Z) true
                else set_counter es (counter es + 1)%Z).
    assert (counter es1 = (counter es + 1)%Z /\ best_score es1 = Some b /\
            patience es1 = patience es /\ delta es1 = delta es /\
            best_model_state_dict es1 = best_model_state_dict es /\
            early_stop es1 = ((0 <? counter es + 1)%Z && (patience es <=? counter es + 1)%Z))
      as (Hc1 & Hb1 & Hp1 & Hd1 & Hm1 & Hs1).
    { unfold es1. destruct (counter es + 1 >=? patience es)%Z eqn:E;
        cbn; repeat split; auto.
      - symmetry. apply andb_true_iff. split; [apply Z.ltb_lt | apply Z.leb_le]; lia.
      - rewrite Hs. 
        assert ((patience es <=? counter es)%Z = false) as -> by (apply Z.leb_gt; lia).
        assert ((patience es <=? counter es + 1)%Z = false) as -> by (apply Z.leb_gt; lia).
        rewrite !andb_false_r. reflexivity. }
    specialize (IH es1 (mutate_model model ws h)).
    cbn zeta in IH. rewrite Hc1, Hp1, Hd1, Hm1 in IH.
    destruct IH as (IH1 & IH2 & IH3 & IH4); auto; try lia.
    repeat split; auto.
    rewrite IH1. cbn [length]. lia.
Qed.

(** A strictly decreasing run of losses under [delta = 0]: every observation
    improves on the best score, and the stop flag stays down. *)
Lemma feed_decreasing (epochs : list (list (string * tensor) * Q))
    (es : EarlyStopping) (model : module) (h : heap) (b : Q) :
  best_score es = Some b ->
  early_stop es = false ->
  (delta es == 0)%Q ->
  strictly_decreasing (map snd epochs) ->
  (forall e, head epochs = Some e -> (snd e < - b)%Q) ->
  early_stop (fst (feed es model h epochs)) = false /\
  counter (fst (feed es model h epochs)) = match epochs with [] => counter es | _ => 0%Z end.
Proof.
  revert es h b. induction epochs as [|[ws l] epochs IH]; intros es h b Hb Hs Hd Hdec Hhd.
  - cbn [feed fst]. auto.
  - assert (l < - b)%Q as Hl by (apply (Hhd (ws, l)); reflexivity).
    cbn [feed].
    assert (b + delta es <= - l)%Q as Himp by Lqa.lra.
    rewrite (call_improvement es l model _ b Hb Himp). cbn [fst snd].
    set (es1 := set_counter _ 0%Z).
    specialize (IH es1 (snd (deepcopy (state_dict_of model) (mutate_model model ws h)))
                   (- l)%Q).
    destruct IH as [IH1 IH2]; auto.
    + destruct epochs as [|[ws' l'] epochs]; [exact I|]. cbn in Hdec. tauto.
    + intros [ws' l'] He. destruct epochs as [|e0 epochs]; [discriminate|].
      injection He as ->. cbn in Hdec. cbn [snd]. destruct Hdec as [Hlt _]. Lqa.lra.
    + split; [exact IH1|].
      transitivity (match epochs with [] => counter es1 | _ => 0%Z end);
        [exact IH2 | destruct epochs; reflexivity].
Qed.

Lemma save_checkpoint_snapshot (es : EarlyStopping) (val_loss : Q) (model : module)
    (h : heap) :
  best_model_state_dict (fst (save_checkpoint es val_loss model h))
  = Some (fst (deepcopy (state_dict_of model) h)).
Proof. reflexivity. Qed.

(** C6. With [delta = 0]: (a) a strictly decreasing sequence of validation
    losses fed to a new controller never raises [early_stop]; (b) after the
    initial observation, a run of observations without improvement increments
    the counter once per call and, for a patience of at least one, raises
    [early_stop] exactly from the [patience]-th of them on (this part holds for
    every [delta]); (c) a sufficiently improving call updates the best score,
    takes a new snapshot of the weights and resets the counter to zero. *)
Theorem early_stopping_counts_and_stops :
  (forall pat verb d model h epochs,
      (d == 0)%Q ->
      strictly_decreasing (map snd epochs) ->
      early_stop (fst (feed (EarlyStopping_init pat verb d) model h epochs)) = false) /\
  (forall pat verb d model h ws0 l0 epochs,
      (1 <= pat)%Z ->
      Forall (fun e => (- snd e < - l0 + d)%Q) epochs ->
      let es := fst (feed (EarlyStopping_init pat verb d) model h ((ws0, l0) :: epochs)) in
      counter es = Z.of_nat (length epochs) /\
      early_stop es = (pat <=? Z.of_nat (length epochs))%Z /\
      best_score es = Some (- l0)%Q) /\
  (forall es val_loss model h b,
      best_score es = Some b ->
      (b + delta es <= - val_loss)%Q ->
      let r := EarlyStopping_call es val_loss model h in
      best_score (fst r) = Some (- val_loss)%Q /\
      counter (fst r) = 0%Z /\
      val_loss_min (fst r) = Fin val_loss /\
      best_model_state_dict (fst r) = Some (fst (deepcopy (state_dict_of model) h)) /\
      (allocated model h -> snapshot_values (fst r) (snd r) = Some (sd_values model h))).
Proof.
  split; [|split].
  - intros pat verb d model h epochs Hd Hdec.
    destruct epochs as [|[ws l] epochs]; [reflexivity|].
    cbn [feed]. rewrite call_first by reflexivity.
    set (r := save_checkpoint _ _ _ _).
    apply (feed_decreasing epochs (fst r) model (snd r) (- l)%Q); try reflexivity.
    + exact Hd.
    + destruct epochs as [|[ws' l'] epochs]; [exact I|]. cbn in Hdec. tauto.
    + intros [ws' l'] He. destruct epochs as [|e0 epochs]; [discriminate|].
      injection He as ->. cbn in Hdec. cbn [snd]. destruct Hdec as [Hlt _]. Lqa.lra.
  - intros pat verb d model h ws0 l0 epochs Hpat Hall.
    cbn [feed]. rewrite call_first by reflexivity.
    set (r := save_checkpoint _ _ _ _).
    destruct (feed_no_improvement epochs (fst r) model (snd r) (- l0)%Q)
      as (Hc & Hb & Hs & _); try reflexivity.
    + exact Hall.
    + cbn zeta. rewrite Hs, Hc, Hb. cbn [r save_checkpoint fst counter patience
                                         set_best_score EarlyStopping_init].
      rewrite Z.add_0_l. repeat split.
      destruct (pat <=? Z.of_nat (length epochs))%Z eqn:E.
      * apply Z.leb_le in E. rewrite andb_true_r. apply Z.ltb_lt. lia.
      * apply andb_false_r.
  - intros es val_loss model h b Hb Himp. cbn zeta.
    rewrite (call_improvement es val_loss model h b Hb Himp). cbn [fst snd].
    repeat split.
    intros Hal. unfold snapshot_values. cbn.
    f_equal. apply (deepcopy_values model h Hal).
Qed.

Lemma early_stopping_counts_and_stops_witness :
  early_stop (fst (feed (EarlyStopping_init 2 false 0) example_model example_heap
                        [([], 1 # 1); ([], 2 # 1); ([], 3 # 1); ([], 4 # 1)]%Q)) = true
  /\ early_stop (fst (feed (EarlyStopping_init 2 false 0) example_model example_heap
                        [([], 4 # 1); ([], 3 # 1); ([], 2 # 1); ([], 1 # 1)]%Q)) = false.
Proof.
  destruct early_stopping_counts_and_stops as (Ha & Hb & _). split.
  - destruct (Hb 2%Z false 0%Q example_model example_heap [] (1 # 1)%Q
                 [([], 2 # 1); ([], 3 # 1); ([], 4 # 1)]%Q) as (_ & Hs & _).
    + lia.
    + repeat constructor.
    + exact Hs.
  - apply Ha.
    + reflexivity.
    + cbn. repeat split.
Defined.

(** C8. The first observation fed to a controller becomes the best score and
    triggers a snapshot, and the snapshot taken by [save_checkpoint] is a deep,
    independent copy: its tensors are objects distinct from the model's, it
    holds the weights the model had at that time, and it keeps holding them
    after any sequence of in-place updates of the live model. *)
Theorem first_observation_snapshot_independent :
  (forall es val_loss model h,
      best_score es = None ->
      allocated model h ->
      let r := EarlyStopping_call es val_loss model h in
      best_score (fst r) = Some (- val_loss)%Q /\
      best_model_state_dict (fst r) = Some (fst (deepcopy (state_dict_of model) h)) /\
      snapshot_values (fst r) (snd r) = Some (sd_values model h) /\
      sd_values model (snd r) = sd_values model h /\
      forall ws, snapshot_values (fst r) (mutate_model model ws (snd r))
                 = Some (sd_values model h)) /\
  (forall es val_loss model h,
      allocated model h ->
      let r := save_checkpoint es val_loss model h in
      (forall sd l, best_model_state_dict (fst r) = Some sd ->
                    l ∈ locs sd -> l ∉ locs model) /\
      snapshot_values (fst r) (snd r) = Some (sd_values model h) /\
      forall ws, snapshot_values (fst r) (mutate_model model ws (snd r))
                 = Some (sd_values model h)).
Proof.
  split.
  - intros es val_loss model h Hb Hal. cbn zeta.
    rewrite (call_first es val_loss model h Hb).
    unfold snapshot_values. cbn [save_checkpoint fst snd best_score set_best_score
                                 best_model_state_dict].
    repeat split.
    + f_equal. apply (deepcopy_values model h Hal).
    + apply deepcopy_model_values, Hal.
    + intros ws. f_equal. apply snapshot_frame, Hal.
  - intros es val_loss model h Hal. cbn zeta.
    unfold snapshot_values. cbn [save_checkpoint fst snd best_model_state_dict].
    repeat split.
    + intros sd l [= <-] Hl Hm. apply deepcopy_fresh in Hl as [Hn _].
      apply Hn, Hal, Hm.
    + f_equal. apply (deepcopy_values model h Hal).
    + intros ws. f_equal. apply snapshot_frame, Hal.
Qed.

Lemma example_model_allocated : allocated example_model example_heap.
Proof.
  intros l Hl. apply elem_of_dom. unfold example_model, locs in Hl. cbn in Hl.
  apply elem_of_cons in Hl as [-> | Hl]; [vm_compute; eauto|].
  apply elem_of_cons in Hl as [-> | Hl]; [vm_compute; eauto|].
  inversion Hl.
Qed.

Lemma first_observation_snapshot_independent_witness :
  snapshot_values
    (fst (EarlyStopping_call (EarlyStopping_init 5 false 0) (3 # 4) example_model
                             example_heap))
    (mutate_model example_model [("weight"%string, [9 # 1; 9 # 1]%Q)]
       (snd (EarlyStopping_call (EarlyStopping_init 5 false 0) (3 # 4) example_model
                                example_heap)))
  = Some [("weight"%string, [1 # 2; 3 # 1]%Q); ("bias"%string, [0 # 1]%Q)].
Proof.
  destruct first_observation_snapshot_independent as (Hfirst & _).
  destruct (Hfirst (EarlyStopping_init 5 false 0) (3 # 4)%Q example_model example_heap)
    as (_ & _ & _ & _ & Hframe).
  - reflexivity.
  - exact example_model_allocated.
  - rewrite Hframe. vm_compute. reflexivity.
Defined.

(** A dict that merely refers to the live tensors, as [state_dict()] alone
    returns it, does follow the updates of the model: the copy matters. *)
Example aliasing_state_dict_follows_updates :
  sd_values (state_dict_of example_model)
            (mutate_model example_model [("weight"%string, [9 # 1; 9 # 1]%Q)] example_heap)
  = [("weight"%string, [9 # 1; 9 # 1]%Q); ("bias"%string, [0 # 1]%Q)].
Proof. vm_compute. reflexivity. Qed.

(** C10. The stopped state is absorbing: once [early_stop] is [True], no call
    of [__call__] resets it, whatever is observed afterwards; a call that
    reports a sufficient improvement (with [delta = 0]: any strictly lower
    loss than the best one) still updates the best score, takes a new snapshot
    and resets the counter, and leaves [early_stop] at [True]. *)
Theorem early_stop_is_absorbing :
  (forall es val_loss model h,
      early_stop es = true ->
      early_stop (fst (EarlyStopping_call es val_loss model h)) = true) /\
  (forall es model h epochs,
      early_stop es = true ->
      early_stop (fst (feed es model h epochs)) = true) /\
  (forall es val_loss model h b,
      early_stop es = true ->
      best_score es = Some b ->
      (b + delta es <= - val_loss)%Q ->
      let r := EarlyStopping_call es val_loss model h in
      early_stop (fst r) = true /\
      best_score (fst r) = Some (- val_loss)%Q /\
      counter (fst r) = 0%Z /\
      best_model_state_dict (fst r) = Some (fst (deepcopy (state_dict_of model) h))) /\
  (forall es val_loss model h b,
      early_stop es = true ->
      best_score es = Some b ->
      (delta es == 0)%Q ->
      (val_loss < - b)%Q ->
      let r := EarlyStopping_call es val_loss model h in
      early_stop (fst r) = true /\
      best_score (fst r) = Some (- val_loss)%Q /\
      counter (fst r) = 0%Z /\
      best_model_state_dict (fst r) = Some (fst (deepcopy (state_dict_of model) h))).
Proof.
  assert (forall es val_loss model h b,
      early_stop es = true ->
      best_score es = Some b ->
      (b + delta es <= - val_loss)%Q ->
      let r := EarlyStopping_call es val_loss model h in
      early_stop (fst r) = true /\
      best_score (fst r) = Some (- val_loss)%Q /\
      counter (fst r) = 0%Z /\
      best_model_state_dict (fst r) = Some (fst (deepcopy (state_dict_of model) h)))
    as Himproved.
  { intros es val_loss model h b Hs Hb Himp. cbn zeta.
    rewrite (call_improvement es val_loss model h b Hb Himp). cbn [fst snd].
    repeat split. exact Hs. }
  split; [|split; [|split]].
  - intros es val_loss model h. apply call_keeps_early_stop.
  - intros es model h epochs. apply feed_keeps_early_stop.
  - exact Himproved.
  - intros es val_loss model h b Hs Hb Hd Hlt.
    apply (Himproved es val_loss model h b Hs Hb). Lqa.lra.
Qed.

Lemma early_stop_is_absorbing_witness :
  early_stop (fst example_stopped) = true /\
  early_stop (fst (EarlyStopping_call (fst example_stopped) (1 # 2) example_model
                                      (snd example_stopped))) = true /\
  best_score (fst (EarlyStopping_call (fst example_stopped) (1 # 2) example_model
                                      (snd example_stopped))) = Some (- (1 # 2))%Q.
Proof.
  destruct early_stop_is_absorbing as (_ & _ & _ & Hzero).
  assert (early_stop (fst example_stopped) = true) as Hs by (vm_compute; reflexivity).
  split; [exact Hs|].
  destruct (Hzero (fst example_stopped) (1 # 2)%Q example_model (snd example_stopped)
                  (- (1 # 1))%Q) as (H1 & H2 & _).
  - exact Hs.
  - vm_compute. reflexivity.
  - vm_compute. reflexivity.
  - vm_compute. reflexivity.
  - split; [exact H1 | exact H2].
Defined.

(* --------------------------------------------------------------------- *)
(** ** Restoring the best weights                                          *)
(* --------------------------------------------------------------------- *)

Lemma map_is_fmap {A B : Type} (f : A -> B) (l : list A) : map f l = f <$> l.
Proof. reflexivity. Qed.

Lemma elem_of_locs (sd : state_dict) (name : string) (l : loc) :
  (name, l) ∈ sd -> l ∈ locs sd.
Proof.
  intros Hin. unfold locs. rewrite map_is_fmap.
  apply (list_elem_of_fmap_2 snd sd (name, l) Hin).
Qed.

Lemma elem_of_keys (sd : state_dict) (name : string) (l : loc) :
  (name, l) ∈ sd -> name ∈ keys sd.
Proof.
  intros Hin. unfold keys. rewrite map_is_fmap.
  apply (list_elem_of_fmap_2 fst sd (name, l) Hin).
Qed.

(** With the same keys in the same order, [sd[name]] is the entry at the
    position of [name] in the model. *)
Lemma sd_get_positional (model sd : state_dict) :
  keys sd = keys model ->
  NoDup (keys model) ->
  forall i name l, model !! i = Some (name, l) ->
                   exists ls, sd !! i = Some (name, ls) /\ sd_get name sd = Some ls.
Proof.
  revert sd. induction model as [|[n0 l0] model IH]; intros sd Hk Hnd i name l Hi.
  - destruct i; discriminate.
  - destruct sd as [|[n1 l1] sd]; [discriminate|].
    cbn in Hk. injection Hk as -> Hk'.
    apply NoDup_cons in Hnd as [Hnotin Hnd'].
    destruct i as [|i]; cbn in Hi.
    + injection Hi as -> ->. exists l1. split; [reflexivity|].
      cbn [sd_get]. rewrite String.eqb_refl. reflexivity.
    + destruct (IH sd Hk' Hnd' i name l Hi) as (ls & Hsd & Hget).
      exists ls. split; [exact Hsd|].
      cbn [sd_get]. destruct (String.eqb n0 name) eqn:E; [|exact Hget].
      apply String.eqb_eq in E. subst n0. exfalso. apply Hnotin.
      apply (elem_of_keys model name l). eapply list_elem_of_lookup_2, Hi.
Qed.

Lemma forallb_elem_of_self (ks : list string) :
  forallb (fun k => bool_decide (k ∈ ks)) ks = true.
Proof.
  apply forallb_forall. intros k Hin. apply bool_decide_eq_true.
  apply list_elem_of_In, Hin.
Qed.

(** The copy loop succeeds when every parameter finds a source tensor of its
    shape; it then overwrites exactly the model's tensors with the sources. *)
Lemma load_params_ok (ps : list (string * loc)) (sd : state_dict) (h : heap) :
  NoDup (locs ps) ->
  (forall ls, ls ∈ locs sd -> ls ∉ locs ps) ->
  (forall name l, (name, l) ∈ ps ->
     exists ls, sd_get name sd = Some ls /\ length (h !!! ls) = length (h !!! l)) ->
  exists h', load_params ps sd h = Some h' /\
             (forall l, l ∉ locs ps -> h' !! l = h !! l) /\
             (forall name l, (name, l) ∈ ps ->
                exists ls, sd_get name sd = Some ls /\ h' !! l = Some (h !!! ls)).
Proof.
  revert h. induction ps as [|[n0 l0] ps IH]; intros h Hnd Hdisj Hsrc.
  - exists h. split; [reflexivity|]. split; [reflexivity|].
    intros name l Hin. inversion Hin.
  - unfold locs in Hnd. cbn in Hnd. apply NoDup_cons in Hnd as [Hl0 Hnd'].
    fold (locs ps) in Hl0, Hnd'.
    destruct (Hsrc n0 l0) as (ls0 & Hget0 & Hshape0); [left|].
    assert (ls0 <> l0) as Hne0.
    { intros ->. apply (Hdisj l0); [eapply sd_get_in_locs, Hget0|].
      apply elem_of_locs_cons. auto. }
    cbn [load_params]. rewrite Hget0, Hshape0, Nat.eqb_refl.
    destruct (IH (<[l0 := h !!! ls0]> h)) as (h' & Hload & Hother & Hvals).
    + exact Hnd'.
    + intros ls Hls Hin. apply (Hdisj ls Hls). apply elem_of_locs_cons. auto.
    + intros name l Hin.
      destruct (Hsrc name l) as (ls & Hget & Hshape); [right; exact Hin|].
      exists ls. split; [exact Hget|].
      assert (ls <> l0) as Hls.
      { intros ->. apply (Hdisj l0); [eapply sd_get_in_locs, Hget|].
        apply elem_of_locs_cons. auto. }
      assert (l <> l0) as Hl.
      { intros ->. apply Hl0. eapply elem_of_locs, Hin. }
      rewrite !lookup_total_insert_ne by congruence. exact Hshape.
    + exists h'. split; [exact Hload|]. split.
      * intros l Hl. rewrite Hother.
        -- apply lookup_insert_ne. intros ->. apply Hl, elem_of_locs_cons. auto.
        -- intros Hin. apply Hl, elem_of_locs_cons. auto.
      * intros name l Hin. apply elem_of_cons in Hin as [[= -> ->] | Hin].
        -- exists ls0. split; [exact Hget0|].
           rewrite Hother by exact Hl0. apply lookup_insert_eq.
        -- destruct (Hvals name l Hin) as (ls & Hget & Hv).
           exists ls. split; [exact Hget|]. rewrite Hv. f_equal.
           apply lookup_total_insert_ne. intros <-.
           apply (Hdisj l0); [eapply sd_get_in_locs, Hget|].
           apply elem_of_locs_cons. auto.
Qed.

Lemma sd_values_lookup (sd : state_dict) (h : heap) (i : nat) :
  sd_values sd h !! i = (fun e => (fst e, h !!! snd e)) <$> (sd !! i).
Proof. unfold sd_values. rewrite map_is_fmap. apply list_lookup_fmap. Qed.

Lemma sd_shapes_lookup (sd : state_dict) (h : heap) (i : nat) :
  sd_shapes sd h !! i = (fun e => length (h !!! snd e)) <$> (sd !! i).
Proof. unfold sd_shapes. rewrite map_is_fmap. apply list_lookup_fmap. Qed.

Lemma keys_lookup (sd : state_dict) (i : nat) :
  keys sd !! i = fst <$> (sd !! i).
Proof. unfold keys. rewrite map_is_fmap. apply list_lookup_fmap. Qed.

(** Loading a snapshot that is compatible with the model and disjoint from
    it: no error, the model then holds the snapshot's values, tensors outside
    the model are untouched, and a second load changes nothing. *)
Lemma load_state_dict_restores (model sd : state_dict) (h : heap) :
  keys sd = keys model ->
  NoDup (keys model) ->
  NoDup (locs model) ->
  (forall l, l ∈ locs sd -> l ∉ locs model) ->
  sd_shapes sd h = sd_shapes model h ->
  exists h', load_state_dict model sd h = Some h' /\
             sd_values model h' = sd_values sd h /\
             (forall l, l ∉ locs model -> h' !! l = h !! l) /\
             load_state_dict model sd h' = Some h'.
Proof.
  intros Hk Hndk Hndl Hdisj Hshapes.
  assert (forall h0 : heap, load_state_dict model sd h0 = load_params model sd h0) as Hstrict.
  { intros h0. unfold load_state_dict. rewrite Hk, forallb_elem_of_self. reflexivity. }
  assert (forall h0 : heap, sd_shapes sd h0 = sd_shapes model h0 ->
            forall name l, (name, l) ∈ model ->
              exists ls, sd_get name sd = Some ls /\ length (h0 !!! ls) = length (h0 !!! l))
    as Hsrc.
  { intros h0 Hsh name l Hin. apply list_elem_of_lookup in Hin as [i Hi].
    destruct (sd_get_positional model sd Hk Hndk i name l Hi) as (ls & Hsd & Hget).
    exists ls. split; [exact Hget|].
    assert (sd_shapes sd h0 !! i = sd_shapes model h0 !! i) as E by (rewrite Hsh; reflexivity).
    rewrite !sd_shapes_lookup, Hsd, Hi in E. cbn in E. congruence. }
  destruct (load_params_ok model sd h Hndl Hdisj (Hsrc h Hshapes))
    as (h' & Hload & Hother & Hvals).
  assert (forall l, l ∈ locs sd -> h' !! l = h !! l) as Hsnap.
  { intros l Hl. apply Hother, Hdisj, Hl. }
  assert (sd_values model h' = sd_values sd h) as Hrestored.
  { apply list_eq. intros i. rewrite !sd_values_lookup.
    destruct (model !! i) as [[name l]|] eqn:Hi.
    - destruct (sd_get_positional model sd Hk Hndk i name l Hi) as (ls & Hsd & Hget).
      rewrite Hsd. cbn. do 2 f_equal.
      destruct (Hvals name l) as (ls' & Hget' & Hv);
        [eapply list_elem_of_lookup_2, Hi|].
      rewrite Hget in Hget'. injection Hget' as <-.
      apply lookup_total_correct, Hv.
    - assert (keys sd !! i = keys model !! i) as E by (rewrite Hk; reflexivity).
      rewrite !keys_lookup, Hi in E. destruct (sd !! i); [discriminate|reflexivity]. }
  exists h'. rewrite !Hstrict. split; [exact Hload|]. split; [exact Hrestored|].
  split; [exact Hother|].
  assert (sd_shapes sd h' = sd_shapes model h') as Hshapes'.
  { unfold sd_shapes. rewrite <- (map_map (fun e => h' !!! snd e) (@length Q) model).
    rewrite <- (map_map (fun e => h' !!! snd e) (@length Q) sd). f_equal.
    apply (f_equal (map snd)) in Hrestored. unfold sd_values in Hrestored.
    rewrite !map_map in Hrestored. cbn [snd] in Hrestored. rewrite Hrestored.
    apply map_ext_in. intros [n l] Hin. cbn. rewrite !lookup_total_alt, Hsnap; [reflexivity|].
    eapply elem_of_locs, list_elem_of_In, Hin. }
  destruct (load_params_ok model sd h' Hndl Hdisj (Hsrc h' Hshapes'))
    as (h'' & Hload' & Hother' & Hvals').
  rewrite Hload'. f_equal. apply map_eq. intros l.
  destruct (decide (l ∈ locs model)) as [Hin|Hnin]; [|apply Hother', Hnin].
  unfold locs in Hin. rewrite map_is_fmap in Hin.
  apply list_elem_of_fmap in Hin as ([name l'] & -> & Hin). cbn [snd].
  destruct (Hvals name l' Hin) as (ls & Hget & Hv).
  destruct (Hvals' name l' Hin) as (ls' & Hget' & Hv').
  rewrite Hget in Hget'. injection Hget' as <-.
  rewrite Hv, Hv'. f_equal. rewrite !lookup_total_alt, Hsnap; [reflexivity|].
  eapply sd_get_in_locs, Hget.
Qed.

Lemma sd_shapes_of_values (sd : state_dict) (h : heap) :
  sd_shapes sd h = map (fun e => length (snd e)) (sd_values sd h).
Proof. unfold sd_shapes, sd_values. rewrite map_map. reflexivity. Qed.

Lemma sd_shapes_agree (sd : state_dict) (h h' : heap) :
  (forall l, l ∈ locs sd -> length (h' !!! l) = length (h !!! l)) ->
  sd_shapes sd h' = sd_shapes sd h.
Proof.
  intros Hag. unfold sd_shapes. apply map_ext_in. intros [n l] Hin. cbn.
  apply Hag. eapply elem_of_locs, list_elem_of_In, Hin.
Qed.

(** Shape-preserving in-place updates keep the shapes of the model. *)
Lemma mutate_model_shapes (model : module) (h0 : heap) (ws : list (string * tensor))
    (h : heap) :
  shape_preserving model h0 ws ->
  (forall l, l ∈ locs model -> length (h !!! l) = length (h0 !!! l)) ->
  forall l, l ∈ locs model -> length (mutate_model model ws h !!! l) = length (h0 !!! l).
Proof.
  unfold mutate_model. revert h.
  induction ws as [|[name v] ws IH]; intros h Hsp Hinv l Hl; cbn [fold_left].
  - apply Hinv, Hl.
  - inversion Hsp as [|w ws' Hw Hsp']; subst. cbn [fst snd] in *.
    apply IH; [exact Hsp'| |exact Hl].
    intros l1 Hl1. unfold set_weight.
    destruct (sd_get name model) as [l2|] eqn:E; [|apply Hinv, Hl1].
    destruct (decide (l2 = l1)) as [->|Hne].
    + rewrite lookup_total_insert_eq. apply Hw. reflexivity.
    + rewrite lookup_total_insert_ne by exact Hne. apply Hinv, Hl1.
Qed.

(** C9. [load_best_weights] without a snapshot returns normally and changes
    neither the heap (hence the model's weights) nor the controller. With a
    snapshot of the model's own architecture, held in tensors of its own, it
    returns normally, the model then holds exactly the snapshot's values, the
    snapshot and the controller are unchanged, and loading again changes
    nothing. Such is the snapshot of [save_checkpoint], whatever
    shape-preserving updates the model has received since. *)
Theorem load_best_weights_noop_or_restore :
  (forall es model h,
      best_model_state_dict es = None ->
      load_best_weights es model h = Some (es, h)) /\
  (forall es model h sd,
      best_model_state_dict es = Some sd ->
      keys sd = keys model ->
      NoDup (keys model) ->
      NoDup (locs model) ->
      (forall l, l ∈ locs sd -> l ∉ locs model) ->
      sd_shapes sd h = sd_shapes model h ->
      exists h',
        load_best_weights es model h = Some (es, h') /\
        sd_values model h' = sd_values sd h /\
        snapshot_values es h' = snapshot_values es h /\
        load_best_weights es model h' = Some (es, h')) /\
  (forall es val_loss model h0 ws,
      wf_model model h0 ->
      shape_preserving model h0 ws ->
      let r := save_checkpoint es val_loss model h0 in
      let h1 := mutate_model model ws (snd r) in
      exists h2,
        load_best_weights (fst r) model h1 = Some (fst r, h2) /\
        sd_values model h2 = sd_values model h0 /\
        snapshot_values (fst r) h2 = Some (sd_values model h0) /\
        load_best_weights (fst r) model h2 = Some (fst r, h2)).
Proof.
  assert (forall es model h sd,
      best_model_state_dict es = Some sd ->
      keys sd = keys model ->
      NoDup (keys model) ->
      NoDup (locs model) ->
      (forall l, l ∈ locs sd -> l ∉ locs model) ->
      sd_shapes sd h = sd_shapes model h ->
      exists h',
        load_best_weights es model h = Some (es, h') /\
        sd_values model h' = sd_values sd h /\
        snapshot_values es h' = snapshot_values es h /\
        load_best_weights es model h' = Some (es, h')) as Hrestore.
  { intros es model h sd Hsd Hk Hndk Hndl Hdisj Hsh.
    destruct (load_state_dict_restores model sd h Hk Hndk Hndl Hdisj Hsh)
      as (h' & Hload & Hvals & Hother & Hagain).
    exists h'. unfold load_best_weights, snapshot_values. rewrite Hsd, Hload, Hagain.
    repeat split; [exact Hvals|]. f_equal.
    apply sd_values_agree. intros l Hl. apply Hother, Hdisj, Hl. }
  split; [|split; [exact Hrestore|]].
  - intros es model h Hnone. unfold load_best_weights. rewrite Hnone. reflexivity.
  - intros es val_loss model h0 ws (Hndk & Hndl & Hal) Hsp. cbn zeta.
    set (r := save_checkpoint es val_loss model h0).
    set (sd := fst (deepcopy (state_dict_of model) h0)).
    set (h1 := mutate_model model ws (snd r)).
    assert (forall l, l ∈ locs sd -> l ∉ locs model) as Hdisj.
    { intros l Hl Hm. apply deepcopy_fresh in Hl as [Hn _]. apply Hn, Hal, Hm. }
    assert (sd_values sd h1 = sd_values model h0) as Hframe
      by (apply snapshot_frame, Hal).
    assert (sd_shapes sd h1 = sd_shapes model h1) as Hsh.
    { rewrite sd_shapes_of_values, Hframe, <- sd_shapes_of_values.
      symmetry. apply sd_shapes_agree. apply mutate_model_shapes; [exact Hsp|].
      intros l Hl. unfold r. cbn [save_checkpoint snd].
      rewrite !lookup_total_alt, deepcopy_preserves; [reflexivity | apply Hal, Hl]. }
    destruct (Hrestore (fst r) model h1 sd) as (h2 & Hload & Hvals & Hsnap & Hagain);
      try assumption; try reflexivity.
    { apply deepcopy_keys. }
    exists h2. split; [exact Hload|]. split; [congruence|]. split; [|exact Hagain].
    rewrite Hsnap. unfold snapshot_values, r. cbn [save_checkpoint fst best_model_state_dict].
    f_equal. exact Hframe.
Qed.

Lemma example_model_wf : wf_model example_model example_heap.
Proof.
  split; [|split; [|exact example_model_allocated]].
  - unfold example_model, keys. cbn. repeat constructor; solve_not_elem.
  - unfold example_model, locs. cbn. repeat constructor; solve_not_elem.
Qed.

Lemma load_best_weights_noop_or_restore_witness :
  load_best_weights (EarlyStopping_init 5 false 0) example_model example_heap
  = Some (EarlyStopping_init 5 false 0, example_heap)
  /\ exists h2,
      load_best_weights
        (fst (save_checkpoint (EarlyStopping_init 5 false 0) (3 # 4) example_model
                              example_heap))
        example_model
        (mutate_model example_model [("weight"%string, [9 # 1; 9 # 1]%Q)]
           (snd (save_checkpoint (EarlyStopping_init 5 false 0) (3 # 4) example_model
                                 example_heap)))
      = Some (fst (save_checkpoint (EarlyStopping_init 5 false 0) (3 # 4) example_model
                                   example_heap), h2)
      /\ sd_values example_model h2 = sd_values example_model example_heap.
Proof.
  destruct load_best_weights_noop_or_restore as (Hnone & _ & Hsaved). split.
  - apply Hnone. reflexivity.
  - destruct (Hsaved (EarlyStopping_init 5 false 0) (3 # 4)%Q example_model example_heap
                     [("weight"%string, [9 # 1; 9 # 1]%Q)])
      as (h2 & Hload & Hvals & _).
    + exact example_model_wf.
    + constructor; [|constructor]. intros l Hl. vm_compute in Hl.
      injection Hl as <-. vm_compute. reflexivity.
    + exists h2. split; [exact Hload | exact Hvals].
Defined.

(* --------------------------------------------------------------------- *)
(** ** The feature-to-image mapper                                         *)
(* --------------------------------------------------------------------- *)

Section FeatureImageMapperProofs.

Context {A : Type} (zero : A).

Lemma firstn_add_skipn (a b : nat) (l : list A) :
  firstn (a + b) l = firstn a l ++ firstn b (skipn a l).
Proof.
  revert l. induction a as [|a IH]; intros l; [reflexivity|].
  destruct l as [|x l]; cbn.
  - rewrite firstn_nil. reflexivity.
  - f_equal. apply IH.
Qed.

Lemma channel_features_length (v : list A) (c fpc : nat) :
  length (channel_features zero v c fpc) = fpc.
Proof.
  unfold channel_features, slice, slice_from, np_zeros.
  destruct (c * fpc + fpc <=? length v)%nat eqn:E.
  - apply Nat.leb_le in E. rewrite length_firstn, length_skipn. lia.
  - apply Nat.leb_gt in E.
    destruct (Z.of_nat (length v) - Z.of_nat (c * fpc) >? 0)%Z eqn:E2.
    + apply Z.gtb_lt in E2.
      rewrite length_app, length_skipn, repeat_length. lia.
    + rewrite repeat_length. lia.
Qed.

(** The channels 0 .. n-1, laid end to end, are the first [n * fpc] values
    of the vector followed by the zeros that are missing. *)
Lemma channels_concat (v : list A) (fpc n : nat) :
  concat (map (fun c => channel_features zero v c fpc) (seq 0 n))
  = firstn (n * fpc) v ++ repeat zero (n * fpc - length v).
Proof.
  induction n as [|n IH]; [reflexivity|].
  rewrite seq_S, map_app, concat_app, IH. cbn [map concat Nat.add].
  rewrite app_nil_r.
  unfold channel_features, slice, slice_from, np_zeros.
  destruct (n * fpc + fpc <=? length v)%nat eqn:E.
  - apply Nat.leb_le in E.
    replace (n * fpc - length v) with 0 by lia.
    replace (S n * fpc - length v) with 0 by lia.
    cbn [repeat]. rewrite !app_nil_r.
    replace (n * fpc + fpc - n * fpc) with fpc by lia.
    replace (S n * fpc) with (n * fpc + fpc) by lia.
    symmetry. apply firstn_add_skipn.
  - apply Nat.leb_gt in E.
    rewrite (firstn_all2 (n := S n * fpc)) by lia.
    destruct (Z.of_nat (length v) - Z.of_nat (n * fpc) >? 0)%Z eqn:E2.
    + apply Z.gtb_lt in E2.
      replace (n * fpc - length v) with 0 by lia. cbn [repeat].
      rewrite app_nil_r, app_assoc, firstn_skipn. f_equal. f_equal. lia.
    + assert (length v <= n * fpc) as Hle.
      { destruct (Z.of_nat (length v) - Z.of_nat (n * fpc))%Z eqn:E3;
          try discriminate; lia. }
      rewrite firstn_all2 by lia. rewrite <- app_assoc, <- repeat_app.
      f_equal. f_equal. lia.
Qed.

Lemma rows_of_concat (rows cols : nat) (l : list A) :
  length l = rows * cols -> concat (rows_of rows cols l) = l.
Proof.
  revert l. induction rows as [|r IH]; intros l Hlen; cbn.
  - destruct l; [reflexivity | discriminate].
  - rewrite IH; [apply firstn_skipn|]. rewrite length_skipn. lia.
Qed.

Lemma rows_of_shape (rows cols : nat) (l : list A) :
  length l = rows * cols ->
  length (rows_of rows cols l) = rows /\
  Forall (fun row => length row = cols) (rows_of rows cols l).
Proof.
  revert l. induction rows as [|r IH]; intros l Hlen; cbn.
  - split; [reflexivity | constructor].
  - destruct (IH (skipn cols l)) as [Hr Hc]; [rewrite length_skipn; lia|].
    split; [f_equal; exact Hr|]. constructor; [|exact Hc].
    rewrite length_firstn. lia.
Qed.

(** With [image_size² = features_per_channel] no reshape fails. *)
Lemma channels_loop_total (v : list A) (cs : list nat) (fpc image_size : nat) :
  image_size * image_size = fpc ->
  channels_loop zero v cs fpc image_size
  = Some (map (fun c => rows_of image_size image_size (channel_features zero v c fpc)) cs).
Proof.
  intros Hsq. induction cs as [|c cs IH]; [reflexivity|].
  cbn [channels_loop map]. unfold reshape2.
  rewrite channel_features_length, Hsq, Nat.eqb_refl, IH. reflexivity.
Qed.

End FeatureImageMapperProofs.

(** C2. With [image_size² = features_per_channel] and at least one channel,
    [features_to_multichannel_image] raises no error on any vector, short or
    long, and returns an array of shape
    (num_channels, image_size, image_size) whose channel-major flattening is
    the vector zero-padded to [total_features = num_channels *
    features_per_channel] when the vector is not longer than that, and the
    first [total_features] values of the vector when it is longer. *)
Theorem features_to_multichannel_image_pads_or_truncates :
  forall (A : Type) (zero : A) (feature_vector : list A)
         (num_channels features_per_channel image_size : nat),
    image_size * image_size = features_per_channel ->
    0 < num_channels ->
    exists img,
      features_to_multichannel_image zero feature_vector num_channels
                                     features_per_channel image_size = Some img /\
      has_shape img num_channels image_size image_size /\
      (length feature_vector <= num_channels * features_per_channel ->
       flatten_image img
       = feature_vector
           ++ repeat zero (num_channels * features_per_channel - length feature_vector)) /\
      (num_channels * features_per_channel < length feature_vector ->
       flatten_image img = firstn (num_channels * features_per_channel) feature_vector).
Proof.
  intros A zero v n fpc s Hsq Hn.
  exists (map (fun c => rows_of s s (channel_features zero v c fpc)) (seq 0 n)).
  assert (flatten_image
            (map (fun c => rows_of s s (channel_features zero v c fpc)) (seq 0 n))
          = firstn (n * fpc) v ++ repeat zero (n * fpc - length v)) as Hflat.
  { unfold flatten_image. rewrite map_map, <- channels_concat. f_equal.
    apply map_ext. intros c. apply rows_of_concat.
    rewrite channel_features_length. symmetry. exact Hsq. }
  split; [|split; [|split]].
  - unfold features_to_multichannel_image.
    rewrite (channels_loop_total zero v (seq 0 n) fpc s Hsq).
    destruct n as [|n]; [lia|]. reflexivity.
  - split; [rewrite length_map, length_seq; reflexivity|].
    apply List.Forall_forall. intros ch Hin. apply in_map_iff in Hin as (c & <- & _).
    apply rows_of_shape. rewrite channel_features_length. symmetry. exact Hsq.
  - intros Hle. rewrite Hflat, firstn_all2 by lia. reflexivity.
  - intros Hlt. rewrite Hflat.
    replace (n * fpc - length v) with 0 by lia. apply app_nil_r.
Qed.

Lemma features_to_multichannel_image_pads_or_truncates_witness :
  exists img,
    features_to_multichannel_image 0%Z [1; 2; 3; 4; 5; 6]%Z 2 4 2 = Some img /\
    flatten_image img = [1; 2; 3; 4; 5; 6; 0; 0]%Z.
Proof.
  destruct (features_to_multichannel_image_pads_or_truncates
              Z 0%Z [1; 2; 3; 4; 5; 6]%Z 2 4 2) as (img & Himg & _ & Hpad & _).
  - reflexivity.
  - lia.
  - exists img. split; [exact Himg|]. rewrite Hpad; [reflexivity | cbn; lia].
Defined.

(** [np.stack] rejects an empty list: with zero channels the function raises. *)
Example features_to_multichannel_image_no_channel :
  features_to_multichannel_image 0%Z [1; 2; 3]%Z 0 4 2 = None.
Proof. reflexivity. Qed.

(* --------------------------------------------------------------------- *)
(** ** The mask gate                                                       *)
(* --------------------------------------------------------------------- *)

Lemma elem_map3 {A B : Type} (f : A -> B) (t : list (list (list A))) (c h w : nat) :
  elem (map (map (map f)) t) c h w = f <$> elem t c h w.
Proof.
  unfold elem. rewrite map_is_fmap, list_lookup_fmap.
  destruct (t !! c) as [ch|]; [|reflexivity]. cbn.
  rewrite map_is_fmap, list_lookup_fmap.
  destruct (ch !! h) as [row|]; [|reflexivity]. cbn.
  rewrite map_is_fmap. apply list_lookup_fmap.
Qed.

Lemma elem_zip_channel {A B C : Type} (f : B -> A -> C) (t : list (list (list A)))
    (l : list B) (c h w : nat) :
  elem (zip_with (fun ch s => map (map (f s)) ch) t l) c h w
  = match l !! c with
    | Some s => f s <$> elem t c h w
    | None => None
    end.
Proof.
  unfold elem. rewrite lookup_zip_with.
  destruct (t !! c) as [ch|]; destruct (l !! c) as [s|]; cbn; try reflexivity.
  rewrite map_is_fmap, list_lookup_fmap.
  destruct (ch !! h) as [row|]; [|reflexivity]. cbn.
  rewrite map_is_fmap. apply list_lookup_fmap.
Qed.

Lemma elem_channel_in_range {A : Type} (t : list (list (list A))) (c h w : nat) (v : A) :
  elem t c h w = Some v -> c < length t.
Proof.
  unfold elem. destruct (t !! c) as [ch|] eqn:E; [|discriminate].
  intros _. eapply lookup_lt_Some, E.
Qed.

Section MaskGateProofs.

Context {F : Type} (ops : float_ops F).

(** The entries of the mask, index by index. *)
Lemma masking_forward_elem_gen (m : LearnableAdaptiveMasking F) (x : list (list (list F)))
    (c h w : nat) :
  elem (masking_forward ops m x) c h w
  = match global_fc ops m x !! c with
    | Some gz =>
        (fun b => f_mul ops b gz) <$>
          (f_sigmoid ops <$>
             match zip (channel_scale m) (bias m) !! c with
             | Some sb =>
                 (fun v => f_div ops (f_add ops (f_mul ops v (fst sb)) (snd sb))
                                 (temperature m)) <$> elem x c h w
             | None => None
             end)
    | None => None
    end.
Proof.
  unfold masking_forward, scaled.
  rewrite (elem_zip_channel (fun gz b => f_mul ops b gz)).
  destruct (global_fc ops m x !! c) as [gz|]; [|reflexivity].
  rewrite elem_map3.
  rewrite (elem_zip_channel
             (fun (sb : F * F) v =>
                f_div ops (f_add ops (f_mul ops v (fst sb)) (snd sb)) (temperature m))).
  reflexivity.
Qed.

Lemma masking_forward_elem (m : LearnableAdaptiveMasking F) (x : list (list (list F)))
    (c h w : nat) (scale b z : F) :
  channel_scale m !! c = Some scale ->
  bias m !! c = Some b ->
  f_linear ops (global_fc_weight m) (global_fc_bias m) (map (f_avg_pool ops) x) !! c
  = Some z ->
  elem (masking_forward ops m x) c h w
  = (fun v => f_mul ops
                (f_sigmoid ops (f_div ops (f_add ops (f_mul ops v scale) b)
                                      (temperature m)))
                (f_sigmoid ops z)) <$> elem x c h w.
Proof.
  intros Hs Hb Hz. rewrite masking_forward_elem_gen.
  unfold global_fc. rewrite map_is_fmap, list_lookup_fmap, Hz. cbn [fmap option_fmap option_map].
  rewrite lookup_zip_with, Hs, Hb. cbn.
  destruct (elem x c h w); reflexivity.
Qed.

Lemma masking_forward_elem_none (m : LearnableAdaptiveMasking F)
    (x : list (list (list F))) (c h w : nat) :
  elem x c h w = None -> elem (masking_forward ops m x) c h w = None.
Proof.
  intros E. rewrite masking_forward_elem_gen, E.
  destruct (global_fc ops m x !! c); [|reflexivity].
  destruct (zip (channel_scale m) (bias m) !! c); reflexivity.
Qed.

Context (rnd : Q -> Q) (Hlaws : ieee_laws ops rnd).

(** Rounding keeps a number between two floats that enclose it. *)
Lemma rnd_between (lo hi : F) (ql qh x : Q) :
  f_value ops lo = FloatFinite ql ->
  f_value ops hi = FloatFinite qh ->
  (ql <= x <= qh)%Q -> (ql <= rnd x <= qh)%Q.
Proof.
  intros Hlo Hhi [Hl Hh].
  pose proof (rnd_exact ops rnd Hlaws lo ql Hlo) as El.
  pose proof (rnd_exact ops rnd Hlaws hi qh Hhi) as Eh.
  pose proof (rnd_monotone ops rnd Hlaws ql x Hl) as Ml.
  pose proof (rnd_monotone ops rnd Hlaws x qh Hh) as Mh.
  split.
  - rewrite <- El. exact Ml.
  - rewrite <- Eh. exact Mh.
Qed.

(** The product of two sigmoids of floats that are not NaN is a float between
    0 and 1. *)
Lemma unit_product (a b : F) :
  f_value ops a <> FloatNaN ->
  f_value ops b <> FloatNaN ->
  exists q, f_value ops (f_mul ops (f_sigmoid ops a) (f_sigmoid ops b)) = FloatFinite q /\
            (0 <= q <= 1)%Q.
Proof.
  intros Ha Hb.
  destruct (sigmoid_unit ops rnd Hlaws a Ha) as (qa & Hqa & Ha0 & Ha1).
  destruct (sigmoid_unit ops rnd Hlaws b Hb) as (qb & Hqb & Hb0 & Hb1).
  destruct (value_one ops rnd Hlaws) as (q1 & H1 & Hq1).
  destruct (value_zero ops rnd Hlaws) as (q0 & H0 & Hq0).
  assert (0 <= qa * qb)%Q as Hp0 by (apply Qmult_le_0_compat; assumption).
  assert (qa * qb <= 1)%Q as Hp1.
  { apply Qle_trans with (1 * qb)%Q; [|Lqa.lra].
    apply Qmult_le_compat_r; assumption. }
  destruct (mul_rounds ops rnd Hlaws (f_sigmoid ops a) (f_sigmoid ops b) (f_one ops)
              qa qb q1 Hqa Hqb H1) as (q & Hq & Hqr).
  { rewrite (Qabs_pos (qa * qb)) by exact Hp0.
    rewrite (Qabs_pos q1) by Lqa.lra. Lqa.lra. }
  exists q. split; [exact Hq|].
  destruct (rnd_between (f_zero ops) (f_one ops) q0 q1 (qa * qb) H0 H1) as [Hr0 Hr1].
  { split; Lqa.lra. }
  rewrite Hqr. split; Lqa.lra.
Qed.

(** A mask entry is NaN exactly when one of the two pre-activations is NaN;
    otherwise it is a float between 0 and 1. *)
Lemma mask_entry_value (pre z : F) :
  match f_value ops pre, f_value ops z with
  | FloatNaN, _ | _, FloatNaN =>
      f_value ops (f_mul ops (f_sigmoid ops pre) (f_sigmoid ops z)) = FloatNaN
  | _, _ =>
      exists q, f_value ops (f_mul ops (f_sigmoid ops pre) (f_sigmoid ops z))
                = FloatFinite q /\ (0 <= q <= 1)%Q
  end.
Proof.
  destruct (f_value ops pre) eqn:Epre; destruct (f_value ops z) eqn:Ez;
    first [ apply (mul_nan ops rnd Hlaws); left;
            apply (sigmoid_nan ops rnd Hlaws); exact Epre
          | apply (mul_nan ops rnd Hlaws); right;
            apply (sigmoid_nan ops rnd Hlaws); exact Ez
          | apply unit_product; congruence ].
Qed.

Lemma mask_entry_nan_or_unit (pre z : F) :
  f_value ops (f_mul ops (f_sigmoid ops pre) (f_sigmoid ops z)) = FloatNaN \/
  exists q, f_value ops (f_mul ops (f_sigmoid ops pre) (f_sigmoid ops z)) = FloatFinite q /\
            (0 <= q <= 1)%Q.
Proof.
  pose proof (mask_entry_value pre z) as H.
  destruct (f_value ops pre); destruct (f_value ops z); auto.
Qed.

End MaskGateProofs.

(** Exact arithmetic satisfies the laws, with the identity as rounding. *)
Lemma exact_ops_laws : ieee_laws exact_ops (fun q => q).
Proof.
  constructor.
  - intros x y H. exact H.
  - intros a q _. reflexivity.
  - exists 0%Q. split; reflexivity.
  - exists 1%Q. split; reflexivity.
  - intros a b c qa qb qc Ha Hb _ _. cbn in Ha, Hb.
    injection Ha as ->. injection Hb as ->.
    exists (qa * qb)%Q. split; reflexivity.
  - intros a b [H|H]; discriminate H.
  - intros a _. exists (step_sigmoid a). split; [reflexivity|].
    unfold step_sigmoid.
    destruct (Qle_bool a (-17)); [split; Lqa.lra|].
    destruct (Qle_bool 17 a); split; Lqa.lra.
  - intros a H. discriminate H.
  - intros weight b p H. cbn. rewrite length_zip_with. lia.
  - intros a. cbn.
    destruct (Qle_bool a 0) eqn:E0.
    + apply Qle_bool_iff in E0. exists 0%Q. split; [reflexivity|].
      repeat split; intros; Lqa.lra.
    + destruct (Qle_bool 1 a) eqn:E1.
      * apply Qle_bool_iff in E1. exists 1%Q. split; [reflexivity|].
        repeat split; intros; Lqa.lra.
      * exists a. split; [reflexivity|].
        assert (~ (a <= 0)%Q) as N0 by (rewrite <- Qle_bool_iff, E0; discriminate).
        assert (~ (1 <= a)%Q) as N1 by (rewrite <- Qle_bool_iff, E1; discriminate).
        repeat split; intros; Lqa.lra.
Qed.

(** C3, as the code behaves in float32. For a module whose parameters have
    the channel count of the input, every entry of the forward pass on a
    batch is the float product of [sigmoid((x * channel_scale + bias) /
    temperature)] at that entry and the gate [sigmoid(FC(GlobalAvgPool(x)))]
    of its channel, and the output has the shape of the input. The entry is
    NaN when one of the two arguments of the sigmoids is NaN; otherwise it is
    a number of the closed interval from 0 to 1. *)
Theorem masking_forward_is_product_of_sigmoids :
  forall (F : Type) (ops : float_ops F) (rnd : Q -> Q)
         (m : LearnableAdaptiveMasking F) (xs : list (list (list (list F))))
         (n : nat) (x : list (list (list F))),
    ieee_laws ops rnd ->
    xs !! n = Some x ->
    length (bias m) = length x ->
    length (channel_scale m) = length x ->
    length (global_fc_weight m) = length x ->
    length (global_fc_bias m) = length x ->
    exists mask,
      masking_forward_batch ops m xs !! n = Some mask /\
      forall c h w,
        match elem x c h w with
        | Some v =>
            exists scale b z,
              channel_scale m !! c = Some scale /\
              bias m !! c = Some b /\
              f_linear ops (global_fc_weight m) (global_fc_bias m)
                       (map (f_avg_pool ops) x) !! c = Some z /\
              let pre := f_div ops (f_add ops (f_mul ops v scale) b) (temperature m) in
              let out := f_mul ops (f_sigmoid ops pre) (f_sigmoid ops z) in
              elem mask c h w = Some out /\
              match f_value ops pre, f_value ops z with
              | FloatNaN, _ | _, FloatNaN => f_value ops out = FloatNaN
              | _, _ => exists q, f_value ops out = FloatFinite q /\ (0 <= q <= 1)%Q
              end
        | None => elem mask c h w = None
        end.
Proof.
  intros F ops rnd m xs n x Hlaws Hn Hbias Hscale Hw Hb.
  exists (masking_forward ops m x). split.
  - unfold masking_forward_batch. rewrite map_is_fmap, list_lookup_fmap, Hn. reflexivity.
  - intros c h w.
    destruct (elem x c h w) as [v|] eqn:E; [|apply masking_forward_elem_none; exact E].
    pose proof (elem_channel_in_range _ _ _ _ _ E) as Hc.
    destruct (lookup_lt_is_Some_2 (channel_scale m) c) as [scale Hs]; [lia|].
    destruct (lookup_lt_is_Some_2 (bias m) c) as [b Hbc]; [lia|].
    destruct (lookup_lt_is_Some_2
                (f_linear ops (global_fc_weight m) (global_fc_bias m)
                          (map (f_avg_pool ops) x)) c) as [z Hz].
    { rewrite (linear_length ops rnd Hlaws) by lia. lia. }
    exists scale, b, z. split; [exact Hs|]. split; [exact Hbc|]. split; [exact Hz|].
    intros pre out. split.
    + rewrite (masking_forward_elem ops m x c h w scale b z Hs Hbc Hz), E. reflexivity.
    + exact (mask_entry_value ops rnd Hlaws pre z).
Qed.

Lemma masking_forward_is_product_of_sigmoids_witness :
  exists mask,
    masking_forward_batch exact_ops (masking_init exact_ops 1 [[1%Q]] [0%Q])
                          [[[[2%Q]]]] !! 0 = Some mask /\
    exists y q, elem mask 0 0 0 = Some y /\
                f_value exact_ops y = FloatFinite q /\ (0 <= q <= 1)%Q.
Proof.
  destruct (masking_forward_is_product_of_sigmoids
              Q exact_ops (fun q => q)
              (masking_init exact_ops 1 [[1%Q]] [0%Q]) [[[[2%Q]]]] 0 [[[2%Q]]]
              exact_ops_laws)
    as (mask & Hmask & Helem); try reflexivity.
  exists mask. split; [exact Hmask|].
  specialize (Helem 0 0 0). cbn [elem lookup list_lookup] in Helem.
  destruct Helem as (scale & b & z & _ & _ & _ & Hy & q & Hq & Hrange).
  eexists; exists q. split; [exact Hy|]. split; [exact Hq | exact Hrange].
Defined.

(** C3 as stated does not hold. In float32 the gate with the parameters of
    [__init__] (and the identity as linear layer) maps the one-pixel image 20.0
    to the mask 1.0 and the image -100.0 to the mask 0.0: the sigmoid saturates,
    and the mask leaves the open interval. *)
Lemma masking_forward_saturates :
  masking_forward_batch binary32_ops example_gate32
    [[[[b32_of_Z 20]]]; [[[b32_of_Z (-100)]]]]
  = [[[[b32_of_Z 1]]]; [[[b32_of_Z 0]]]] /\
  b32_value (b32_of_Z 20) = FloatFinite 20 /\
  b32_value (b32_of_Z (-100)) = FloatFinite (-100) /\
  b32_value (b32_of_Z 1) = FloatFinite 1 /\
  b32_value (b32_of_Z 0) = FloatFinite 0.
Proof. repeat split; vm_compute; reflexivity. Qed.

(** Finite inputs and finite parameters can give NaN: with the temperature at
    0.0 the input 0.0 is scaled to 0.0 / 0.0. *)
Example masking_forward_nan_at_zero_temperature :
  masking_forward binary32_ops
    (mkMasking (b32_of_Z 0) [b32_of_Z 0] [b32_of_Z 1] [[b32_of_Z 1]] [b32_of_Z 0])
    [[[b32_of_Z 0]]]
  = [[[SpecFloat.S754_nan]]].
Proof. vm_compute. reflexivity. Qed.

(* --------------------------------------------------------------------- *)
(** ** The focal loss                                                      *)
(* --------------------------------------------------------------------- *)

Lemma cross_entropy_rows_length (inputs : list (list R)) (targets : list Z)
    (ce : list R) :
  cross_entropy_rows inputs targets = Some ce -> length ce = length targets.
Proof.
  revert targets ce. induction inputs as [|row inputs IH]; intros targets ce.
  - destruct targets; [intros [= <-]; reflexivity | discriminate].
  - destruct targets as [|t targets]; [discriminate|]. cbn [cross_entropy_rows].
    destruct (cross_entropy_sample row t); [|discriminate].
    destruct (cross_entropy_rows inputs targets) as [ces|] eqn:E; [|discriminate].
    intros [= <-]. cbn. f_equal. apply IH, E.
Qed.

(** The three elementwise products of the forward pass, written per
    sample. *)
Lemma focal_products (alpha gamma : R) (ce : list R) :
  zip_with Rmult
    (zip_with Rmult (repeat alpha (length ce))
       (map (fun p => torch_pow (1 - p) gamma) (map (fun c => exp (- c)) ce)))
    ce
  = map (focal_term alpha gamma) ce.
Proof.
  induction ce as [|c ce IH]; [reflexivity|].
  cbn [length repeat map zip_with]. rewrite IH. reflexivity.
Qed.

Lemma focal_term_plain (ce : R) : focal_term 1 0 ce = ce.
Proof.
  unfold focal_term, torch_pow.
  destruct (Req_dec_T 0 0) as [_|Hne]; [Lra.lra | contradiction Hne; reflexivity].
Qed.

Lemma focal_forward_per_sample (alpha gamma : R) (inputs : list (list R))
    (targets : list Z) :
  BalancedFocalLoss_forward alpha gamma inputs targets
  = option_map (fun ce => mean (map (focal_term alpha gamma) ce))
               (cross_entropy_none inputs targets).
Proof.
  unfold BalancedFocalLoss_forward.
  destruct (cross_entropy_none inputs targets) as [ce|] eqn:E; [|reflexivity].
  cbn [option_map]. rewrite <- (cross_entropy_rows_length inputs targets ce E).
  rewrite focal_products. reflexivity.
Qed.

(** C5. The loss is the batch mean of [alpha * (1 - pt)^gamma * ce] with
    [pt = exp(-ce)], and raises exactly when the cross entropy raises; with
    [gamma = 0] and [alpha = 1] it is the mean of the per-sample cross
    entropies. *)
Theorem focal_loss_reduces_to_mean_cross_entropy :
  (forall alpha gamma inputs targets,
      BalancedFocalLoss_forward alpha gamma inputs targets
      = option_map (fun ce => mean (map (fun c => (alpha * torch_pow (1 - exp (- c)) gamma * c)%R)
                                        ce))
                   (cross_entropy_none inputs targets)) /\
  (forall inputs targets,
      BalancedFocalLoss_forward 1 0 inputs targets
      = option_map mean (cross_entropy_none inputs targets)).
Proof.
  split.
  - exact focal_forward_per_sample.
  - intros inputs targets. rewrite focal_forward_per_sample.
    destruct (cross_entropy_none inputs targets) as [ce|]; [|reflexivity].
    cbn [option_map]. do 2 f_equal.
    rewrite <- (map_id ce) at 2. apply map_ext. intros c. apply focal_term_plain.
Qed.

(** On a well-formed batch the loss is defined. *)
Example focal_loss_defined :
  BalancedFocalLoss_forward 1 0 [[0%R; 0%R]; [1%R; 0%R]] [1%Z; 0%Z]
  = Some (mean (map (focal_term 1 0)
                    [(ln (sum_list (map exp [0; 0])) - 0)%R;
                     (ln (sum_list (map exp [1; 0])) - 1)%R])).
Proof. rewrite focal_forward_per_sample. reflexivity. Qed.

(* --------------------------------------------------------------------- *)
(** ** The correlation filter                                              *)
(* --------------------------------------------------------------------- *)

Section CorrelationFilterProofs.

Variable pearson : list Q -> list Q -> option Q.

(** The entry of [upper_tri] in row [i] of the column at position [j]. *)
Lemma upper_tri_entry (cols : list (string * list Q)) (i j : nat)
    (ci cj : string * list Q) :
  cols !! i = Some ci ->
  cols !! j = Some cj ->
  column_at (upper_tri pearson cols) j !! i
  = Some (if (i <? j)%nat then option_map Qabs (pearson (snd ci) (snd cj)) else None).
Proof.
  intros Hi Hj.
  pose proof (lookup_lt_Some _ _ _ Hi) as Hli.
  pose proof (lookup_lt_Some _ _ _ Hj) as Hlj.
  unfold column_at, upper_tri, where_mask, corr_matrix_abs, triu_mask.
  rewrite map_is_fmap, list_lookup_fmap, lookup_zip_with.
  rewrite !map_is_fmap, !list_lookup_fmap, Hi, lookup_seq_lt by exact Hli.
  cbn. f_equal.
  rewrite lookup_zip_with, !list_lookup_fmap, Hj, lookup_seq_lt by exact Hlj.
  reflexivity.
Qed.

Lemma column_at_length (cols : list (string * list Q)) (j : nat) :
  length (column_at (upper_tri pearson cols) j) = length cols.
Proof.
  unfold column_at, upper_tri, where_mask, corr_matrix_abs, triu_mask.
  rewrite length_map, length_zip_with, !length_map, length_seq. lia.
Qed.

(** A column is dropped exactly when an earlier column correlates with it
    above the threshold. *)
Lemma drop_cols_spec (cols : list (string * list Q)) (threshold : Q) (name : string) :
  name ∈ drop_cols pearson cols threshold <->
  exists i j ci cj,
    cols !! i = Some ci /\ cols !! j = Some cj /\ i < j /\ fst cj = name /\
    gt_threshold (option_map Qabs (pearson (snd ci) (snd cj))) threshold = true.
Proof.
  unfold drop_cols. rewrite list_elem_of_omap. split.
  - intros ([j cj] & Hin & Hf). cbn [fst snd] in Hf.
    apply list_elem_of_lookup in Hin as [k Hk].
    rewrite list_lookup_imap in Hk.
    destruct (cols !! k) as [c|] eqn:Hc; [|discriminate].
    cbn in Hk. injection Hk as <- <-.
    destruct (existsb _ _) eqn:Hex; [|discriminate]. injection Hf as <-.
    apply existsb_exists in Hex as (v & Hv & Hgt).
    apply list_elem_of_In, list_elem_of_lookup in Hv as [i Hi].
    assert (i < length cols) as Hlt.
    { rewrite <- (column_at_length cols k). eapply lookup_lt_Some, Hi. }
    destruct (lookup_lt_is_Some_2 cols i Hlt) as [ci Hci].
    rewrite (upper_tri_entry cols i k ci c Hci Hc) in Hi. injection Hi as <-.
    destruct (i <? k)%nat eqn:Hik; [|discriminate].
    apply Nat.ltb_lt in Hik. exists i, k, ci, c. auto.
  - intros (i & j & ci & cj & Hi & Hj & Hlt & Hname & Hgt).
    exists (j, cj). split.
    + apply list_elem_of_lookup. exists j. rewrite list_lookup_imap, Hj. reflexivity.
    + cbn [fst snd].
      assert (existsb (fun v => gt_threshold v threshold)
                      (column_at (upper_tri pearson cols) j) = true) as ->.
      { apply existsb_exists.
        exists (option_map Qabs (pearson (snd ci) (snd cj))). split; [|exact Hgt].
        apply list_elem_of_In, list_elem_of_lookup. exists i.
        rewrite (upper_tri_entry cols i j ci cj Hi Hj).
        apply Nat.ltb_lt in Hlt. rewrite Hlt. reflexivity. }
      rewrite Hname. reflexivity.
Qed.

(** Whatever branch is taken, the result is the frame without the columns
    to drop. *)
Lemma correlation_filtering_is_drop (df : dataframe) (threshold : Q) :
  correlation_filtering pearson df threshold
  = df_drop df (if (length (select_numeric df) <? 2)%nat then []
                else drop_cols pearson (select_numeric df) threshold).
Proof.
  assert (df_drop df [] = df) as Hnil.
  { unfold df_drop. induction df as [|c df IH]; [reflexivity|].
    cbn [List.filter]. rewrite bool_decide_eq_false_2 by (intros H; inversion H).
    cbn. f_equal. exact IH. }
  unfold correlation_filtering.
  destruct (length (select_numeric df) <? 2)%nat; [symmetry; exact Hnil|].
  destruct (drop_cols pearson (select_numeric df) threshold);
    [symmetry; exact Hnil | reflexivity].
Qed.

End CorrelationFilterProofs.

Lemma df_drop_ext (df : dataframe) (labels : list string) (keep : string -> bool) :
  (forall name, keep name = true <-> name ∉ labels) ->
  df_drop df labels = List.filter (fun c => keep (fst c)) df.
Proof.
  intros Hkeep. unfold df_drop. apply filter_ext. intros c.
  destruct (keep (fst c)) eqn:E.
  - apply negb_true_iff, bool_decide_eq_false_2, Hkeep, E.
  - apply negb_false_iff, bool_decide_eq_true_2.
    destruct (decide (fst c ∈ labels)) as [Hin|Hnin]; [exact Hin|].
    apply Hkeep in Hnin. congruence.
Qed.

Lemma select_numeric_In (df : dataframe) (name : string) (v : list Q) :
  In (name, v) (select_numeric df) <-> In (name, Numeric v) df.
Proof.
  induction df as [|[n [w|w]] df IH]; cbn [select_numeric In].
  - tauto.
  - rewrite IH. split; intros [H|H]; auto; left; congruence.
  - rewrite IH. split; [auto|]. intros [H|H]; [discriminate | exact H].
Qed.

Lemma select_numeric_NoDup (df : dataframe) :
  NoDup (map fst df) -> NoDup (map fst (select_numeric df)).
Proof.
  induction df as [|[n [w|w]] df IH]; cbn [select_numeric map fst]; intros Hnd.
  - constructor.
  - apply NoDup_cons in Hnd as [Hn Hnd]. apply NoDup_cons. split; [|apply IH, Hnd].
    intros Hin. apply Hn. apply list_elem_of_In, in_map_iff in Hin as ([n' v] & Hf & Hin).
    cbn in Hf. subst n'. apply select_numeric_In in Hin.
    apply list_elem_of_In, in_map_iff. exists (n, Numeric v). auto.
  - apply NoDup_cons in Hnd as [_ Hnd]. apply IH, Hnd.
Qed.


Lemma filter_true {A : Type} (l : list A) : List.filter (fun _ => true) l = l.
Proof. induction l as [|x l IH]; [reflexivity|]. cbn. f_equal. exact IH. Qed.

(** The later column of a pair correlated above the threshold is dropped,
    whatever the other columns are. *)
Lemma later_column_dropped (pearson : list Q -> list Q -> option Q) (df : dataframe)
    (threshold : Q) (i j : nat) (na nb : string) (a b : list Q) :
  select_numeric df !! i = Some (na, a) ->
  select_numeric df !! j = Some (nb, b) ->
  i < j ->
  gt_threshold (option_map Qabs (pearson a b)) threshold = true ->
  ~ In nb (map fst (correlation_filtering pearson df threshold)).
Proof.
  intros Hi Hj Hij Hgt Hin. rewrite correlation_filtering_is_drop in Hin.
  assert ((length (select_numeric df) <? 2)%nat = false) as E.
  { apply Nat.ltb_ge. apply lookup_lt_Some in Hj. lia. }
  rewrite E in Hin. apply in_map_iff in Hin as (c & Hc & Hin).
  unfold df_drop in Hin. apply filter_In in Hin as [_ Hkeep].
  apply negb_true_iff, bool_decide_eq_false in Hkeep. apply Hkeep.
  rewrite Hc. apply drop_cols_spec. exists i, j, (na, a), (nb, b). auto.
Qed.

(** The earlier column of a pair stays exactly when no numeric column before
    it correlates with it above the threshold. *)
Lemma earlier_column_kept_iff (pearson : list Q -> list Q -> option Q) (df : dataframe)
    (threshold : Q) (i : nat) (na : string) (a : list Q) :
  NoDup (map fst df) ->
  select_numeric df !! i = Some (na, a) ->
  2 <= length (select_numeric df) ->
  In (na, Numeric a) (correlation_filtering pearson df threshold) <->
  (forall i' x, select_numeric df !! i' = Some x -> i' < i ->
                gt_threshold (option_map Qabs (pearson (snd x) a)) threshold = false).
Proof.
  intros Hnd Hi Hlen. rewrite correlation_filtering_is_drop.
  assert ((length (select_numeric df) <? 2)%nat = false) as -> by (apply Nat.ltb_ge; lia).
  unfold df_drop. rewrite filter_In. cbn [fst]. split.
  - intros [_ Hkeep] i' x Hx Hlt.
    apply negb_true_iff, bool_decide_eq_false in Hkeep.
    destruct (gt_threshold _ _) eqn:Hgt; [|reflexivity].
    exfalso. apply Hkeep, drop_cols_spec. exists i', i, x, (na, a). auto.
  - intros Hnone. split.
    + apply (proj1 (select_numeric_In df na a)).
      apply list_elem_of_In. eapply list_elem_of_lookup_2, Hi.
    + apply negb_true_iff, bool_decide_eq_false. rewrite drop_cols_spec.
      intros (i' & j' & ci & cj & Hi' & Hj' & Hlt & Hname & Hgt).
      pose proof (select_numeric_NoDup df Hnd) as Hnd'.
      assert (j' = i) as ->.
      { apply (NoDup_lookup (map fst (select_numeric df)) j' i na Hnd');
          rewrite map_is_fmap, list_lookup_fmap.
        - rewrite Hj'. cbn. rewrite Hname. reflexivity.
        - rewrite Hi. reflexivity. }
      rewrite Hi in Hj'. injection Hj' as <-. cbn [snd] in Hgt.
      rewrite (Hnone i' ci Hi' Hlt) in Hgt. discriminate.
Qed.

(** Without the later column of the pair, and with the earlier one kept,
    nothing else goes when no other pair is above the threshold. *)
Lemma only_pair_drops_later (pearson : list Q -> list Q -> option Q) (df : dataframe)
    (threshold : Q) (i j : nat) (na nb : string) (a b : list Q) :
  select_numeric df !! i = Some (na, a) ->
  select_numeric df !! j = Some (nb, b) ->
  i < j ->
  gt_threshold (option_map Qabs (pearson a b)) threshold = true ->
  (forall i' j' x y,
      select_numeric df !! i' = Some x ->
      select_numeric df !! j' = Some y ->
      i' < j' ->
      (i', j') <> (i, j) ->
      gt_threshold (option_map Qabs (pearson (snd x) (snd y))) threshold = false) ->
  correlation_filtering pearson df threshold
  = List.filter (fun c => negb (String.eqb (fst c) nb)) df.
Proof.
  intros Hi Hj Hij Hgt0 Hothers.
  rewrite correlation_filtering_is_drop.
  assert ((length (select_numeric df) <? 2)%nat = false) as ->.
  { apply Nat.ltb_ge. apply lookup_lt_Some in Hj. lia. }
  apply (df_drop_ext df _ (fun name => negb (String.eqb name nb))).
  intros name. rewrite drop_cols_spec. split.
  - intros Hkeep (i' & j' & ci & cj & Hi' & Hj' & Hlt & Hname & Hgt).
    destruct (decide ((i', j') = (i, j))) as [[= -> ->]|Hne].
    + rewrite Hj in Hj'. injection Hj' as <-. cbn in Hname. subst name.
      rewrite String.eqb_refl in Hkeep. discriminate.
    + rewrite (Hothers i' j' ci cj Hi' Hj' Hlt Hne) in Hgt. discriminate.
  - intros Hnot. apply negb_true_iff. apply String.eqb_neq. intros ->.
    apply Hnot. exists i, j, (na, a), (nb, b). repeat split; auto.
Qed.

(** C7, as the code behaves, for frames with distinct column labels and in
    terms of the coefficients that [corr()] computes. (1) For a pair of
    numeric columns whose computed coefficient exceeds 0.999 in absolute
    value (as for a perfectly correlated pair, where it is 1 up to rounding)
    and threshold 0.999, [correlation_filtering] always drops the later
    column of the pair, and it keeps the earlier column exactly when no
    numeric column before it has a coefficient above 0.999 with it; so when
    the two are the only numeric columns, or the only pair above 0.999, the
    result is the dataframe without the later column. (2) When no computed
    coefficient exceeds 1.0 in absolute value, [correlation_filtering] with
    threshold 1.0 returns the dataframe unchanged. *)
Theorem correlation_filtering_perfect_pair :
  forall pearson : list Q -> list Q -> option Q,
    (forall df i j na a nb b r,
        NoDup (map fst df) ->
        select_numeric df !! i = Some (na, a) ->
        select_numeric df !! j = Some (nb, b) ->
        i < j ->
        pearson a b = Some r ->
        (999 # 1000 < Qabs r)%Q ->
        ~ In nb (map fst (correlation_filtering pearson df (999 # 1000))) /\
        (In (na, Numeric a) (correlation_filtering pearson df (999 # 1000)) <->
         (forall i' x, select_numeric df !! i' = Some x -> i' < i ->
                       gt_threshold (option_map Qabs (pearson (snd x) a)) (999 # 1000)
                       = false)) /\
        ((forall i' j' x y,
             select_numeric df !! i' = Some x ->
             select_numeric df !! j' = Some y ->
             i' < j' ->
             (i', j') <> (i, j) ->
             gt_threshold (option_map Qabs (pearson (snd x) (snd y))) (999 # 1000) = false) ->
         correlation_filtering pearson df (999 # 1000)
         = List.filter (fun c => negb (String.eqb (fst c) nb)) df)) /\
    (forall df na a nb b r,
        NoDup (map fst df) ->
        select_numeric df = [(na, a); (nb, b)] ->
        pearson a b = Some r ->
        (999 # 1000 < Qabs r)%Q ->
        correlation_filtering pearson df (999 # 1000)
        = List.filter (fun c => negb (String.eqb (fst c) nb)) df /\
        In (na, Numeric a) (correlation_filtering pearson df (999 # 1000)) /\
        ~ In nb (map fst (correlation_filtering pearson df (999 # 1000)))) /\
    (forall df,
        NoDup (map fst df) ->
        (forall i j x y r,
            select_numeric df !! i = Some x ->
            select_numeric df !! j = Some y ->
            i < j ->
            pearson (snd x) (snd y) = Some r ->
            (Qabs r <= 1)%Q) ->
        correlation_filtering pearson df 1 = df).
Proof.
  intros pearson.
  assert (forall df i j na a nb b r,
        NoDup (map fst df) ->
        select_numeric df !! i = Some (na, a) ->
        select_numeric df !! j = Some (nb, b) ->
        i < j ->
        pearson a b = Some r ->
        (999 # 1000 < Qabs r)%Q ->
        ~ In nb (map fst (correlation_filtering pearson df (999 # 1000))) /\
        (In (na, Numeric a) (correlation_filtering pearson df (999 # 1000)) <->
         (forall i' x, select_numeric df !! i' = Some x -> i' < i ->
                       gt_threshold (option_map Qabs (pearson (snd x) a)) (999 # 1000)
                       = false)) /\
        ((forall i' j' x y,
             select_numeric df !! i' = Some x ->
             select_numeric df !! j' = Some y ->
             i' < j' ->
             (i', j') <> (i, j) ->
             gt_threshold (option_map Qabs (pearson (snd x) (snd y))) (999 # 1000) = false) ->
         correlation_filtering pearson df (999 # 1000)
         = List.filter (fun c => negb (String.eqb (fst c) nb)) df)) as Hpair.
  { intros df i j na a nb b r Hnd Hi Hj Hij Hr Habove.
    assert (gt_threshold (option_map Qabs (pearson a b)) (999 # 1000) = true) as Hgt.
    { rewrite Hr. cbn [option_map gt_threshold].
      destruct (Qlt_le_dec (999 # 1000) (Qabs r)) as [_|Hle]; [reflexivity|].
      exfalso. Lqa.lra. }
    split; [|split].
    - exact (later_column_dropped pearson df _ i j na nb a b Hi Hj Hij Hgt).
    - apply earlier_column_kept_iff; [exact Hnd | exact Hi |].
      apply lookup_lt_Some in Hj. lia.
    - intros Hothers.
      exact (only_pair_drops_later pearson df _ i j na nb a b Hi Hj Hij Hgt Hothers). }
  split; [exact Hpair|]. split.
  - intros df na a nb b r Hnd Hnum Hr Habove.
    destruct (Hpair df 0 1 na a nb b r) as (Hlater & Hearlier & Honly); auto.
    + rewrite Hnum. reflexivity.
    + rewrite Hnum. reflexivity.
    + split; [|split; [|exact Hlater]].
      * apply Honly. intros i' j' x y Hx Hy Hlt Hne. rewrite Hnum in Hx, Hy.
        destruct i' as [|[|i']]; destruct j' as [|[|j']];
          try lia; try discriminate Hy; try discriminate Hx.
        exfalso. apply Hne. reflexivity.
      * apply Hearlier. intros i' x _ Hlt. lia.
  - intros df _ Hlow. rewrite correlation_filtering_is_drop.
    rewrite (df_drop_ext df _ (fun _ => true)); [apply filter_true|].
    intros name. split; [|reflexivity]. intros _.
    destruct (length (select_numeric df) <? 2)%nat; [intros H; inversion H|].
    rewrite drop_cols_spec.
    intros (i & j & ci & cj & Hi & Hj & Hlt & _ & Hgt).
    destruct (pearson (snd ci) (snd cj)) as [r|] eqn:Hr; [|discriminate].
    pose proof (Hlow i j ci cj r Hi Hj Hlt Hr) as Hr1.
    cbn [option_map gt_threshold] in Hgt.
    destruct (Qlt_le_dec 1 (Qabs r)) as [Hgt1|_]; [|discriminate].
    Lqa.lra.
Qed.

Lemma correlation_filtering_perfect_pair_witness :
  correlation_filtering example_pearson example_df (999 # 1000)
  = [("x"%string, Numeric example_x);
     ("Label"%string, Other ["Benign"; "DoS"; "Bot"]%string);
     ("z"%string, Numeric example_z)]
  /\ correlation_filtering example_pearson
       [("x"%string, Numeric example_x); ("z"%string, Numeric example_z)] 1
     = [("x"%string, Numeric example_x); ("z"%string, Numeric example_z)].
Proof.
  destruct (correlation_filtering_perfect_pair example_pearson)
    as (Hpair & _ & Hnone).
  split.
  - destruct (Hpair example_df 0 1 "x"%string example_x "y"%string example_y (1 # 1)%Q)
      as (_ & _ & Honly).
    + unfold example_df. cbn. repeat constructor; solve_not_elem.
    + reflexivity.
    + reflexivity.
    + lia.
    + reflexivity.
    + reflexivity.
    + rewrite Honly; [reflexivity|].
      intros i' j' x y Hx Hy Hlt Hne.
      destruct i' as [|[|[|i']]]; destruct j' as [|[|[|j']]];
        try lia; try discriminate Hy; try discriminate Hx;
        try (exfalso; apply Hne; reflexivity);
        cbn in Hx, Hy; injection Hx as <-; injection Hy as <-; reflexivity.
  - apply Hnone; [cbn; repeat constructor; solve_not_elem|].
    intros i j x y r Hx Hy Hlt Hr.
    destruct i as [|[|i]]; destruct j as [|[|j]];
      try lia; try discriminate Hy; try discriminate Hx.
    cbn in Hx, Hy. injection Hx as <-. injection Hy as <-.
    vm_compute in Hr. injection Hr as <-. vm_compute. discriminate.
Defined.

(** The coefficients tabulated for the two example frames agree with the
    data. *)
Example example_coefficients_checked :
  (exists q, pearson_squared example_x example_y = Some q /\ (q == 1)%Q) /\
  (exists q, pearson_squared example_x example_z = Some q /\ (q == 0)%Q) /\
  (exists q, pearson_squared example_y example_z = Some q /\ (q == 0)%Q) /\
  (exists q, pearson_squared near_a near_b = Some q /\ (q == 1)%Q) /\
  (exists q, pearson_squared near_k near_a = Some q /\
             ((999 # 1000) * (999 # 1000) < q)%Q /\ (q < 1)%Q) /\
  (exists q, pearson_squared near_k near_b = Some q /\
             ((999 # 1000) * (999 # 1000) < q)%Q /\ (q < 1)%Q).
Proof.
  repeat split; eexists; (split; [vm_compute; reflexivity|]);
    try split; vm_compute; reflexivity.
Qed.

(** C7 does not hold as stated. "Exactly one column of the pair" fails:
    [near_df] contains exactly two perfectly correlated numeric columns, a and
    b, and the filter with threshold 0.999 drops both of them, a because of k,
    b because of k and of a. "No pair reaching exact correlation, threshold
    1.0, none dropped" fails: the columns of [rounded_df] are not perfectly
    correlated (the square of their coefficient is below 1), the coefficient
    computed for them is 1.0000000000000002, and the filter with threshold
    1.0 drops the column y. *)
Lemma correlation_filtering_drops_both_of_pair :
  (select_numeric near_df
   = [("k"%string, near_k); ("a"%string, near_a); ("b"%string, near_b)] /\
   near_pearson near_a near_b = Some (1 # 1)%Q /\
   near_pearson near_k near_a = Some (99972 # 100000)%Q /\
   near_pearson near_k near_b = Some (99972 # 100000)%Q /\
   correlation_filtering near_pearson near_df (999 # 1000)
   = [("k"%string, Numeric near_k)] /\
   ~ In ("a"%string, Numeric near_a)
        (correlation_filtering near_pearson near_df (999 # 1000))) /\
  ((exists q, pearson_squared rounded_x rounded_y = Some q /\ (q < 1)%Q) /\
   rounded_pearson rounded_x rounded_y = Some (1 + (1 # 4503599627370496))%Q /\
   correlation_filtering rounded_pearson rounded_df 1
   = [("x"%string, Numeric rounded_x)]).
Proof.
  assert (correlation_filtering near_pearson near_df (999 # 1000)
          = [("k"%string, Numeric near_k)]) as Heq by (vm_compute; reflexivity).
  split.
  - repeat split; try (vm_compute; reflexivity).
    rewrite Heq. intros [H|[]]. discriminate H.
  - split; [|split].
    + eexists. split; [vm_compute; reflexivity | vm_compute; reflexivity].
    + vm_compute. reflexivity.
    + vm_compute. reflexivity.
Qed.

(* --------------------------------------------------------------------- *)
(** ** The Phase-2 optimisation step and the mask gate                     *)
(* --------------------------------------------------------------------- *)

Section Phase2Proofs.

Context {V S : Type}.

Variable unet_forward : (param -> V) -> V -> V.
Variable masker_forward : (param -> V) -> V -> V.
Variable mul : V -> V -> V.
Variable clamp01 : V -> V.
Variable classifier_forward : (param -> V) -> V -> V.
Variable focal_loss : V -> V -> V.
Variable dloss : (param -> V) -> V -> V -> param -> V.
Variable accumulate : V -> V -> V.
Variable zeros_like : V -> V.
Variable adam_update : S -> V -> V -> S * V.
Variable n_classifier : nat.
Variable n_unet : nat.

Lemma upd_other (st : @store V S) (p q : param) (s : slot) :
  q <> p -> upd st p s q = st q.
Proof. intros Hne. unfold upd. destruct (decide (q = p)); [contradiction|reflexivity]. Qed.

Lemma upd_same (st : @store V S) (p : param) (s : slot) : upd st p s p = s.
Proof. unfold upd. destruct (decide (p = p)); [reflexivity|contradiction]. Qed.

(** The tensor returned by [feature_masking_enhancement] has no autograd
    graph: nothing computed under [no_grad] is recorded. *)
Lemma enhancement_has_no_graph (st : @store V S) (imgs : V) :
  t_leaves (feature_masking_enhancement unet_forward masker_forward mul clamp01
                                        n_unet st imgs) = [].
Proof. reflexivity. Qed.

(** [zero_grad] changes no value and creates no gradient. *)
Lemma zero_grad_frame (set_to_none : bool) (st : @store V S) (q : param) :
  p_value (zero_grad zeros_like n_classifier set_to_none st q) = p_value (st q) /\
  p_requires_grad (zero_grad zeros_like n_classifier set_to_none st q)
  = p_requires_grad (st q) /\
  (p_grad (st q) = None ->
   p_grad (zero_grad zeros_like n_classifier set_to_none st q) = None).
Proof.
  unfold zero_grad. generalize (optimizer_params n_classifier) as ps.
  intros ps. revert st. induction ps as [|p ps IH]; intros st; cbn [fold_left].
  - auto.
  - destruct (IH (upd st p (set_grad (st p)
                              (if set_to_none then None
                               else option_map zeros_like (p_grad (st p))))))
      as (IHv & IHr & IHg).
    rewrite IHv, IHr. destruct (decide (q = p)) as [->|Hne].
    + rewrite upd_same in *. cbn [set_grad p_value p_requires_grad p_grad] in *.
      repeat split. intros Hnone. apply IHg. rewrite Hnone.
      destruct set_to_none; reflexivity.
    + rewrite upd_other in * by exact Hne. auto.
Qed.

(** [backward] only touches the leaves of the graph of the loss. *)
Lemma backward_frame (st st' : @store V S) (loss : gtensor) (g : param -> V) (q : param) :
  backward accumulate st loss g = Some st' ->
  ~ In q (t_leaves loss) ->
  st' q = st q.
Proof.
  unfold backward. destruct (t_leaves loss) as [|p0 ps0] eqn:E; [discriminate|].
  rewrite <- E. clear E. intros [= <-]. generalize (t_leaves loss) as ps.
  intros ps. revert st. induction ps as [|p ps IH]; intros st Hq; cbn [fold_left].
  - reflexivity.
  - rewrite IH by (intros Hin; apply Hq; right; exact Hin).
    apply upd_other. intros ->. apply Hq. left. reflexivity.
Qed.

Lemma backward_requires_grad (st st' : @store V S) (loss : gtensor) (g : param -> V)
    (q : param) :
  backward accumulate st loss g = Some st' ->
  p_requires_grad (st' q) = p_requires_grad (st q).
Proof.
  unfold backward. destruct (t_leaves loss) as [|p0 ps0] eqn:E; [discriminate|].
  rewrite <- E. clear E. intros [= <-]. generalize (t_leaves loss) as ps.
  intros ps. revert st. induction ps as [|p ps IH]; intros st; cbn [fold_left].
  - reflexivity.
  - rewrite IH. destruct (decide (q = p)) as [->|Hne].
    + rewrite upd_same. reflexivity.
    + rewrite upd_other by exact Hne. reflexivity.
Qed.

(** Adam leaves a parameter without gradient as it is. *)
Lemma adam_step_skips (st : @store V S) (q : param) :
  p_grad (st q) = None ->
  adam_step adam_update n_classifier st q = st q.
Proof.
  unfold adam_step. generalize (optimizer_params n_classifier) as ps.
  intros ps. revert st. induction ps as [|p ps IH]; intros st Hq; cbn [fold_left].
  - reflexivity.
  - destruct (p_grad (st p)) as [gp|] eqn:Egp; [|apply IH, Hq].
    assert (q <> p) as Hne by (intros ->; congruence).
    rewrite IH; [apply upd_other, Hne|].
    rewrite upd_other by exact Hne. exact Hq.
Qed.

Lemma adam_step_requires_grad (st : @store V S) (q : param) :
  p_requires_grad (adam_step adam_update n_classifier st q) = p_requires_grad (st q).
Proof.
  unfold adam_step. generalize (optimizer_params n_classifier) as ps.
  intros ps. revert st. induction ps as [|p ps IH]; intros st; cbn [fold_left].
  - reflexivity.
  - destruct (p_grad (st p)) as [gp|] eqn:Egp; [|apply IH].
    rewrite IH. destruct (decide (q = p)) as [->|Hne].
    + rewrite upd_same. reflexivity.
    + rewrite upd_other by exact Hne. reflexivity.
Qed.

(** The graph of the Phase-2 loss reaches classifier parameters only. *)
Lemma loss_leaves_are_classifier (st : @store V S) (gp : gate_param) :
  ~ In (GateParam gp)
      (([] ++ List.filter (fun p => p_requires_grad (st p))
                          (classifier_parameters n_classifier))
         ++ List.filter (fun p => p_requires_grad (st p)) []).
Proof.
  cbn [List.filter app]. rewrite app_nil_r. intros Hin.
  apply filter_In in Hin as [Hin _]. unfold classifier_parameters in Hin.
  apply in_map_iff in Hin as (i & Hi & _). discriminate.
Qed.

(** One batch step: the slot of a gate parameter without gradient is left
    exactly as it was. *)
Lemma phase2_batch_step_gate (set_to_none : bool) (st st' : @store V S)
    (imgs labels : V) (gp : gate_param) :
  p_grad (st (GateParam gp)) = None ->
  phase2_batch_step unet_forward masker_forward mul clamp01 classifier_forward
                    focal_loss dloss accumulate zeros_like adam_update
                    n_classifier n_unet set_to_none st imgs labels = Some st' ->
  p_value (st' (GateParam gp)) = p_value (st (GateParam gp)) /\
  p_grad (st' (GateParam gp)) = None.
Proof.
  intros Hnone. unfold phase2_batch_step.
  set (st1 := zero_grad zeros_like n_classifier set_to_none st).
  destruct (backward accumulate st1 _ _) as [st2|] eqn:Eb; [|discriminate].
  intros [= <-].
  destruct (zero_grad_frame set_to_none st (GateParam gp)) as (Hv & _ & Hg).
  assert (st2 (GateParam gp) = st1 (GateParam gp)) as H2.
  { eapply backward_frame; [exact Eb|]. cbn [t_leaves record_op].
    rewrite enhancement_has_no_graph. apply loss_leaves_are_classifier. }
  assert (p_grad (st2 (GateParam gp)) = None) as Hg2.
  { rewrite H2. apply Hg, Hnone. }
  rewrite (adam_step_skips st2 (GateParam gp) Hg2), H2.
  split; [exact Hv | apply Hg, Hnone].
Qed.

(** One batch step succeeds as soon as a classifier parameter is
    trainable. *)
Lemma phase2_batch_step_total (set_to_none : bool) (st : @store V S) (imgs labels : V)
    (i : nat) :
  i < n_classifier ->
  p_requires_grad (st (ClassifierParam i)) = true ->
  exists st',
    phase2_batch_step unet_forward masker_forward mul clamp01 classifier_forward
                      focal_loss dloss accumulate zeros_like adam_update
                      n_classifier n_unet set_to_none st imgs labels = Some st' /\
    forall q, p_requires_grad (st' q) = p_requires_grad (st q).
Proof.
  intros Hi Hreq. unfold phase2_batch_step.
  set (st1 := zero_grad zeros_like n_classifier set_to_none st).
  destruct (backward accumulate st1 _ _) as [st2|] eqn:Eb.
  - exists (adam_step adam_update n_classifier st2). split; [reflexivity|].
    intros q. rewrite adam_step_requires_grad.
    rewrite (backward_requires_grad _ _ _ _ q Eb).
    apply (zero_grad_frame set_to_none st q).
  - exfalso. unfold backward in Eb. cbn [t_leaves record_op] in Eb.
    rewrite enhancement_has_no_graph in Eb. cbn [List.filter app] in Eb.
    rewrite app_nil_r in Eb.
    assert (In (ClassifierParam i)
               (List.filter (fun p => p_requires_grad (st1 p))
                            (classifier_parameters n_classifier))) as Hin.
    { apply filter_In. split.
      - unfold classifier_parameters. apply in_map, in_seq. lia.
      - destruct (zero_grad_frame set_to_none st (ClassifierParam i)) as (_ & Hr & _).
        unfold st1. rewrite Hr. exact Hreq. }
    destruct (List.filter _ _); [inversion Hin | discriminate].
Qed.

End Phase2Proofs.

(** C1, as the code behaves. The mask is computed inside
    [feature_masking_enhancement] under [torch.no_grad()], so the loss has no
    graph through the gate: starting from gate parameters without gradient (as
    they are created), no number of Phase-2 batch steps changes the value of
    any gate parameter (temperature, bias, channel_scale, global_fc) or gives
    it a gradient, although the optimizer was handed these parameters. *)
Theorem phase2_training_never_updates_gate :
  forall (V S : Type)
         (unet_forward masker_forward : (param -> V) -> V -> V)
         (mul : V -> V -> V) (clamp01 : V -> V)
         (classifier_forward : (param -> V) -> V -> V)
         (focal_loss : V -> V -> V)
         (dloss : (param -> V) -> V -> V -> param -> V)
         (accumulate : V -> V -> V) (zeros_like : V -> V)
         (adam_update : S -> V -> V -> S * V)
         (n_classifier n_unet : nat) (set_to_none : bool)
         (batches : list (V * V)) (st st' : @store V S),
    gate_grads_none st ->
    phase2_train unet_forward masker_forward mul clamp01 classifier_forward
                 focal_loss dloss accumulate zeros_like adam_update
                 n_classifier n_unet set_to_none st batches = Some st' ->
    forall gp : gate_param,
      p_value (st' (GateParam gp)) = p_value (st (GateParam gp)) /\
      p_grad (st' (GateParam gp)) = None.
Proof.
  intros V S unet_forward masker_forward mul clamp01 classifier_forward focal_loss
         dloss accumulate zeros_like adam_update n_classifier n_unet set_to_none batches.
  induction batches as [|[imgs labels] batches IH]; intros st st' Hnone Hrun gp.
  - injection Hrun as <-. split; [reflexivity | apply Hnone].
  - cbn [phase2_train] in Hrun.
    destruct (phase2_batch_step _ _ _ _ _ _ _ _ _ _ _ _ _ st imgs labels)
      as [st1|] eqn:Estep; [|discriminate].
    assert (gate_grads_none st1) as Hnone1.
    { intros gp'. eapply phase2_batch_step_gate; [apply Hnone | exact Estep]. }
    destruct (IH st1 st' Hnone1 Hrun gp) as [Hv Hg].
    split; [|exact Hg]. rewrite Hv.
    eapply phase2_batch_step_gate; [apply Hnone | exact Estep].
Qed.

Lemma phase2_training_never_updates_gate_witness :
  exists st',
    example_phase2_step example_store 5 0 = Some st' /\
    p_value (st' (GateParam Temperature)) = 1%Z /\
    p_value (st' (ClassifierParam 0)) = (-4)%Z.
Proof.
  destruct (example_phase2_step example_store 5 0) as [st'|] eqn:E;
    [|vm_compute in E; discriminate E].
  exists st'. split; [reflexivity|]. split.
  - refine (proj1 (phase2_training_never_updates_gate
                     Z unit
                     (fun _ x => x)
                     (fun vals x => (x * vals (GateParam Temperature))%Z)
                     Z.mul
                     (fun x => Z.max 0 (Z.min 1 x))
                     (fun vals x => (x * vals (ClassifierParam 0))%Z)
                     (fun preds labels' => (preds - labels')%Z)
                     (fun _ imgs' _ _ => imgs')
                     Z.add
                     (fun _ => 0%Z)
                     (fun s v g => (s, (v - g)%Z))
                     2 3 true [(5%Z, 0%Z)] example_store st' _ _ Temperature)).
    + intros gp. reflexivity.
    + cbn [phase2_train]. unfold example_phase2_step in E. rewrite E. reflexivity.
  - vm_compute in E. injection E as <-. reflexivity.
Defined.


(* ===================================================================== *)
(** * Part III: further properties of the code                             *)
(* ===================================================================== *)

(* --------------------------------------------------------------------- *)
(** ** The correlation filter, continued                                   *)
(* --------------------------------------------------------------------- *)

(** [filter] keeps the relative order of the elements it keeps. *)
Lemma filter_lookup_ordered {A : Type} (P : A -> bool) (l : list A) (i j : nat) (x y : A) :
  List.filter P l !! i = Some x ->
  List.filter P l !! j = Some y ->
  i < j ->
  exists i' j', i' < j' /\ l !! i' = Some x /\ l !! j' = Some y /\
                P x = true /\ P y = true.
Proof.
  revert i j. induction l as [|a l IH]; intros i j Hi Hj Hlt.
  - destruct i; discriminate.
  - cbn [List.filter] in Hi, Hj. destruct (P a) eqn:Pa.
    + destruct j as [|j]; [lia|]. destruct i as [|i].
      * cbn in Hi. injection Hi as <-. cbn in Hj.
        assert (In y (List.filter P l)) as Hy
          by (apply list_elem_of_In; eapply list_elem_of_lookup_2, Hj).
        apply filter_In in Hy as [Hy Py].
        apply list_elem_of_In, list_elem_of_lookup in Hy as [j' Hj'].
        exists 0, (S j'). repeat split; auto. lia.
      * cbn in Hi, Hj. destruct (IH i j Hi Hj) as (i' & j' & H1 & H2 & H3 & H4 & H5); [lia|].
        exists (S i'), (S j'). repeat split; auto. lia.
    + destruct (IH i j Hi Hj Hlt) as (i' & j' & H1 & H2 & H3 & H4 & H5).
      exists (S i'), (S j'). repeat split; auto. lia.
Qed.

(** Dropping columns by label commutes with selecting the numeric columns. *)
Lemma select_numeric_df_drop (df : dataframe) (labels : list string) :
  select_numeric (df_drop df labels)
  = List.filter (fun c => negb (bool_decide (fst c ∈ labels))) (select_numeric df).
Proof.
  unfold df_drop. induction df as [|[n [v|v]] df IH]; [reflexivity| |].
  - cbn [List.filter select_numeric fst].
    destruct (negb (bool_decide (n ∈ labels))); cbn [select_numeric]; rewrite IH; reflexivity.
  - cbn [List.filter select_numeric fst].
    destruct (negb (bool_decide (n ∈ labels))); cbn [select_numeric]; exact IH.
Qed.

(** The numeric columns of the filtered frame: ordered as before, and none
    of them was to be dropped. *)
Lemma filtered_columns_ordered (pearson : list Q -> list Q -> option Q) (df : dataframe)
    (threshold : Q) (i j : nat) (x y : string * list Q) :
  select_numeric (correlation_filtering pearson df threshold) !! i = Some x ->
  select_numeric (correlation_filtering pearson df threshold) !! j = Some y ->
  i < j ->
  exists i' j', i' < j' /\ select_numeric df !! i' = Some x /\
                select_numeric df !! j' = Some y /\
                fst y ∉ drop_cols pearson (select_numeric df) threshold.
Proof.
  rewrite correlation_filtering_is_drop, select_numeric_df_drop.
  intros Hi Hj Hlt.
  destruct (filter_lookup_ordered _ _ i j x y Hi Hj Hlt) as (i' & j' & H1 & H2 & H3 & _ & Hy).
  exists i', j'. repeat split; auto.
  apply negb_true_iff, bool_decide_eq_false in Hy.
  destruct (length (select_numeric df) <? 2)%nat eqn:E; [|exact Hy].
  apply Nat.ltb_lt in E. apply lookup_lt_Some in H3. lia.
Qed.

Lemma filtered_pair_below (pearson : list Q -> list Q -> option Q) (df : dataframe)
    (threshold : Q) (i j : nat) (x y : string * list Q) :
  select_numeric (correlation_filtering pearson df threshold) !! i = Some x ->
  select_numeric (correlation_filtering pearson df threshold) !! j = Some y ->
  i < j ->
  gt_threshold (option_map Qabs (pearson (snd x) (snd y))) threshold = false.
Proof.
  intros Hi Hj Hlt.
  destruct (filtered_columns_ordered pearson df threshold i j x y Hi Hj Hlt)
    as (i' & j' & H1 & H2 & H3 & Hkeep).
  destruct (gt_threshold _ _) eqn:Hgt; [|reflexivity].
  exfalso. apply Hkeep, drop_cols_spec. exists i', j', x, y. auto.
Qed.

(** X1. For a frame with distinct column labels: in the frame returned by
    [correlation_filtering], no numeric column has a coefficient above the
    threshold with a numeric column that precedes it. *)
Theorem correlation_filtering_leaves_no_pair_above :
  forall (pearson : list Q -> list Q -> option Q) (df : dataframe) (threshold : Q)
         (i j : nat) (x y : string * list Q),
    NoDup (map fst df) ->
    select_numeric (correlation_filtering pearson df threshold) !! i = Some x ->
    select_numeric (correlation_filtering pearson df threshold) !! j = Some y ->
    i < j ->
    gt_threshold (option_map Qabs (pearson (snd x) (snd y))) threshold = false.
Proof.
  intros pearson df threshold i j x y _ Hi Hj Hlt.
  destruct (filtered_columns_ordered pearson df threshold i j x y Hi Hj Hlt)
    as (i' & j' & H1 & H2 & H3 & Hkeep).
  destruct (gt_threshold _ _) eqn:Hgt; [|reflexivity].
  exfalso. apply Hkeep, drop_cols_spec. exists i', j', x, y. auto.
Qed.

Lemma correlation_filtering_leaves_no_pair_above_witness :
  gt_threshold
    (option_map Qabs (example_pearson example_x example_z)) (999 # 1000) = false.
Proof.
  apply (correlation_filtering_leaves_no_pair_above
           example_pearson example_df (999 # 1000) 0 1
           ("x"%string, example_x) ("z"%string, example_z)).
  - unfold example_df. cbn. repeat constructor; solve_not_elem.
  - reflexivity.
  - reflexivity.
  - lia.
Defined.

(** X2. [correlation_filtering] is idempotent: filtering its own result
    drops nothing more. *)
Theorem correlation_filtering_idempotent :
  forall (pearson : list Q -> list Q -> option Q) (df : dataframe) (threshold : Q),
    correlation_filtering pearson
      (correlation_filtering pearson df threshold) threshold
    = correlation_filtering pearson df threshold.
Proof.
  intros pearson df threshold.
  set (res := correlation_filtering pearson df threshold).
  rewrite correlation_filtering_is_drop.
  rewrite (df_drop_ext res _ (fun _ => true)); [apply filter_true|].
  intros name. split; [|reflexivity]. intros _.
  destruct (length (select_numeric res) <? 2)%nat; [intros H; inversion H|].
  rewrite drop_cols_spec.
  intros (i & j & ci & cj & Hi & Hj & Hlt & _ & Hgt).
  rewrite (filtered_pair_below pearson df threshold i j ci cj Hi Hj Hlt) in Hgt.
  discriminate.
Qed.

(** X3. With distinct column labels, [correlation_filtering] keeps every
    column that is not numeric and the first numeric column, and whatever it
    returns is a column of the input. *)
Theorem correlation_filtering_keeps_first_and_other_columns :
  forall (pearson : list Q -> list Q -> option Q) (df : dataframe) (threshold : Q),
    NoDup (map fst df) ->
    (forall name v, In (name, Other v) df ->
                    In (name, Other v) (correlation_filtering pearson df threshold)) /\
    (forall name v, select_numeric df !! 0 = Some (name, v) ->
                    In (name, Numeric v) (correlation_filtering pearson df threshold)) /\
    (forall c, In c (correlation_filtering pearson df threshold) -> In c df).
Proof.
  intros pearson df threshold Hnd.
  pose proof (select_numeric_NoDup df Hnd) as Hnd'.
  rewrite correlation_filtering_is_drop. unfold df_drop.
  split; [|split].
  - intros name v Hin. apply filter_In. split; [exact Hin|].
    apply negb_true_iff, bool_decide_eq_false. cbn [fst].
    destruct (length (select_numeric df) <? 2)%nat; [intros H; inversion H|].
    rewrite drop_cols_spec. intros (i & j & ci & [n w] & _ & Hj & _ & Hname & _).
    cbn in Hname. subst n.
    assert (In (name, Numeric w) df) as Hnum.
    { apply select_numeric_In, list_elem_of_In. eapply list_elem_of_lookup_2, Hj. }
    apply list_elem_of_In, list_elem_of_lookup in Hin as [a Ha].
    apply list_elem_of_In, list_elem_of_lookup in Hnum as [b Hb].
    assert (a = b).
    { apply (NoDup_lookup (map fst df) a b name Hnd);
        rewrite map_is_fmap, list_lookup_fmap.
      - rewrite Ha. reflexivity.
      - rewrite Hb. reflexivity. }
    subst b. congruence.
  - intros name v H0. apply filter_In. split.
    + apply select_numeric_In, list_elem_of_In. eapply list_elem_of_lookup_2, H0.
    + apply negb_true_iff, bool_decide_eq_false. cbn [fst].
      destruct (length (select_numeric df) <? 2)%nat; [intros H; inversion H|].
      rewrite drop_cols_spec. intros (i & j & ci & cj & _ & Hj & Hlt & Hname & _).
      assert (j = 0); [|lia].
      apply (NoDup_lookup (map fst (select_numeric df)) j 0 name Hnd');
        rewrite map_is_fmap, list_lookup_fmap.
      * rewrite Hj. cbn. rewrite Hname. reflexivity.
      * rewrite H0. reflexivity.
  - intros c Hin. apply filter_In in Hin as [Hin _]. exact Hin.
Qed.

Lemma correlation_filtering_keeps_first_and_other_columns_witness :
  In ("Label"%string, Other ["Benign"; "DoS"; "Bot"]%string)
     (correlation_filtering example_pearson example_df (999 # 1000)) /\
  In ("x"%string, Numeric example_x)
     (correlation_filtering example_pearson example_df (999 # 1000)).
Proof.
  destruct (correlation_filtering_keeps_first_and_other_columns
              example_pearson example_df (999 # 1000)) as (Hother & Hfirst & _).
  - unfold example_df. cbn. repeat constructor; solve_not_elem.
  - split.
    + apply Hother. right. left. reflexivity.
    + apply Hfirst. reflexivity.
Defined.

(* --------------------------------------------------------------------- *)
(** ** Label consolidation, continued                                      *)
(* --------------------------------------------------------------------- *)

Lemma consolidate_label_cases (label : string) :
  In (consolidate_label label) six_classes.
Proof.
  unfold consolidate_label, six_classes.
  repeat match goal with
         | |- context [if ?b then _ else _] => destruct b
         end; simpl; tauto.
Qed.

(** X4. [consolidate_labels] is idempotent: the six class names map to
    themselves, so consolidating consolidated labels changes nothing. It
    also absorbs the renaming of 'BENIGN' to 'Benign' that the preparation
    script applies to the label column: the consolidated labels are the same
    with and without it. *)
Theorem consolidate_labels_idempotent :
  forall labels : list string,
    consolidate_labels (consolidate_labels labels) = consolidate_labels labels /\
    consolidate_labels (map replace_benign labels) = consolidate_labels labels.
Proof.
  assert (forall label, consolidate_label (consolidate_label label)
                        = consolidate_label label) as Hone.
  { intros label. pose proof (consolidate_label_cases label) as Hin.
    remember (consolidate_label label) as c eqn:Hc. clear Hc. unfold six_classes in Hin.
    repeat (destruct Hin as [<- | Hin]; [vm_compute; reflexivity|]).
    destruct Hin. }
  assert (forall label, consolidate_label (replace_benign label)
                        = consolidate_label label) as Hrename.
  { intros label. unfold replace_benign.
    destruct (String.eqb label "BENIGN") eqn:E; [|reflexivity].
    apply String.eqb_eq in E. subst label. vm_compute. reflexivity. }
  intros labels. unfold consolidate_labels. rewrite !consolidate_loop_acc.
  cbn [app]. rewrite !map_map. split; apply map_ext; assumption.
Qed.

(* --------------------------------------------------------------------- *)
(** ** Evaluation                                                          *)
(* --------------------------------------------------------------------- *)

Lemma n_correct_cons (t p : Z) (ts ps : list Z) :
  n_correct (t :: ts) (p :: ps)
  = ((if (t =? p)%Z then 1 else 0) + n_correct ts ps)%nat.
Proof. unfold n_correct. cbn. destruct (t =? p)%Z; reflexivity. Qed.

(** X5. Collapsing the classes into benign versus attack never loses a
    correct prediction: the binary report counts at least as many agreements
    as the multi-class one, on as many samples. *)
Theorem binary_collapse_keeps_correct :
  forall (b_enc : Z) (y_true y_pred : list Z),
    n_correct y_true y_pred
    <= n_correct (binary_collapse b_enc y_true) (binary_collapse b_enc y_pred) /\
    length (binary_collapse b_enc y_true) = length y_true /\
    (forall i y, y_true !! i = Some y ->
                 (binary_collapse b_enc y_true !! i = Some 0%Z <-> y = b_enc)).
Proof.
  intros b_enc y_true y_pred. split; [|split].
  - revert y_pred. induction y_true as [|t ts IH]; intros [|p ps];
      try (unfold n_correct; cbn; lia).
    cbn [binary_collapse map]. rewrite !n_correct_cons.
    specialize (IH ps). unfold binary_collapse in IH.
    destruct (t =? p)%Z eqn:E.
    + apply Z.eqb_eq in E. subst p.
      destruct (t =? b_enc)%Z; cbn; lia.
    + destruct (_ =? _)%Z; lia.
  - unfold binary_collapse. apply length_map.
  - intros i y Hi. unfold binary_collapse.
    rewrite map_is_fmap, list_lookup_fmap, Hi. cbn.
    destruct (y =? b_enc)%Z eqn:E.
    + apply Z.eqb_eq in E. tauto.
    + apply Z.eqb_neq in E. split; [discriminate | contradiction].
Qed.

Lemma binary_collapse_keeps_correct_witness :
  binary_collapse 0 [0; 3; 4]%Z !! 0 = Some 0%Z.
Proof.
  destruct (binary_collapse_keeps_correct 0 [0; 3; 4]%Z [0; 4; 4]%Z) as (_ & _ & H).
  apply (H 0 0%Z); reflexivity.
Defined.

(* --------------------------------------------------------------------- *)
(** ** Batch size and loaders                                              *)
(* --------------------------------------------------------------------- *)

(** X6. For non-negative sizes the batch size is at least 1, also when a
    dataset is empty or the configured size is 0. With a configured size and
    datasets of at least one sample it does not exceed any of them, the
    training loader (which drops the last incomplete batch) and the validation
    loader both have at least one batch, and fewer than one batch of training
    samples is left out of an epoch. With an empty validation set the batch
    size is 1 and the validation loader has no batch, so that the average
    [v_loss / len(val_loader)] has a zero divisor. *)
Theorem effective_batch_size_positive :
  forall batch_size len_train len_val : Z,
    (0 <= batch_size)%Z -> (0 <= len_train)%Z -> (0 <= len_val)%Z ->
    let bs := effective_batch_size batch_size len_train len_val in
    (1 <= bs)%Z /\
    ((1 <= batch_size)%Z -> (1 <= len_train)%Z -> (1 <= len_val)%Z ->
     (bs <= batch_size)%Z /\ (bs <= len_train)%Z /\ (bs <= len_val)%Z /\
     (1 <= loader_len len_train bs true)%Z /\
     (1 <= loader_len len_val bs false)%Z /\
     (len_train - bs < bs * loader_len len_train bs true <= len_train)%Z) /\
    (len_val = 0%Z -> bs = 1%Z /\ loader_len len_val bs false = 0%Z).
Proof.
  intros batch_size len_train len_val Hb Ht Hv. cbn zeta.
  assert (len_val = 0%Z ->
          effective_batch_size batch_size len_train len_val = 1%Z /\
          loader_len len_val (effective_batch_size batch_size len_train len_val) false
          = 0%Z) as Hempty.
  { intros ->.
    assert (effective_batch_size batch_size len_train 0 = 1%Z) as ->.
    { unfold effective_batch_size, py_or.
      replace (Z.min (Z.min batch_size len_train) 0) with 0%Z by lia. reflexivity. }
    split; reflexivity. }
  refine ((fun H => conj (proj1 H) (conj (proj2 H) Hempty)) _). clear Hempty.
  unfold effective_batch_size, py_or.
  set (m := Z.min (Z.min batch_size len_train) len_val).
  assert (0 <= m)%Z as Hm by (unfold m; lia).
  destruct (m =? 0)%Z eqn:E.
  - apply Z.eqb_eq in E. split; [lia|]. intros Hb1 Ht1 Hv1. unfold m in E. lia.
  - apply Z.eqb_neq in E. split; [lia|]. intros Hb1 Ht1 Hv1.
    assert (m <= batch_size /\ m <= len_train /\ m <= len_val)%Z as (H1 & H2 & H3)
      by (unfold m; lia).
    unfold loader_len. repeat split; try assumption.
    + apply Z.div_le_lower_bound; lia.
    + apply Z.div_le_lower_bound; lia.
    + pose proof (Z.mul_div_le len_train m ltac:(lia)).
      pose proof (Z.mul_succ_div_gt len_train m ltac:(lia)). lia.
    + apply Z.mul_div_le. lia.
Qed.

Lemma effective_batch_size_positive_witness :
  (1 <= effective_batch_size 256 10 0)%Z /\
  (effective_batch_size 256 1000 300 <= 256)%Z.
Proof.
  split.
  - destruct (effective_batch_size_positive 256 10 0) as (H & _);
      [lia | lia | lia | exact H].
  - destruct (effective_batch_size_positive 256 1000 300) as (_ & H & _);
      [lia | lia | lia |].
    destruct H as (H & _); [lia | lia | lia | exact H].
Defined.

(* --------------------------------------------------------------------- *)
(** ** The focal loss, continued                                           *)
(* --------------------------------------------------------------------- *)

Lemma sum_list_exp_pos (l : list R) : (0 <= sum_list (map exp l))%R.
Proof.
  unfold sum_list. induction l as [|x l IH]; cbn; [Lra.lra|].
  pose proof (exp_pos x). Lra.lra.
Qed.

Lemma exp_nth_le_sum (l : list R) (t : nat) :
  t < length l -> (exp (nth t l 0) <= sum_list (map exp l))%R.
Proof.
  revert t. induction l as [|x l IH]; intros t Ht; cbn in Ht; [lia|].
  destruct t as [|t]; cbn [nth].
  - pose proof (sum_list_exp_pos l) as Hs. unfold sum_list in *. cbn. Lra.lra.
  - specialize (IH t ltac:(lia)). pose proof (exp_pos x).
    unfold sum_list in *. cbn. Lra.lra.
Qed.

(** The cross entropy of a sample is never negative. *)
Lemma cross_entropy_sample_nonneg (logits : list R) (target : Z) (ce : R) :
  cross_entropy_sample logits target = Some ce -> (0 <= ce)%R.
Proof.
  unfold cross_entropy_sample. destruct (target =? -100)%Z.
  - intros [= <-]. Lra.lra.
  - destruct ((0 <=? target)%Z && (target <? Z.of_nat (length logits))%Z) eqn:E;
      [|discriminate].
    apply andb_true_iff in E as [E1 E2].
    apply Z.leb_le in E1. apply Z.ltb_lt in E2. intros [= <-].
    assert (Z.to_nat target < length logits) as Hlt by lia.
    pose proof (exp_nth_le_sum logits (Z.to_nat target) Hlt) as Hle.
    pose proof (exp_pos (nth (Z.to_nat target) logits 0%R)) as Hpos.
    assert (nth (Z.to_nat target) logits 0
            <= ln (sum_list (map exp logits)))%R; [|Lra.lra].
    rewrite <- (ln_exp (nth (Z.to_nat target) logits 0%R)) at 1.
    destruct (Rle_lt_or_eq_dec _ _ Hle) as [Hlt'|Heq].
    + left. apply ln_increasing; assumption.
    + right. rewrite Heq. reflexivity.
Qed.

Lemma cross_entropy_rows_nonneg (inputs : list (list R)) (targets : list Z)
    (ce : list R) :
  cross_entropy_rows inputs targets = Some ce -> Forall (fun c => (0 <= c)%R) ce.
Proof.
  revert targets ce. induction inputs as [|row inputs IH]; intros targets ce.
  - destruct targets; [intros [= <-]; constructor | discriminate].
  - destruct targets as [|t targets]; [discriminate|]. cbn [cross_entropy_rows].
    destruct (cross_entropy_sample row t) as [c|] eqn:Ec; [|discriminate].
    destruct (cross_entropy_rows inputs targets) as [ces|] eqn:E; [|discriminate].
    intros [= <-]. constructor.
    + eapply cross_entropy_sample_nonneg, Ec.
    + eapply IH, E.
Qed.

(** The modulating factor lies between 0 and 1. *)
Lemma torch_pow_unit (base gamma : R) :
  (0 <= base < 1)%R -> (0 <= gamma)%R -> (0 <= torch_pow base gamma <= 1)%R.
Proof.
  intros [Hb0 Hb1] Hg. unfold torch_pow.
  destruct (Req_dec_T gamma 0) as [_|Hg0]; [Lra.lra|].
  destruct (Req_dec_T base 0) as [_|Hb]; [Lra.lra|].
  unfold Rpower. split; [left; apply exp_pos|].
  assert (ln base < 0)%R as Hln.
  { rewrite <- ln_1. apply ln_increasing; Lra.lra. }
  left. rewrite <- exp_0. apply exp_increasing. Lra.nra.
Qed.

Lemma focal_term_bounds (alpha gamma ce : R) :
  (0 <= alpha)%R -> (0 <= gamma)%R -> (0 <= ce)%R ->
  (0 <= focal_term alpha gamma ce <= alpha * ce)%R.
Proof.
  intros Ha Hg Hc. unfold focal_term.
  assert (0 <= 1 - exp (- ce) < 1)%R as Hbase.
  { pose proof (exp_pos (- ce)). split; [|Lra.lra].
    assert (exp (- ce) <= 1)%R; [|Lra.lra].
    rewrite <- exp_0. destruct (Req_dec_T ce 0) as [->|Hne].
    - rewrite Ropp_0. Lra.lra.
    - left. apply exp_increasing. Lra.lra. }
  pose proof (torch_pow_unit _ gamma Hbase Hg) as [Hp0 Hp1].
  set (p := torch_pow (1 - exp (- ce)) gamma) in *.
  assert (0 <= alpha * ce)%R as Hac by (apply Rmult_le_pos; assumption).
  replace (alpha * p * ce)%R with (p * (alpha * ce))%R by Lra.lra.
  split; [apply Rmult_le_pos; assumption|].
  rewrite <- (Rmult_1_l (alpha * ce)) at 2.
  apply Rmult_le_compat_r; assumption.
Qed.

Lemma sum_list_focal_bounds (alpha gamma : R) (ce : list R) :
  (0 <= alpha)%R -> (0 <= gamma)%R -> Forall (fun c => (0 <= c)%R) ce ->
  (0 <= sum_list (map (focal_term alpha gamma) ce) <= alpha * sum_list ce)%R.
Proof.
  intros Ha Hg Hall. unfold sum_list.
  induction Hall as [|c ce Hc Hall IH]; cbn [map fold_right]; [Lra.lra|].
  pose proof (focal_term_bounds alpha gamma c Ha Hg Hc). Lra.lra.
Qed.

(** X7. For [alpha >= 0] and [gamma >= 0], on any non-empty batch on which
    the loss is defined, every per-sample cross entropy is non-negative and
    the focal loss is never negative. (Stated over the reals, like the loss
    of C5. Only signs are stated; a bound of the loss by [alpha] times the
    mean cross entropy is not, since it holds up to rounding only.) *)
Theorem focal_loss_is_never_negative :
  forall (alpha gamma : R) (inputs : list (list R)) (targets : list Z) (loss : R),
    (0 <= alpha)%R -> (0 <= gamma)%R ->
    targets <> [] ->
    BalancedFocalLoss_forward alpha gamma inputs targets = Some loss ->
    exists ce,
      cross_entropy_none inputs targets = Some ce /\
      length ce = length targets /\
      Forall (fun c => (0 <= c)%R) ce /\
      (0 <= loss)%R.
Proof.
  intros alpha gamma inputs targets loss Ha Hg Hne Hloss.
  rewrite focal_forward_per_sample in Hloss.
  destruct (cross_entropy_none inputs targets) as [ce|] eqn:E; [|discriminate].
  cbn [option_map] in Hloss. injection Hloss as <-.
  pose proof (cross_entropy_rows_nonneg inputs targets ce E) as Hnn.
  pose proof (cross_entropy_rows_length inputs targets ce E) as Hlen.
  exists ce. split; [reflexivity|]. split; [exact Hlen|]. split; [exact Hnn|].
  pose proof (sum_list_focal_bounds alpha gamma ce Ha Hg Hnn) as [H0 _].
  unfold mean. rewrite length_map.
  assert (0 < INR (length ce))%R as Hn.
  { apply lt_0_INR. rewrite Hlen. destruct targets; [contradiction|cbn; lia]. }
  assert (0 < / INR (length ce))%R as Hinv by (apply Rinv_0_lt_compat, Hn).
  unfold Rdiv. Lra.nra.
Qed.

Lemma focal_loss_is_never_negative_witness :
  exists loss ce,
    BalancedFocalLoss_forward (3 / 4) (3 / 2) [[0%R; 0%R]] [1%Z] = Some loss /\
    cross_entropy_none [[0%R; 0%R]] [1%Z] = Some ce /\
    (0 <= loss)%R.
Proof.
  destruct (BalancedFocalLoss_forward (3 / 4) (3 / 2) [[0%R; 0%R]] [1%Z])
    as [loss|] eqn:E; [|discriminate E].
  destruct (focal_loss_is_never_negative
              (3 / 4) (3 / 2) [[0%R; 0%R]] [1%Z] loss) as (ce & Hce & _ & _ & Hb).
  - Lra.lra.
  - Lra.lra.
  - discriminate.
  - exact E.
  - exists loss, ce. split; [reflexivity|]. split; [exact Hce | exact Hb].
Defined.

(* --------------------------------------------------------------------- *)
(** ** The enhanced images                                                 *)
(* --------------------------------------------------------------------- *)

Lemma elem_zip3 {A : Type} (f : A -> A -> A) (a b : list (list (list A))) (c h w : nat)
    (x y : A) :
  elem a c h w = Some x ->
  elem b c h w = Some y ->
  elem (zip_with (zip_with (zip_with f)) a b) c h w = Some (f x y).
Proof.
  unfold elem. intros Ha Hb. rewrite lookup_zip_with.
  destruct (a !! c) as [ach|]; [|discriminate].
  destruct (b !! c) as [bch|]; [|discriminate]. cbn.
  rewrite lookup_zip_with.
  destruct (ach !! h) as [arow|]; [|discriminate].
  destruct (bch !! h) as [brow|]; [|discriminate]. cbn.
  rewrite lookup_zip_with, Ha, Hb. reflexivity.
Qed.

Section EnhancementProofs.

Context {F : Type} (ops : float_ops F) (rnd : Q -> Q) (Hlaws : ieee_laws ops rnd).

Lemma Qmult_le_l_weak (a x y : Q) : (0 <= a)%Q -> (x <= y)%Q -> (a * x <= a * y)%Q.
Proof.
  intros Ha Hxy. rewrite !(Qmult_comm a). apply Qmult_le_compat_r; assumption.
Qed.

(** A finite entry times a mask entry between 0 and 1, clamped. *)
Lemma clamped_product (v mk : F) (qv qm : Q) :
  f_value ops v = FloatFinite qv ->
  f_value ops mk = FloatFinite qm ->
  (0 <= qm <= 1)%Q ->
  exists q, f_value ops (f_clamp01 ops (f_mul ops v mk)) = FloatFinite q /\
            (0 <= q <= 1)%Q /\
            ((qv <= 0)%Q -> (q == 0)%Q) /\
            ((0 <= qv)%Q -> (q <= qv)%Q).
Proof.
  intros Hv Hm [Hm0 Hm1].
  destruct (value_zero ops rnd Hlaws) as (q0 & H0 & Hq0).
  destruct (mul_rounds ops rnd Hlaws v mk v qv qm qv Hv Hm Hv) as (qp & Hp & Hpr).
  { rewrite Qabs_Qmult, (Qabs_pos qm) by exact Hm0.
    pose proof (Qabs_nonneg qv) as Hn.
    apply Qle_trans with (Qabs qv * 1)%Q; [|Lqa.lra].
    apply Qmult_le_l_weak; assumption. }
  pose proof (clamp01_value ops rnd Hlaws (f_mul ops v mk)) as Hc.
  rewrite Hp in Hc. destruct Hc as (q & Hq & Hlow & Hhigh & Hmid).
  exists q. split; [exact Hq|].
  assert ((0 <= qv)%Q -> (0 <= qp <= qv)%Q) as Hpos.
  { intros Hqv.
    destruct (rnd_between ops rnd Hlaws (f_zero ops) v q0 qv (qv * qm) H0 Hv) as [A B].
    { split; [rewrite Hq0; apply Qmult_le_0_compat; assumption|].
      apply Qle_trans with (qv * 1)%Q; [|Lqa.lra].
      apply Qmult_le_l_weak; assumption. }
    rewrite Hpr. split; Lqa.lra. }
  assert ((qv <= 0)%Q -> (qp <= 0)%Q) as Hneg.
  { intros Hqv.
    destruct (rnd_between ops rnd Hlaws v (f_zero ops) qv q0 (qv * qm) Hv H0) as [A B].
    { assert (0 <= (- qv) * qm)%Q as P1 by (apply Qmult_le_0_compat; Lqa.lra).
      assert ((- qv) * qm <= (- qv) * 1)%Q as P2 by (apply Qmult_le_l_weak; Lqa.lra).
      split; Lqa.lra. }
    rewrite Hpr. Lqa.lra. }
  destruct (Qlt_le_dec qp 0) as [L0|G0].
  - assert (q == 0)%Q as Hz by (apply Hlow; Lqa.lra).
    split; [Lqa.lra|]. split; [intros _; exact Hz|].
    intros Hqv. Lqa.lra.
  - destruct (Qlt_le_dec 1 qp) as [L1|G1].
    + assert (q == 1)%Q as Ho by (apply Hhigh; Lqa.lra).
      split; [Lqa.lra|]. split.
      * intros Hqv. specialize (Hneg Hqv). Lqa.lra.
      * intros Hqv. specialize (Hpos Hqv). Lqa.lra.
    + assert (q == qp)%Q as Hs by (apply Hmid; split; assumption).
      split; [Lqa.lra|]. split.
      * intros Hqv. specialize (Hneg Hqv). Lqa.lra.
      * intros Hqv. specialize (Hpos Hqv). Lqa.lra.
Qed.

End EnhancementProofs.

(** X8. In float32, for an entry of the original image that is a finite
    number: the entry of the enhanced image is the clamped product of the
    entry and the mask entry; it is NaN when the mask entry is NaN, and
    otherwise a number of the closed interval from 0 to 1 that is exactly 0
    when the original entry is zero or negative, and not larger than the
    original entry when that is positive. *)
Theorem enhancement_zeroes_nonpositive_and_never_increases :
  forall (F : Type) (ops : float_ops F) (rnd : Q -> Q)
         (m : LearnableAdaptiveMasking F)
         (frozen_unet : list (list (list F)) -> list (list (list F)))
         (imgs : list (list (list (list F)))) (n : nat)
         (original : list (list (list F))) (c h w : nat) (v f : F) (qv : Q),
    ieee_laws ops rnd ->
    imgs !! n = Some original ->
    length (bias m) = length (frozen_unet original) ->
    length (channel_scale m) = length (frozen_unet original) ->
    length (global_fc_weight m) = length (frozen_unet original) ->
    length (global_fc_bias m) = length (frozen_unet original) ->
    elem original c h w = Some v ->
    elem (frozen_unet original) c h w = Some f ->
    f_value ops v = FloatFinite qv ->
    exists enhanced mk,
      feature_masking_enhancement_values ops m frozen_unet imgs !! n = Some enhanced /\
      elem (masking_forward ops m (frozen_unet original)) c h w = Some mk /\
      elem enhanced c h w = Some (f_clamp01 ops (f_mul ops v mk)) /\
      match f_value ops mk with
      | FloatNaN => f_value ops (f_clamp01 ops (f_mul ops v mk)) = FloatNaN
      | _ =>
          exists q, f_value ops (f_clamp01 ops (f_mul ops v mk)) = FloatFinite q /\
                    (0 <= q <= 1)%Q /\
                    ((qv <= 0)%Q -> (q == 0)%Q) /\
                    ((0 <= qv)%Q -> (q <= qv)%Q)
      end.
Proof.
  intros F ops rnd m unet imgs n original c h w v f qv
         Hlaws Hn Hbias Hscale Hw Hb Hv Hf Hqv.
  pose proof (elem_channel_in_range _ _ _ _ _ Hf) as Hc.
  destruct (lookup_lt_is_Some_2 (channel_scale m) c) as [scale Hs]; [lia|].
  destruct (lookup_lt_is_Some_2 (bias m) c) as [b Hbc]; [lia|].
  destruct (lookup_lt_is_Some_2
              (f_linear ops (global_fc_weight m) (global_fc_bias m)
                        (map (f_avg_pool ops) (unet original))) c) as [z Hz].
  { rewrite (linear_length ops rnd Hlaws) by lia. lia. }
  pose proof (masking_forward_elem ops m (unet original) c h w scale b z Hs Hbc Hz)
    as Hmask.
  rewrite Hf in Hmask. cbn [fmap option_fmap option_map] in Hmask.
  set (pre := f_div ops (f_add ops (f_mul ops f scale) b) (temperature m)) in Hmask.
  set (mk := f_mul ops (f_sigmoid ops pre) (f_sigmoid ops z)) in Hmask.
  exists (enhance_sample ops m unet original), mk.
  split; [|split; [exact Hmask|split]].
  - unfold feature_masking_enhancement_values.
    rewrite map_is_fmap, list_lookup_fmap, Hn. reflexivity.
  - unfold enhance_sample. rewrite elem_map3.
    rewrite (elem_zip3 (f_mul ops) original _ c h w v mk Hv Hmask). reflexivity.
  - destruct (mask_entry_nan_or_unit ops rnd Hlaws pre z) as [Hnan|(qm & Hqm & Hunit)];
      fold mk in Hnan || fold mk in Hqm.
    + rewrite Hnan.
      pose proof (clamp01_value ops rnd Hlaws (f_mul ops v mk)) as Hcl.
      rewrite (mul_nan ops rnd Hlaws v mk (or_intror Hnan)) in Hcl. exact Hcl.
    + rewrite Hqm. exact (clamped_product ops rnd Hlaws v mk qv qm Hqv Hqm Hunit).
Qed.

Lemma enhancement_zeroes_nonpositive_and_never_increases_witness :
  exists enhanced out q,
    feature_masking_enhancement_values exact_ops (masking_init exact_ops 1 [[1%Q]] [0%Q])
      (fun x => x) [[[[(-2)%Q]]]] !! 0 = Some enhanced /\
    elem enhanced 0 0 0 = Some out /\
    f_value exact_ops out = FloatFinite q /\
    (q == 0)%Q.
Proof.
  destruct (enhancement_zeroes_nonpositive_and_never_increases
              Q exact_ops (fun q => q)
              (masking_init exact_ops 1 [[1%Q]] [0%Q]) (fun x => x)
              [[[[(-2)%Q]]]] 0 [[[(-2)%Q]]] 0 0 0 (-2)%Q (-2)%Q (-2)%Q exact_ops_laws)
    as (enhanced & mk & Hen & _ & Hout & Hval); try reflexivity.
  cbn [f_value exact_ops] in Hval.
  destruct Hval as (q & Hq & _ & Hzero & _).
  exists enhanced, (f_clamp01 exact_ops (f_mul exact_ops (-2)%Q mk)), q.
  split; [exact Hen|]. split; [exact Hout|]. split; [exact Hq|].
  apply Hzero. Lqa.lra.
Defined.

(** In float32 a positive entry can become exactly 0 (the mask entry is 0.0
    when the U-Net outputs -100.0) and can stay as it is (the mask entry is
    1.0 when the U-Net outputs 20.0). *)
Example enhancement_of_one_half :
  feature_masking_enhancement_values binary32_ops example_gate32
    (fun _ => [[[b32_of_Z (-100)]]]) [[[[SpecFloat.S754_finite false 8388608 (-24)]]]]
  = [[[[b32_of_Z 0]]]] /\
  feature_masking_enhancement_values binary32_ops example_gate32
    (fun _ => [[[b32_of_Z 20]]]) [[[[SpecFloat.S754_finite false 8388608 (-24)]]]]
  = [[[[SpecFloat.S754_finite false 8388608 (-24)]]]] /\
  b32_value (SpecFloat.S754_finite false 8388608 (-24)) = FloatFinite (1 # 2).
Proof. repeat split; vm_compute; reflexivity. Qed.

(* --------------------------------------------------------------------- *)
(** ** The dataset                                                         *)
(* --------------------------------------------------------------------- *)

Section DatasetProofs.

Context {A : Type} (zero : A).

Lemma perm_concat_map (f g : list A -> list A) (l : list (list A)) :
  (forall x, Permutation (f x) (g x)) ->
  Permutation (concat (map f l)) (concat (map g l)).
Proof.
  intros Hfg. induction l as [|x l IH]; cbn; [constructor|].
  apply Permutation_app; [apply Hfg | exact IH].
Qed.

Lemma perm_concat_rev (l : list (list A)) : Permutation (concat (rev l)) (concat l).
Proof.
  induction l as [|x l IH]; cbn; [constructor|].
  rewrite concat_app. cbn. rewrite app_nil_r.
  etransitivity; [apply Permutation_app_comm|].
  apply Permutation_app; [reflexivity | exact IH].
Qed.

Lemma perm_concat_channels (f g : list (list A) -> list A) (img : list (list (list A))) :
  (forall ch, Permutation (f ch) (g ch)) ->
  Permutation (concat (map f img)) (concat (map g img)).
Proof.
  intros Hfg. induction img as [|ch img IH]; cbn; [constructor|].
  apply Permutation_app; [apply Hfg | exact IH].
Qed.

(** A horizontal flip rearranges the values of the image. *)
Lemma hflip_permutes (img : list (list (list A))) :
  Permutation (flatten_image (hflip img)) (flatten_image img).
Proof.
  unfold flatten_image, hflip. rewrite map_map.
  apply perm_concat_channels. intros ch.
  rewrite <- (map_id ch) at 2. apply perm_concat_map. intros row.
  symmetry. apply Permutation_rev.
Qed.

Lemma vflip_permutes (img : list (list (list A))) :
  Permutation (flatten_image (vflip img)) (flatten_image img).
Proof.
  unfold flatten_image, vflip. rewrite map_map.
  apply perm_concat_channels. intros ch. apply perm_concat_rev.
Qed.

Lemma hflip_shape (img : list (list (list A))) (c h w : nat) :
  has_shape img c h w -> has_shape (hflip img) c h w.
Proof.
  intros [Hc Hall]. split; [unfold hflip; rewrite length_map; exact Hc|].
  unfold hflip. apply Forall_map. eapply Forall_impl; [exact Hall|].
  intros ch [Hh Hw]. cbn. split; [rewrite length_map; exact Hh|].
  apply Forall_map. eapply Forall_impl; [exact Hw|].
  intros row Hrow. cbn. rewrite length_rev. exact Hrow.
Qed.

Lemma vflip_shape (img : list (list (list A))) (c h w : nat) :
  has_shape img c h w -> has_shape (vflip img) c h w.
Proof.
  intros [Hc Hall]. split; [unfold vflip; rewrite length_map; exact Hc|].
  unfold vflip. apply Forall_map. eapply Forall_impl; [exact Hall|].
  intros ch [Hh Hw]. cbn. split; [rewrite length_rev; exact Hh|].
  apply Forall_rev. exact Hw.
Qed.

(** The two optional flips of an augmented fetch. *)
Lemma flipped_variant_props {P1 Q1 P2 Q2 : Prop} (d1 : {P1} + {Q1}) (d2 : {P2} + {Q2})
    (stored : list (list (list A))) :
  let img1 := if d1 then hflip stored else stored in
  let img2 := if d2 then vflip img1 else img1 in
  In img2 [stored; hflip stored; vflip stored; vflip (hflip stored)] /\
  Permutation (flatten_image img2) (flatten_image stored) /\
  (forall c h w, has_shape stored c h w -> has_shape img2 c h w) /\
  (~ P1 -> ~ P2 -> img2 = stored).
Proof.
  cbn zeta. destruct d1 as [p1|q1]; destruct d2 as [p2|q2].
  - split; [cbn; tauto|]. split; [|split].
    + etransitivity; [apply vflip_permutes | apply hflip_permutes].
    + intros c h w Hs. apply vflip_shape, hflip_shape, Hs.
    + intros H1. contradiction.
  - split; [cbn; tauto|]. split; [|split].
    + apply hflip_permutes.
    + intros c h w Hs. apply hflip_shape, Hs.
    + intros H1. contradiction.
  - split; [cbn; tauto|]. split; [|split].
    + apply vflip_permutes.
    + intros c h w Hs. apply vflip_shape, Hs.
    + intros _ H2. contradiction.
  - split; [cbn; tauto|]. split; [|split].
    + reflexivity.
    + intros c h w Hs. exact Hs.
    + intros _ _. reflexivity.
Qed.

(** X9. A fetch returns the stored label and either the stored image or
    one of its flipped variants: the result always has the shape and the
    values of the stored image. Without augmentation, or for a label outside
    the minority classes, it is the stored image itself and no random number
    is drawn; otherwise exactly two numbers are drawn. With draws in [0, 1),
    a flip probability of 0 or less never flips. *)
Theorem getitem_returns_flipped_variant :
  forall (draws : nat -> Q) (ds : MultichannelFlowDataset) (idx : Z) (pos pos' : nat)
         (img : list (list (list A))) (lbl : Z),
    dataset_getitem draws ds idx pos = Some (img, lbl, pos') ->
    py_index (ds_labels ds) idx = Some lbl /\
    exists stored,
      py_index (ds_images ds) idx = Some stored /\
      In img [stored; hflip stored; vflip stored; vflip (hflip stored)] /\
      Permutation (flatten_image img) (flatten_image stored) /\
      (forall c h w, has_shape stored c h w -> has_shape img c h w) /\
      (ds_augment ds = false \/ ~ lbl ∈ ds_minority_classes ds ->
       img = stored /\ pos' = pos) /\
      (ds_augment ds = true -> lbl ∈ ds_minority_classes ds -> pos' = S (S pos)) /\
      ((forall k, (0 <= draws k)%Q) -> (ds_flip_prob ds <= 0)%Q -> img = stored).
Proof.
  intros draws ds idx pos pos' img lbl. unfold dataset_getitem.
  destruct (py_index (ds_images ds) idx) as [stored|]; [|discriminate].
  destruct (py_index (ds_labels ds) idx) as [l|]; [|discriminate].
  assert (forall img0 : list (list (list A)),
             In img0 [img0; hflip img0; vflip img0; vflip (hflip img0)]) as Hself
    by (intros img0; left; reflexivity).
  destruct (ds_augment ds && bool_decide (l ∈ ds_minority_classes ds)) eqn:Hcond.
  - apply andb_true_iff in Hcond as [Haug Hmin]. apply bool_decide_eq_true in Hmin.
    intros [= <- <- <-]. split; [reflexivity|]. exists stored.
    destruct (flipped_variant_props (Qlt_le_dec (draws pos) (ds_flip_prob ds))
                (Qlt_le_dec (draws (S pos)) (ds_flip_prob ds)) stored)
      as (Hin & Hperm & Hshape & Hnone).
    split; [reflexivity|]. split; [exact Hin|]. split; [exact Hperm|].
    split; [exact Hshape|]. split; [|split].
    + intros [Hf | Hn]; [congruence | contradiction].
    + intros _ _. reflexivity.
    + intros Hd Hp. apply Hnone; intros Hlt.
      * pose proof (Hd pos). Lqa.lra.
      * pose proof (Hd (S pos)). Lqa.lra.
  - intros [= <- <- <-]. split; [reflexivity|]. exists stored.
    split; [reflexivity|]. split; [apply Hself|]. split; [reflexivity|].
    split; [auto|]. split; [auto|]. split; [|auto].
    intros Haug Hmin. rewrite Haug in Hcond. cbn in Hcond.
    apply bool_decide_eq_false in Hcond. contradiction.
Qed.

End DatasetProofs.

Lemma getitem_returns_flipped_variant_witness :
  py_index [1; 0]%Z 0 = Some 1%Z.
Proof.
  exact (proj1 (getitem_returns_flipped_variant
                  (fun _ => (1 # 10)%Q)
                  {| ds_labels := [1; 0]%Z; ds_augment := true;
                     ds_flip_prob := (3 # 10)%Q; ds_minority_classes := [1%Z];
                     ds_images := [[[[1%Z; 2%Z]]]; [[[3%Z; 4%Z]]]] |}
                  0 0 2 [[[2%Z; 1%Z]]] 1%Z eq_refl)).
Defined.


Section DatasetConstruction.

Context {A F : Type} (zero : F) (float32 : F -> A).

(** The image of one feature row, written out. *)
Lemma image_of_row (v : list F) (c fpc s : nat) :
  s * s = fpc -> 0 < c ->
  exists img,
    features_to_multichannel_image zero v c fpc s = Some img /\
    has_shape img c s s /\
    flatten_image img = firstn (c * fpc) v ++ repeat zero (c * fpc - length v).
Proof.
  intros Hsq Hc.
  exists (map (fun k => rows_of s s (channel_features zero v k fpc)) (seq 0 c)).
  split; [|split].
  - unfold features_to_multichannel_image.
    rewrite (channels_loop_total zero v (seq 0 c) fpc s Hsq).
    destruct c as [|c]; [lia|]. reflexivity.
  - split; [rewrite length_map, length_seq; reflexivity|].
    apply List.Forall_forall. intros ch Hin. apply in_map_iff in Hin as (k & <- & _).
    apply rows_of_shape. rewrite channel_features_length. symmetry. exact Hsq.
  - unfold flatten_image. rewrite map_map, <- channels_concat. f_equal.
    apply map_ext. intros k. apply rows_of_concat.
    rewrite channel_features_length. symmetry. exact Hsq.
Qed.

(** The conversion to float32 acts entry by entry: it keeps the shape, and
    the flattening of the tensor is the converted flattening of the array. *)
Lemma tensor_float32_flatten (img : list (list (list F))) :
  flatten_image (tensor_float32 float32 img) = map float32 (flatten_image img).
Proof.
  unfold flatten_image, tensor_float32.
  induction img as [|ch img IH]; cbn [map concat]; [reflexivity|].
  rewrite map_app, IH. f_equal.
  clear IH. induction ch as [|row ch IH]; cbn [map concat]; [reflexivity|].
  rewrite map_app, IH. reflexivity.
Qed.

Lemma tensor_float32_shape (img : list (list (list F))) (c h w : nat) :
  has_shape img c h w -> has_shape (tensor_float32 float32 img) c h w.
Proof.
  unfold has_shape, tensor_float32. intros [Hc Hall]. split.
  - rewrite length_map. exact Hc.
  - rewrite List.Forall_forall in *. intros ch' Hin.
    apply in_map_iff in Hin as (ch & <- & Hin). destruct (Hall ch Hin) as [Hh Hrows].
    split; [rewrite length_map; exact Hh|].
    rewrite List.Forall_forall in *. intros row' Hin'.
    apply in_map_iff in Hin' as (row & <- & Hin'). rewrite length_map.
    apply Hrows, Hin'.
Qed.

(** The conversion loop succeeds on every row and keeps the order. *)
Lemma images_of_rows_total (rows : list (list F)) (c fpc s : nat) :
  s * s = fpc -> 0 < c ->
  exists imgs,
    images_of_rows zero float32 rows c fpc s = Some imgs /\
    length imgs = length rows /\
    forall i row, rows !! i = Some row ->
      exists img, imgs !! i = Some img /\
                  has_shape img c s s /\
                  flatten_image img
                  = map float32
                      (firstn (c * fpc) row ++ repeat zero (c * fpc - length row)).
Proof.
  intros Hsq Hc. induction rows as [|r rows IH].
  - exists []. split; [reflexivity|]. split; [reflexivity|].
    intros i row Hi. destruct i; discriminate.
  - destruct IH as (imgs & Himgs & Hlen & Hall).
    destruct (image_of_row r c fpc s Hsq Hc) as (img & Himg & Hshape & Hflat).
    exists (tensor_float32 float32 img :: imgs). cbn [images_of_rows].
    rewrite Himg, Himgs.
    split; [reflexivity|]. split; [cbn; f_equal; exact Hlen|].
    intros i row Hi. destruct i as [|i].
    + cbn in Hi. injection Hi as <-. exists (tensor_float32 float32 img).
      split; [reflexivity|]. split; [apply tensor_float32_shape, Hshape|].
      rewrite tensor_float32_flatten, Hflat. reflexivity.
    + cbn in Hi. apply Hall, Hi.
Qed.

Lemma py_index_nat {B : Type} (l : list B) (i : nat) :
  py_index l (Z.of_nat i) = l !! i.
Proof.
  unfold py_index. assert ((0 <=? Z.of_nat i)%Z = true) as -> by (apply Z.leb_le; lia).
  rewrite Nat2Z.id. reflexivity.
Qed.

Lemma py_index_negative {B : Type} (l : list B) (idx : Z) :
  (- Z.of_nat (length l) <= idx < 0)%Z ->
  py_index l idx = py_index l (idx + Z.of_nat (length l)).
Proof.
  intros [Hlo Hhi]. unfold py_index.
  assert ((0 <=? idx)%Z = false) as -> by (apply Z.leb_gt; lia).
  assert ((- Z.of_nat (length l) <=? idx)%Z = true) as -> by (apply Z.leb_le; lia).
  assert ((0 <=? idx + Z.of_nat (length l))%Z = true) as -> by (apply Z.leb_le; lia).
  f_equal. lia.
Qed.

Lemma py_index_out_of_range {B : Type} (l : list B) (idx : Z) :
  (Z.of_nat (length l) <= idx \/ idx < - Z.of_nat (length l))%Z ->
  py_index l idx = None.
Proof.
  intros Hout. unfold py_index.
  destruct (0 <=? idx)%Z eqn:E0.
  - apply Z.leb_le in E0. apply lookup_ge_None. lia.
  - apply Z.leb_gt in E0.
    assert ((- Z.of_nat (length l) <=? idx)%Z = false) as -> by (apply Z.leb_gt; lia).
    reflexivity.
Qed.

End DatasetConstruction.

(** X10. With [image_size * image_size = features_per_channel], at least
    one channel and as many labels as feature rows, the dataset is built
    without error, has the length of the label array, and stores for every
    row a tensor of shape (channels, image_size, image_size) whose
    channel-major flattening is the row, zero-padded or cut to
    [channels * features_per_channel] values, with every value converted to
    float32 (so a value that is not a float32 is stored rounded). Without
    augmentation, fetching index [i] returns exactly that tensor and the
    label [i]; an index [i - len] returns the same sample, and an index
    outside [-len, len) raises. *)
Theorem dataset_stores_padded_rows :
  forall (A F : Type) (zero : F) (float32 : F -> A) (draws : nat -> Q)
         (feature_array : list (list F)) (label_array : list Z)
         (num_channels features_per_channel image_size : nat)
         (minority_classes : option (list Z)) (flip_prob : Q),
    image_size * image_size = features_per_channel ->
    0 < num_channels ->
    length feature_array = length label_array ->
    exists ds,
      dataset_init zero float32 feature_array label_array num_channels
                   features_per_channel image_size false minority_classes flip_prob
      = Some ds /\
      dataset_len ds = length label_array /\
      (forall i row lbl pos,
          feature_array !! i = Some row ->
          label_array !! i = Some lbl ->
          exists img,
            dataset_getitem draws ds (Z.of_nat i) pos = Some (img, lbl, pos) /\
            dataset_getitem draws ds (Z.of_nat i - Z.of_nat (dataset_len ds)) pos
            = Some (img, lbl, pos) /\
            has_shape img num_channels image_size image_size /\
            flatten_image img
            = map float32
                (firstn (num_channels * features_per_channel) row
                   ++ repeat zero (num_channels * features_per_channel - length row))) /\
      (forall idx pos,
          (Z.of_nat (dataset_len ds) <= idx \/ idx < - Z.of_nat (dataset_len ds))%Z ->
          dataset_getitem draws ds idx pos = None).
Proof.
  intros A F zero float32 draws rows labels c fpc s minority p Hsq Hc Hlen.
  destruct (images_of_rows_total zero float32 rows c fpc s Hsq Hc)
    as (imgs & Himgs & Hn & Hall).
  unfold dataset_init. rewrite Himgs. eexists. split; [reflexivity|].
  unfold dataset_len. cbn [ds_labels]. split; [reflexivity|]. split.
  - intros i row lbl pos Hrow Hlbl.
    destruct (Hall i row Hrow) as (img & Himg & Hshape & Hflat).
    exists img.
    assert (dataset_getitem draws
              {| ds_labels := labels; ds_augment := false; ds_flip_prob := p;
                 ds_minority_classes := default [] minority; ds_images := imgs |}
              (Z.of_nat i) pos = Some (img, lbl, pos)) as Hget.
    { unfold dataset_getitem. cbn [ds_images ds_labels ds_augment andb].
      rewrite !py_index_nat, Himg, Hlbl. reflexivity. }
    split; [exact Hget|]. split; [|split; [exact Hshape | exact Hflat]].
    rewrite <- Hget. unfold dataset_getitem. cbn [ds_images ds_labels ds_augment andb].
    apply lookup_lt_Some in Hlbl.
    rewrite (py_index_negative imgs), (py_index_negative labels) by lia.
    replace (Z.of_nat i - Z.of_nat (length labels) + Z.of_nat (length imgs))%Z
      with (Z.of_nat i) by lia.
    replace (Z.of_nat i - Z.of_nat (length labels) + Z.of_nat (length labels))%Z
      with (Z.of_nat i) by lia.
    reflexivity.
  - intros idx pos Hout. unfold dataset_getitem. cbn [ds_images].
    rewrite py_index_out_of_range; [reflexivity | lia].
Qed.

Lemma dataset_stores_padded_rows_witness :
  exists ds img,
    dataset_init 0%Z example_float32 [[1; 16777217; 3; 4; 5; 6]%Z; [7]%Z] [1; 0]%Z
                 2 4 2 false None (3 # 10)
    = Some ds /\
    dataset_getitem (fun _ => (1 # 2)%Q) ds 0 0 = Some (img, 1%Z, 0) /\
    flatten_image img = [1; 16777216; 3; 4; 5; 6; 0; 0]%Z.
Proof.
  destruct (dataset_stores_padded_rows
              Z Z 0%Z example_float32 (fun _ => (1 # 2)%Q)
              [[1; 16777217; 3; 4; 5; 6]%Z; [7]%Z] [1; 0]%Z
              2 4 2 None (3 # 10)%Q) as (ds & Hds & _ & Hget & _);
    [reflexivity | lia | reflexivity |].
  destruct (Hget 0 [1; 16777217; 3; 4; 5; 6]%Z 1%Z 0) as (img & H1 & _ & _ & Hflat);
    [reflexivity | reflexivity |].
  exists ds, img. split; [exact Hds|]. split; [exact H1 | exact Hflat].
Defined.

(* --------------------------------------------------------------------- *)
(** ** Label encoding of the consolidated classes                          *)
(* --------------------------------------------------------------------- *)

Lemma string_compare_lt_trans (a b c : string) :
  String.compare a b = Lt -> String.compare b c = Lt -> String.compare a c = Lt.
Proof.
  revert b c. induction a as [|x a IH]; intros [|y b] [|z c]; cbn; try congruence.
  unfold Ascii.compare.
  destruct (N.compare_spec (N_of_ascii x) (N_of_ascii y)) as [Hxy | Hxy | Hxy];
    destruct (N.compare_spec (N_of_ascii y) (N_of_ascii z)) as [Hyz | Hyz | Hyz];
    try congruence.
  - rewrite Hxy, Hyz, N.compare_refl. apply IH.
  - intros _ _. rewrite Hxy. rewrite (proj2 (N.compare_lt_iff _ _) Hyz). reflexivity.
  - intros _ _. rewrite <- Hyz. rewrite (proj2 (N.compare_lt_iff _ _) Hxy). reflexivity.
  - intros _ _.
    rewrite (proj2 (N.compare_lt_iff _ _) (N.lt_trans _ _ _ Hxy Hyz)). reflexivity.
Qed.

Lemma string_leb_trans (a b c : string) :
  String.leb a b = true -> String.leb b c = true -> String.leb a c = true.
Proof.
  unfold String.leb.
  destruct (String.compare a b) eqn:Hab; [| |discriminate]; intros _;
    destruct (String.compare b c) eqn:Hbc; [| |discriminate| | |discriminate]; intros _.
  - apply String.compare_eq_iff in Hab, Hbc. subst.
    change (String.leb c c = true). destruct (String.leb_total c c) as [H | H]; exact H.
  - apply String.compare_eq_iff in Hab. subst. rewrite Hbc. reflexivity.
  - apply String.compare_eq_iff in Hbc. subst. rewrite Hab. reflexivity.
  - rewrite (string_compare_lt_trans a b c Hab Hbc). reflexivity.
Qed.

Lemma insert_sorted_In (x z : string) (l : list string) :
  In z (insert_sorted x l) <-> z = x \/ In z l.
Proof.
  induction l as [|y l IH]; cbn.
  - intuition congruence.
  - destruct (String.leb x y); cbn; [intuition congruence|].
    rewrite IH. intuition congruence.
Qed.

Lemma insert_sorted_NoDup (x : string) (l : list string) :
  ~ In x l -> List.NoDup l -> List.NoDup (insert_sorted x l).
Proof.
  induction l as [|y l IH]; cbn; intros Hx Hnd.
  - constructor; [intros []|constructor].
  - destruct (String.leb x y).
    + constructor; [exact Hx | exact Hnd].
    + inversion Hnd as [|? ? Hy Hl]; subst. constructor.
      * rewrite insert_sorted_In. intros [-> | Hin]; [apply Hx; now left | exact (Hy Hin)].
      * apply IH; [intros Hin; apply Hx; now right | exact Hl].
Qed.

Lemma insert_sorted_sorted (x : string) (l : list string) :
  StronglySorted string_le l -> StronglySorted string_le (insert_sorted x l).
Proof.
  induction l as [|y l IH]; cbn; intros Hs.
  - constructor; [constructor | constructor].
  - inversion Hs as [|? ? Hl Hy]; subst.
    destruct (String.leb x y) eqn:Hxy.
    + constructor; [exact Hs|]. constructor; [exact Hxy|].
      eapply List.Forall_impl; [|exact Hy]. intros z Hz. exact (string_leb_trans x y z Hxy Hz).
    + constructor; [apply IH, Hl|].
      apply List.Forall_forall. intros z Hz. apply insert_sorted_In in Hz as [-> | Hz].
      * destruct (String.leb_total x y) as [H | H]; [congruence | exact H].
      * rewrite List.Forall_forall in Hy. apply Hy, Hz.
Qed.

Lemma np_unique_In (y : list string) (x : string) :
  In x (np_unique y) <-> In x y.
Proof.
  unfold np_unique. rewrite <- (nodup_In string_dec y x).
  induction (nodup string_dec y) as [|z l IH]; cbn; [tauto|].
  rewrite insert_sorted_In, IH. intuition congruence.
Qed.

Lemma np_unique_NoDup (y : list string) : List.NoDup (np_unique y).
Proof.
  unfold np_unique. pose proof (NoDup_nodup string_dec y) as Hnd.
  induction (nodup string_dec y) as [|z l IH]; cbn; [constructor|].
  inversion Hnd as [|? ? Hz Hl]; subst.
  apply insert_sorted_NoDup; [|apply IH, Hl].
  intros Hin. apply Hz. clear -Hin.
  induction l as [|w l IH]; cbn in *; [exact Hin|].
  apply insert_sorted_In in Hin as [-> | Hin]; [now left | right; apply IH, Hin].
Qed.

Lemma np_unique_sorted (y : list string) : StronglySorted string_le (np_unique y).
Proof.
  unfold np_unique. induction (nodup string_dec y) as [|z l IH]; cbn.
  - constructor.
  - apply insert_sorted_sorted, IH.
Qed.

(** Two duplicate-free sorted lists with the same members are equal. *)
Lemma sorted_members_unique (l1 l2 : list string) :
  StronglySorted string_le l1 -> StronglySorted string_le l2 ->
  List.NoDup l1 -> List.NoDup l2 ->
  (forall x, In x l1 <-> In x l2) ->
  l1 = l2.
Proof.
  revert l2. induction l1 as [|a l1 IH]; intros [|b l2] Hs1 Hs2 Hn1 Hn2 Hmem.
  - reflexivity.
  - exfalso. apply (proj2 (Hmem b)). now left.
  - exfalso. apply (proj1 (Hmem a)). now left.
  - inversion Hs1 as [|? ? Hs1' Ha]; inversion Hs2 as [|? ? Hs2' Hb]; subst.
    inversion Hn1 as [|? ? Ha' Hn1']; inversion Hn2 as [|? ? Hb' Hn2']; subst.
    rewrite List.Forall_forall in Ha, Hb.
    assert (a = b) as ->.
    { destruct (proj1 (Hmem a) (or_introl eq_refl)) as [Hba | Hin2]; [congruence|].
      destruct (proj2 (Hmem b) (or_introl eq_refl)) as [Hab | Hin1]; [congruence|].
      apply String.leb_antisym; [apply Ha, Hin1 | apply Hb, Hin2]. }
    f_equal. apply IH; try assumption.
    intros x. split; intros Hin.
    + destruct (proj1 (Hmem x) (or_intror Hin)) as [<- | H]; [contradiction | exact H].
    + destruct (proj2 (Hmem x) (or_intror Hin)) as [<- | H]; [contradiction | exact H].
Qed.

Lemma filter_sorted (f : string -> bool) (l : list string) :
  StronglySorted string_le l -> StronglySorted string_le (List.filter f l).
Proof.
  induction 1 as [|a l Hl IH Ha]; cbn; [constructor|].
  destruct (f a); [|exact IH]. constructor; [exact IH|].
  rewrite List.Forall_forall in *. intros x Hx. apply List.filter_In in Hx as [Hx _].
  apply Ha, Hx.
Qed.

Lemma index_of_lookup (x : string) (l : list string) (i : nat) :
  index_of x l = Some i -> l !! i = Some x.
Proof.
  revert i. induction l as [|y l IH]; intros i; cbn; [discriminate|].
  destruct (String.eqb y x) eqn:E.
  - intros [= <-]. apply String.eqb_eq in E. subst. reflexivity.
  - destruct (index_of x l) as [j|]; [|discriminate].
    intros [= <-]. cbn. apply IH. reflexivity.
Qed.

Lemma index_of_In (x : string) (l : list string) :
  In x l -> exists i, index_of x l = Some i.
Proof.
  induction l as [|y l IH]; cbn; [intros []|].
  intros Hin. destruct (String.eqb y x) eqn:E; [eauto|].
  destruct Hin as [-> | Hin]; [rewrite String.eqb_refl in E; discriminate|].
  destruct (IH Hin) as (i & ->). eauto.
Qed.

Lemma index_of_not_In (x : string) (l : list string) :
  ~ In x l -> index_of x l = None.
Proof.
  induction l as [|y l IH]; cbn; [reflexivity|].
  intros Hnin. destruct (String.eqb y x) eqn:E.
  - apply String.eqb_eq in E. exfalso. apply Hnin. now left.
  - rewrite IH; [reflexivity|]. intros Hin. apply Hnin. now right.
Qed.

Lemma index_of_middle (x : string) (pre l : list string) :
  ~ In x pre -> index_of x (pre ++ x :: l) = Some (length pre).
Proof.
  induction pre as [|y pre IH]; cbn; intros Hnin.
  - rewrite String.eqb_refl. reflexivity.
  - destruct (String.eqb y x) eqn:E.
    + apply String.eqb_eq in E. exfalso. apply Hnin. now left.
    + rewrite IH; [reflexivity|]. intros Hin. apply Hnin. now right.
Qed.

(** Encoding labels that all occur among the classes succeeds, and decoding
    the codes gives the labels back. *)
Lemma le_transform_round_trip (classes y : list string) :
  (forall x, In x y -> In x classes) ->
  le_transform classes y = Some (map (fun x => default 0 (index_of x classes)) y) /\
  le_inverse_transform classes (map (fun x => default 0 (index_of x classes)) y) = Some y.
Proof.
  induction y as [|x y IH]; intros Hsub; cbn; [split; reflexivity|].
  destruct (index_of_In x classes (Hsub x (or_introl eq_refl))) as (i & Hi).
  destruct IH as [IH1 IH2]; [intros z Hz; apply Hsub; now right|].
  rewrite Hi. cbn. rewrite IH1, (index_of_lookup _ _ _ Hi), IH2. split; reflexivity.
Qed.

(** The classes themselves are encoded as [0, 1, ..., n - 1]. *)
Lemma le_transform_classes (pre l : list string) :
  List.NoDup (pre ++ l) ->
  le_transform (pre ++ l) l = Some (seq (length pre) (length l)).
Proof.
  revert pre. induction l as [|x l IH]; intros pre Hnd; cbn [le_transform]; [reflexivity|].
  rewrite index_of_middle.
  2:{ intros Hin. apply NoDup_remove_2 in Hnd. apply Hnd, in_or_app. now left. }
  specialize (IH (pre ++ [x])). rewrite <- app_assoc in IH. cbn [app] in IH.
  rewrite IH by exact Hnd. rewrite length_app. cbn.
  replace (length pre + 1) with (S (length pre)) by lia. reflexivity.
Qed.

(** X11. [LabelEncoder] numbers the consolidated classes alphabetically:
    the classes are those of 'Benign', 'Botnet', 'Brute Force', 'DDoS',
    'DoS', 'Infiltration' that occur, in this order (not the order
    Benign, DoS, DDoS, Brute Force, Botnet, Infiltration of the comment in
    [consolidate_labels]); there are at most six; encoding the labels never
    fails and decoding the codes gives the labels back; the classes encode
    to 0, 1, ..., n - 1; and when 'Benign' occurs its code, the [b_enc] of
    [evaluate_model], is 0. *)
Theorem consolidated_classes_encoded_alphabetically :
  forall raw : list string,
    let y := consolidate_labels raw in
    let classes := fst (le_fit_transform y) in
    let y_encoded := snd (le_fit_transform y) in
    classes = List.filter (fun c => if in_dec string_dec c y then true else false)
                ["Benign"; "Botnet"; "Brute Force"; "DDoS"; "DoS"; "Infiltration"]%string /\
    length classes <= 6 /\
    le_transform classes y = Some y_encoded /\
    le_inverse_transform classes y_encoded = Some y /\
    le_transform classes classes = Some (seq 0 (length classes)) /\
    (In "Benign"%string classes -> le_transform classes ["Benign"%string] = Some [0]).
Proof.
  intros raw y classes y_encoded.
  set (alphabetical := ["Benign"; "Botnet"; "Brute Force"; "DDoS"; "DoS"; "Infiltration"]%string).
  assert (Hsix : forall x, In x y -> In x alphabetical).
  { intros x Hx. unfold y, consolidate_labels in Hx. rewrite consolidate_loop_acc in Hx.
    cbn [app] in Hx. apply in_map_iff in Hx as (label & <- & _).
    pose proof (consolidate_label_cases label) as Hin. unfold six_classes in Hin.
    unfold alphabetical. cbn in *. tauto. }
  assert (Hsorted : StronglySorted string_le alphabetical).
  { unfold alphabetical.
    repeat (constructor; [|repeat (constructor; [reflexivity|]); constructor]).
    constructor. }
  assert (Hnd : List.NoDup alphabetical).
  { unfold alphabetical.
    repeat (constructor; [cbn; intros H; repeat (destruct H as [H | H]; [discriminate|]);
                          exact H|]).
    constructor. }
  assert (Hclasses : classes
                     = List.filter (fun c => if in_dec string_dec c y then true else false)
                                   alphabetical).
  { unfold classes, le_fit_transform. cbn [fst].
    apply sorted_members_unique.
    - apply np_unique_sorted.
    - apply filter_sorted, Hsorted.
    - apply np_unique_NoDup.
    - apply List.NoDup_filter, Hnd.
    - intros x. rewrite np_unique_In, List.filter_In.
      destruct (in_dec string_dec x y) as [Hin | Hnin]; [|intuition congruence].
      split; [intros _; split; [apply Hsix, Hin | reflexivity] | intros _; exact Hin]. }
  assert (Hmem : forall x, In x y -> In x classes).
  { intros x Hx. unfold classes, le_fit_transform. cbn [fst]. apply np_unique_In, Hx. }
  destruct (le_transform_round_trip classes y Hmem) as [Henc Hdec].
  split; [exact Hclasses|]. split.
  { rewrite Hclasses. etransitivity; [apply List.filter_length_le|]. reflexivity. }
  split; [exact Henc|]. split; [exact Hdec|]. split.
  { apply (le_transform_classes [] classes). cbn [app].
    unfold classes, le_fit_transform. cbn [fst]. apply np_unique_NoDup. }
  intros Hbenign. rewrite Hclasses in Hbenign |- *.
  apply List.filter_In in Hbenign as [_ Hb]. unfold alphabetical. cbn [List.filter].
  destruct (in_dec string_dec "Benign"%string y) as [Hin | Hnin]; [reflexivity | discriminate].
Qed.

Lemma consolidated_classes_encoded_alphabetically_witness :
  le_transform
    (fst (le_fit_transform (consolidate_labels ["DoS attacks-Hulk"; "Benign"; "Bot"]%string)))
    ["Benign"%string]
  = Some [0].
Proof.
  destruct (consolidated_classes_encoded_alphabetically
              ["DoS attacks-Hulk"; "Benign"; "Bot"]%string) as (_ & _ & _ & _ & _ & Hbenign).
  apply Hbenign. vm_compute. left. reflexivity.
Defined.

(* --------------------------------------------------------------------- *)
(** ** Minority classes                                                    *)
(* --------------------------------------------------------------------- *)

Lemma distinct_In (seen y : list Z) (c : Z) :
  In c (distinct seen y) <-> In c y /\ ~ In c seen.
Proof.
  revert seen. induction y as [|x y IH]; intros seen; cbn [distinct].
  - cbn. tauto.
  - case_bool_decide as Hx; rewrite list_elem_of_In in Hx.
    + rewrite IH. cbn. split.
      * intros [Hin Hs]. split; [now right | exact Hs].
      * intros [[-> | Hin] Hs]; [contradiction | split; assumption].
    + cbn [In]. rewrite IH. cbn [In]. destruct (Z.eq_dec x c) as [-> | Hne].
      * split; [intros _; split; [now left | exact Hx] | intros _; now left].
      * split.
        -- intros [Heq | [Hin Hs]]; [contradiction|]. split; [now right | tauto].
        -- intros [[Heq | Hin] Hs]; [contradiction|]. right. split; [exact Hin | tauto].
Qed.

Lemma distinct_NoDup (seen y : list Z) : List.NoDup (distinct seen y).
Proof.
  revert seen. induction y as [|x y IH]; intros seen; cbn [distinct]; [constructor|].
  case_bool_decide as Hx; [apply IH|].
  constructor; [|apply IH].
  rewrite distinct_In. intros [_ Hs]. apply Hs. now left.
Qed.

Lemma filter_on_computed_column {K V : Type} (f : K -> V) (p : V -> bool) (l : list K) :
  map fst (List.filter (fun cs => p (snd cs)) (map (fun c => (c, f c)) l))
  = List.filter (fun c => p (f c)) l.
Proof.
  induction l as [|c l IH]; cbn; [reflexivity|].
  destruct (p (f c)); cbn; rewrite IH; reflexivity.
Qed.

(** The samples whose label is one of the listed classes, counted class by
    class. *)
Lemma eligible_cons (c : Z) (M y : list Z) :
  ~ In c M ->
  length (List.filter (fun lbl => bool_decide (lbl ∈ c :: M)) y)
  = class_count c y + length (List.filter (fun lbl => bool_decide (lbl ∈ M)) y).
Proof.
  intros Hc. unfold class_count. induction y as [|x y IH]; cbn [List.filter]; [reflexivity|].
  destruct (Z.eqb_spec x c) as [-> | Hne].
  - rewrite (bool_decide_eq_true_2 (c ∈ c :: M)) by (apply list_elem_of_In; now left).
    rewrite (bool_decide_eq_false_2 (c ∈ M)) by (rewrite list_elem_of_In; exact Hc).
    cbn [length]. rewrite IH. reflexivity.
  - destruct (bool_decide_reflect (x ∈ M)) as [Hin | Hnin].
    + rewrite (bool_decide_eq_true_2 (x ∈ c :: M))
        by (apply list_elem_of_In; right; apply list_elem_of_In, Hin).
      cbn [length]. rewrite IH. lia.
    + rewrite (bool_decide_eq_false_2 (x ∈ c :: M)).
      * exact IH.
      * rewrite list_elem_of_In. intros [Heq | Hin]; [congruence|].
        apply Hnin, list_elem_of_In, Hin.
Qed.

Lemma share_below_threshold (k n : nat) (t : Q) :
  0 < n ->
  ((Z.of_nat k # 1) / (Z.of_nat n # 1) < t)%Q ->
  ((Z.of_nat k # 1) < t * (Z.of_nat n # 1))%Q.
Proof.
  intros Hn Hlt.
  assert (0 < (Z.of_nat n # 1))%Q as Hpos by (unfold Qlt; cbn; lia).
  assert (~ (Z.of_nat n # 1) == 0)%Q as Hnz by (intros H; rewrite H in Hpos; Lqa.lra).
  rewrite <- (Qmult_div_r (Z.of_nat k # 1) (Z.of_nat n # 1) Hnz) at 1.
  rewrite (Qmult_comm (Z.of_nat n # 1)).
  apply Qmult_lt_compat_r; assumption.
Qed.

Lemma eligible_bound (M y : list Z) (t : Q) :
  List.NoDup M ->
  (forall c, In c M -> ((Z.of_nat (class_count c y) # 1) <= t * (Z.of_nat (length y) # 1))%Q) ->
  ((Z.of_nat (length (List.filter (fun lbl => bool_decide (lbl ∈ M)) y)) # 1)
   <= t * (Z.of_nat (length M) # 1) * (Z.of_nat (length y) # 1))%Q.
Proof.
  intros Hnd. induction Hnd as [|c M Hc Hnd IH]; intros Hall.
  - replace (List.filter (fun lbl => bool_decide (lbl ∈ [])) y) with (@nil Z).
    + cbn [length]. change (Z.of_nat 0 # 1)%Q with 0%Q.
      assert (t * 0 * (Z.of_nat (length y) # 1) == 0)%Q as -> by ring.
      apply Qle_refl.
    + clear Hall. induction y as [|x y IHy]; [reflexivity|]. cbn [List.filter].
      rewrite (bool_decide_eq_false_2 (x ∈ [])) by apply not_elem_of_nil. exact IHy.
  - rewrite eligible_cons by exact Hc.
    specialize (IH (fun c' Hc' => Hall c' (or_intror Hc'))).
    specialize (Hall c (or_introl eq_refl)).
    cbn [length]. rewrite Nat2Z.inj_add, Nat2Z.inj_succ.
    change (Z.succ (Z.of_nat (length M))) with (Z.of_nat (length M) + 1)%Z.
    repeat match goal with
           | |- context [(?z # 1)%Q] => change (z # 1)%Q with (inject_Z z)
           | H : context [(?z # 1)%Q] |- _ => change (z # 1)%Q with (inject_Z z) in H
           end.
    rewrite !inject_Z_plus.
    change (inject_Z 1) with 1%Q.
    set (a := inject_Z (Z.of_nat (class_count c y))) in *.
    set (b := inject_Z (Z.of_nat (length (List.filter (fun lbl => bool_decide (lbl ∈ M)) y)))) in *.
    set (m := inject_Z (Z.of_nat (length M))) in *.
    set (n := inject_Z (Z.of_nat (length y))) in *.
    assert (t * (m + 1) * n == t * m * n + t * n)%Q as -> by ring.
    Lqa.lra.
Qed.

(** X12. The classes passed to the training dataset as minority classes are
    exactly the classes of [y_train] whose share of the samples is below the
    threshold, each listed once; and the samples that can be flipped (those
    with a minority label) number at most threshold × number of minority
    classes × number of samples. *)
Theorem minority_classes_are_the_rare_ones :
  forall (y_train : list Z) (threshold : Q),
    let minority := minority_classes_of y_train threshold in
    List.NoDup minority /\
    (forall c,
        In c minority <->
        In c y_train /\
        ((Z.of_nat (class_count c y_train) # 1) / (Z.of_nat (length y_train) # 1)
         < threshold)%Q) /\
    ((Z.of_nat (length (List.filter (fun lbl => bool_decide (lbl ∈ minority)) y_train)) # 1)
     <= threshold * (Z.of_nat (length minority) # 1) * (Z.of_nat (length y_train) # 1))%Q.
Proof.
  intros y t minority.
  set (share := fun c => ((Z.of_nat (class_count c y) # 1) / (Z.of_nat (length y) # 1))%Q).
  assert (Hfilter : minority
                    = List.filter (fun c => if Qlt_le_dec (share c) t then true else false)
                                  (distinct [] y)).
  { unfold minority, minority_classes_of, value_counts_normalized.
    apply (filter_on_computed_column share
             (fun s => if Qlt_le_dec s t then true else false)). }
  assert (Hmem : forall c, In c minority <-> In c y /\ (share c < t)%Q).
  { intros c. rewrite Hfilter, List.filter_In, distinct_In. cbn [In].
    destruct (Qlt_le_dec (share c) t) as [Hlt | Hge].
    - tauto.
    - split; [intros [_ H]; discriminate|].
      intros [_ Hlt]. exfalso. exact (Qlt_not_le _ _ Hlt Hge). }
  assert (Hnd : List.NoDup minority).
  { rewrite Hfilter. apply List.NoDup_filter, distinct_NoDup. }
  split; [exact Hnd|]. split; [exact Hmem|].
  apply eligible_bound; [exact Hnd|].
  intros c Hc. apply Hmem in Hc as [Hin Hlt].
  apply Qlt_le_weak, share_below_threshold; [|exact Hlt].
  destruct y; [destruct Hin | cbn; lia].
Qed.

Lemma minority_classes_are_the_rare_ones_witness :
  In 1%Z (minority_classes_of [0; 0; 0; 0; 1; 2; 0; 0; 0; 0]%Z (15 # 100)).
Proof.
  destruct (minority_classes_are_the_rare_ones [0; 0; 0; 0; 1; 2; 0; 0; 0; 0]%Z (15 # 100)%Q)
    as (_ & Hmem & _).
  apply Hmem. split.
  - cbn. tauto.
  - vm_compute. reflexivity.
Defined.

(* --------------------------------------------------------------------- *)
(** ** Feature processing                                                  *)
(* --------------------------------------------------------------------- *)

Lemma select_numeric_select_dtypes (df : dataframe) :
  select_numeric (select_dtypes_number df) = select_numeric df.
Proof.
  unfold select_dtypes_number.
  induction df as [|[n [v|v]] df IH]; cbn [List.filter select_numeric snd];
    [reflexivity | f_equal; exact IH | exact IH].
Qed.

Lemma select_dtypes_NoDup (df : dataframe) :
  NoDup (map fst df) -> NoDup (map fst (select_dtypes_number df)).
Proof.
  unfold select_dtypes_number.
  induction df as [|[n c] df IH]; cbn [List.filter map fst snd]; intros Hnd;
    [constructor|].
  apply NoDup_cons in Hnd as [Hn Hnd].
  destruct c; [|apply IH, Hnd].
  cbn [map fst]. apply NoDup_cons. split; [|apply IH, Hnd].
  intros Hin. apply Hn. apply list_elem_of_In, in_map_iff in Hin as (c' & Hf & Hin).
  apply List.filter_In in Hin as [Hin _].
  apply list_elem_of_In, in_map_iff. exists c'. split; assumption.
Qed.

(** With distinct labels the first numeric column is never dropped. *)
Lemma first_numeric_column_kept (pearson : list Q -> list Q -> option Q) (df : dataframe)
    (threshold : Q) (c : string * list Q) (rest : list (string * list Q)) :
  NoDup (map fst df) ->
  select_numeric df = c :: rest ->
  exists rest',
    select_numeric (correlation_filtering pearson df threshold) = c :: rest' /\
    length rest' <= length rest.
Proof.
  intros Hnd Hsel.
  pose proof (select_numeric_NoDup df Hnd) as Hnd'.
  rewrite correlation_filtering_is_drop, select_numeric_df_drop.
  remember (if (length (select_numeric df) <? 2)%nat then []
            else drop_cols pearson (select_numeric df) threshold) as labels eqn:Hlabels.
  rewrite Hsel. cbn [List.filter]. eexists.
  assert (bool_decide (fst c ∈ labels) = false) as ->.
  { apply bool_decide_eq_false. subst labels.
    destruct (length (select_numeric df) <? 2)%nat; [intros H; inversion H|].
    rewrite drop_cols_spec. intros (i & j & ci & cj & _ & Hj & Hlt & Hname & _).
    assert (j = 0); [|lia].
    apply (NoDup_lookup (map fst (select_numeric df)) j 0 (fst c) Hnd');
      rewrite map_is_fmap, list_lookup_fmap.
    - rewrite Hj. cbn. rewrite Hname. reflexivity.
    - rewrite Hsel. reflexivity. }
  cbn [negb]. split; [reflexivity|]. apply List.filter_length_le.
Qed.

Section ProcessFeaturesProofs.

Variable pearson : list Q -> list Q -> option Q.
Variable scaler_fit_transform : list (string * list Q) -> ndarray.
Variable pca_fit_transform : nat -> Z -> ndarray -> option ndarray.

(** X13. Every error path of [process_features_multichannel] returns four
    values while its caller unpacks five: when the function reports an
    error, [main_training_and_evaluation] raises [ValueError] at the
    unpacking, and its guard [if X_feats is None: return] is never taken.
    The run ends with a quiet [return] only when the loader found no data.
    The function itself returns either the four [None] or five values whose
    first is the feature array. *)
Theorem process_features_error_breaks_unpacking :
  forall (total_features : Z) (correlation_thresh : Q) (random_seed : Z),
    main_prologue pearson scaler_fit_transform pca_fit_transform
                  None total_features correlation_thresh random_seed = MainReturns /\
    forall (X_raw : dataframe) (y_raw : list string),
      let result := process_features_multichannel
                      pearson scaler_fit_transform pca_fit_transform
                      X_raw y_raw total_features correlation_thresh random_seed in
      let outcome := main_prologue pearson scaler_fit_transform pca_fit_transform
                       (Some (X_raw, y_raw)) total_features correlation_thresh
                       random_seed in
      outcome <> MainReturns /\
      ((result = Returned [PyNone; PyNone; PyNone; PyNone] /\
        outcome = MainRaises "ValueError") \/
       (exists X_final k,
           result = Returned [PyArray X_final;
                              PyCodes (snd (le_fit_transform y_raw));
                              PyLabelEncoder (fst (le_fit_transform y_raw));
                              PyScaler; PyPCA k] /\
           outcome = MainProceeds (PyArray X_final)
                                  (PyCodes (snd (le_fit_transform y_raw)))
                                  (PyLabelEncoder (fst (le_fit_transform y_raw)))
                                  PyScaler (PyPCA k))).
Proof.
  intros total thresh seed. split; [reflexivity|].
  intros X_raw y_raw result outcome.
  assert (Hcases : result = Returned [PyNone; PyNone; PyNone; PyNone] \/
                   exists X_final k,
                     result = Returned [PyArray X_final;
                                        PyCodes (snd (le_fit_transform y_raw));
                                        PyLabelEncoder (fst (le_fit_transform y_raw));
                                        PyScaler; PyPCA k]).
  { unfold result, process_features_multichannel.
    destruct (le_fit_transform y_raw) as [classes y_encoded]. cbn [fst snd].
    destruct (df_empty _); [left; reflexivity|].
    destruct (_ <=? 0)%Z; [left; reflexivity|].
    destruct (pca_fit_transform _ _ _) as [X_pca|]; [|left; reflexivity].
    destruct (_ <? total)%Z.
    - unfold np_hstack, np_zeros2, shape0. cbn [nd_rows].
      rewrite repeat_length, Nat.eqb_refl. right. eauto.
    - right. eauto. }
  assert (Houtcome : outcome
                     = match result with
                       | Raised e => MainRaises e
                       | Returned [X_feats; y_enc; lbl_enc; scl; pca] =>
                           match X_feats with
                           | PyNone => MainReturns
                           | _ => MainProceeds X_feats y_enc lbl_enc scl pca
                           end
                       | Returned _ => MainRaises "ValueError"
                       end) by reflexivity.
  destruct Hcases as [Hr | (X_final & k & Hr)]; rewrite Hr in Houtcome.
  - split; [rewrite Houtcome; discriminate|]. left. split; [exact Hr | exact Houtcome].
  - split; [rewrite Houtcome; discriminate|]. right. exists X_final, k.
    split; [exact Hr | exact Houtcome].
Qed.

(** X14. On a frame with distinct column labels, at least one numeric
    column and one row, and with [total_features >= 1], the function fails
    only if PCA raises: the number of components
    [min(total_features, columns kept by the filter, rows)] is at least 1.
    When PCA succeeds (returning one row per sample with that many
    components, as the scaler returns one row per sample and one column per
    kept column), the feature array has one row per sample and exactly
    [total_features] columns, and every row is the PCA row followed by
    zeros: the slicing branch never removes a component. *)
Theorem process_features_pads_pca_rows :
  forall (X_df : dataframe) (y_series : list string) (total_features : Z)
         (correlation_thresh : Q) (random_seed : Z),
    NoDup (map fst X_df) ->
    (1 <= total_features)%Z ->
    df_empty (select_numeric X_df) = false ->
    let X_corr_filtered :=
      select_numeric (correlation_filtering pearson (select_dtypes_number X_df)
                                            correlation_thresh) in
    let X_scaled_array := scaler_fit_transform X_corr_filtered in
    let k := Z.to_nat (Z.min (Z.min total_features (Z.of_nat (length X_corr_filtered)))
                             (Z.of_nat (df_rows (select_numeric X_df)))) in
    nd_cols X_scaled_array = length X_corr_filtered ->
    shape0 X_scaled_array = df_rows X_corr_filtered ->
    (forall X_pca_array,
        pca_fit_transform k random_seed X_scaled_array = Some X_pca_array ->
        shape0 X_pca_array = shape0 X_scaled_array /\
        nd_cols X_pca_array = k /\
        List.Forall (fun row => length row = k) (nd_rows X_pca_array)) ->
    1 <= k /\ (Z.of_nat k <= total_features)%Z /\
    match pca_fit_transform k random_seed X_scaled_array with
    | None =>
        process_features_multichannel pearson scaler_fit_transform pca_fit_transform
          X_df y_series total_features correlation_thresh random_seed
        = Returned [PyNone; PyNone; PyNone; PyNone]
    | Some X_pca_array =>
        exists X_final,
          process_features_multichannel pearson scaler_fit_transform pca_fit_transform
            X_df y_series total_features correlation_thresh random_seed
          = Returned [PyArray X_final;
                      PyCodes (snd (le_fit_transform y_series));
                      PyLabelEncoder (fst (le_fit_transform y_series));
                      PyScaler; PyPCA k] /\
          shape0 X_final = df_rows (select_numeric X_df) /\
          nd_cols X_final = Z.to_nat total_features /\
          nd_rows X_final
          = map (fun row => row ++ repeat 0%Q (Z.to_nat total_features - k))
                (nd_rows X_pca_array)
    end.
Proof.
  intros X_df y total thresh seed Hnd Htotal Hnonempty X_corr Xs k Hcols Hrows Hpca.
  destruct (select_numeric X_df) as [|c rest] eqn:Hsel; [discriminate|].
  assert (Hsel' : select_numeric (select_dtypes_number X_df) = c :: rest)
    by (rewrite select_numeric_select_dtypes; exact Hsel).
  destruct (first_numeric_column_kept pearson (select_dtypes_number X_df) thresh c rest
              (select_dtypes_NoDup X_df Hnd) Hsel') as (rest' & Hkept & _).
  fold X_corr in Hkept.
  assert (Hr : df_rows X_corr = df_rows (c :: rest)) by (rewrite Hkept; reflexivity).
  assert (Hrpos : 0 < df_rows (c :: rest)).
  { cbn [df_empty] in Hnonempty. apply Nat.eqb_neq in Hnonempty. lia. }
  assert (Hlen : 1 <= length X_corr) by (rewrite Hkept; cbn; lia).
  assert (Hk1 : 1 <= k) by (unfold k; lia).
  assert (Hk2 : (Z.of_nat k <= total)%Z) by (unfold k; lia).
  split; [exact Hk1|]. split; [exact Hk2|].
  unfold process_features_multichannel.
  destruct (le_fit_transform y) as [classes y_encoded]. cbn [fst snd].
  rewrite Hsel'. rewrite Hnonempty. fold X_corr. fold Xs.
  rewrite Hcols, Hrows, Hr. fold k.
  assert ((Z.min (Z.min total (Z.of_nat (length X_corr)))
                 (Z.of_nat (df_rows (c :: rest))) <=? 0)%Z = false) as ->
    by (apply Z.leb_gt; lia).
  destruct (pca_fit_transform k seed Xs) as [X_pca|] eqn:Hfit; [|reflexivity].
  destruct (Hpca X_pca eq_refl) as (Hp0 & Hp1 & Hprows).
  rewrite Hp1.
  destruct (Z.of_nat k <? total)%Z eqn:Hlt.
  - unfold np_hstack, np_zeros2, shape0. cbn [nd_rows nd_cols].
    rewrite repeat_length, Nat.eqb_refl. eexists. split; [reflexivity|].
    cbn [nd_rows nd_cols].
    replace (Z.to_nat (total - Z.of_nat k)) with (Z.to_nat total - k) by lia.
    split; [|split].
    + rewrite length_zip_with, repeat_length, Nat.min_id.
      fold (shape0 X_pca). rewrite Hp0, Hrows, Hr. reflexivity.
    + rewrite Hp1. apply Z.ltb_lt in Hlt. lia.
    + clear. induction (nd_rows X_pca) as [|row rows IH]; [reflexivity|].
      cbn [length repeat zip_with map]. f_equal. exact IH.
  - apply Z.ltb_ge in Hlt. assert (Z.to_nat total = k) as Htk by lia.
    eexists. split; [reflexivity|]. unfold slice_cols, slice_stop, shape0.
    cbn [nd_rows nd_cols].
    assert ((0 <=? total)%Z = true) as -> by (apply Z.leb_le; lia).
    rewrite Htk, Hp1, Nat.min_id, Nat.sub_diag. split; [|split; [reflexivity|]].
    + rewrite length_map. fold (shape0 X_pca). rewrite Hp0, Hrows, Hr. reflexivity.
    + apply map_ext_in. intros row Hrow. rewrite List.Forall_forall in Hprows.
      rewrite (Hprows row Hrow), Nat.min_id. cbn [repeat].
      rewrite app_nil_r. apply firstn_all2. rewrite (Hprows row Hrow). lia.
Qed.

End ProcessFeaturesProofs.

Lemma process_features_pads_pca_rows_witness :
  exists X_final,
    process_features_multichannel example_pearson example_scaler example_pca
      example_df ["Benign"; "DoS"; "Botnet"]%string 4 (999 # 1000) 123
    = Returned [PyArray X_final; PyCodes [0; 2; 1];
                PyLabelEncoder ["Benign"; "Botnet"; "DoS"]%string; PyScaler; PyPCA 2] /\
    nd_cols X_final = 4 /\
    shape0 X_final = 3.
Proof.
  pose proof (process_features_pads_pca_rows
                example_pearson example_scaler example_pca
                example_df ["Benign"; "DoS"; "Botnet"]%string 4%Z (999 # 1000)%Q 123%Z) as H.
  destruct H as (_ & _ & H).
  - unfold example_df. cbn. repeat constructor; solve_not_elem.
  - lia.
  - reflexivity.
  - reflexivity.
  - reflexivity.
  - intros r Hr. vm_compute in Hr. injection Hr as <-.
    split; [reflexivity|]. split; [reflexivity|]. repeat constructor.
  - vm_compute in H. destruct H as (X_final & Hres & H0 & H1 & _).
    exists X_final. split; [|split].
    + etransitivity; [|exact Hres]. vm_compute. reflexivity.
    + exact H1.
    + exact H0.
Defined.

(* --------------------------------------------------------------------- *)
(** ** Cleaning of the records                                             *)
(* --------------------------------------------------------------------- *)

Section CleaningProofs.

Context {V : Type} `{EqDecision V}.

Implicit Types (row : list (cell V)) (rows seen : list (list (cell V))).

Lemma finite_row_no_na row :
  finite_row row <-> existsb isna (map replace_inf row) = false.
Proof.
  unfold finite_row. induction row as [|c row IH]; cbn [map existsb].
  - split; [reflexivity | constructor].
  - rewrite orb_false_iff, <- IH. split.
    + intros Hf. inversion Hf as [|? ? [v ->] Hrow]; subst. split; [reflexivity | exact Hrow].
    + intros [Hc Hrow]. constructor; [|exact Hrow].
      destruct c as [v| | |]; [eauto | discriminate..].
Qed.

Lemma finite_row_unchanged row :
  finite_row row -> map replace_inf row = row.
Proof.
  induction 1 as [|c row [v ->] _ IH]; cbn [map replace_inf]; [reflexivity|].
  f_equal. exact IH.
Qed.

(** Replacing the infinities and dropping the missing values keeps exactly
    the finite rows. *)
Lemma dropna_replace_inf rows :
  dropna (map (map replace_inf) rows)
  = List.filter (fun row => negb (existsb isna (map replace_inf row))) rows.
Proof.
  unfold dropna. induction rows as [|row rows IH]; cbn [map List.filter]; [reflexivity|].
  destruct (existsb isna (map replace_inf row)) eqn:E; cbn [negb]; [exact IH|].
  rewrite IH, finite_row_unchanged by (apply finite_row_no_na, E). reflexivity.
Qed.

Lemma drop_duplicates_from_In seen rows row :
  In row (drop_duplicates_from seen rows) <-> In row rows /\ ~ In row seen.
Proof.
  revert seen. induction rows as [|r rows IH]; intros seen; cbn [drop_duplicates_from].
  - cbn. tauto.
  - case_bool_decide as Hr; rewrite list_elem_of_In in Hr.
    + rewrite IH. cbn [In]. split.
      * intros [Hin Hs]. split; [now right | exact Hs].
      * intros [[-> | Hin] Hs]; [contradiction | split; assumption].
    + cbn [In]. rewrite IH. cbn [In].
      destruct (decide (r = row)) as [-> | Hne].
      * split; [intros _; split; [now left | exact Hr] | intros _; now left].
      * split.
        -- intros [Heq | [Hin Hs]]; [contradiction|]. split; [now right | tauto].
        -- intros [[Heq | Hin] Hs]; [contradiction|]. right. split; [exact Hin | tauto].
Qed.

Lemma drop_duplicates_from_NoDup seen rows :
  List.NoDup (drop_duplicates_from seen rows).
Proof.
  revert seen. induction rows as [|r rows IH]; intros seen; cbn [drop_duplicates_from];
    [constructor|].
  case_bool_decide as Hr; [apply IH|].
  constructor; [|apply IH].
  rewrite drop_duplicates_from_In. intros [_ Hs]. apply Hs. now left.
Qed.

Lemma drop_duplicates_from_sublist seen rows :
  sublist (drop_duplicates_from seen rows) rows.
Proof.
  revert seen. induction rows as [|r rows IH]; intros seen; cbn [drop_duplicates_from];
    [constructor|].
  case_bool_decide; [apply sublist_cons, IH | apply sublist_skip, IH].
Qed.

(** The rows met so far matter only as a set. *)
Lemma drop_duplicates_from_ext seen seen' rows :
  (forall row, In row seen <-> In row seen') ->
  drop_duplicates_from seen rows = drop_duplicates_from seen' rows.
Proof.
  revert seen seen'. induction rows as [|r rows IH]; intros seen seen' Hext;
    cbn [drop_duplicates_from]; [reflexivity|].
  rewrite (bool_decide_ext (r ∈ seen) (r ∈ seen'))
    by (rewrite !list_elem_of_In; apply Hext).
  case_bool_decide; [apply IH, Hext|].
  f_equal. apply IH. intros row. cbn [In]. rewrite Hext. reflexivity.
Qed.

Lemma drop_duplicates_from_app seen a b :
  drop_duplicates_from seen (a ++ b)
  = drop_duplicates_from seen a ++ drop_duplicates_from (rev a ++ seen) b.
Proof.
  revert seen. induction a as [|r a IH]; intros seen; cbn [app drop_duplicates_from rev].
  - reflexivity.
  - case_bool_decide as Hr; rewrite list_elem_of_In in Hr.
    + rewrite IH. f_equal. apply drop_duplicates_from_ext. intros row.
      rewrite !in_app_iff. cbn [In]. split; [tauto|].
      intros [[Hin | [<- | []]] | Hin]; tauto.
    + cbn [app]. rewrite IH. f_equal. f_equal. rewrite <- app_assoc. reflexivity.
Qed.

(** Removing duplicates twice, the first time knowing fewer rows, is
    removing them once. *)
Lemma drop_duplicates_from_absorb seen seen' rows :
  (forall row, In row seen' -> In row seen) ->
  drop_duplicates_from seen (drop_duplicates_from seen' rows)
  = drop_duplicates_from seen rows.
Proof.
  revert seen seen'. induction rows as [|r rows IH]; intros seen seen' Hsub;
    cbn [drop_duplicates_from]; [reflexivity|].
  destruct (bool_decide_reflect (r ∈ seen')) as [Hr' | Hr'];
    rewrite list_elem_of_In in Hr'.
  - rewrite (bool_decide_eq_true_2 (r ∈ seen)) by (apply list_elem_of_In, Hsub, Hr').
    apply IH, Hsub.
  - cbn [drop_duplicates_from].
    case_bool_decide as Hr; rewrite list_elem_of_In in Hr.
    + apply IH. intros row [<- | Hin]; [exact Hr | apply Hsub, Hin].
    + f_equal. apply IH. intros row [<- | Hin]; [now left | right; apply Hsub, Hin].
Qed.

Lemma filter_drop_duplicates_from (P : list (cell V) -> bool) seen rows :
  List.filter P (drop_duplicates_from seen rows)
  = drop_duplicates_from seen (List.filter P rows).
Proof.
  revert seen. induction rows as [|r rows IH]; intros seen;
    cbn [drop_duplicates_from List.filter]; [reflexivity|].
  destruct (P r) eqn:Pr.
  - cbn [drop_duplicates_from]. case_bool_decide; [apply IH|].
    cbn [List.filter]. rewrite Pr, IH. reflexivity.
  - case_bool_decide as Hr; [apply IH|].
    cbn [List.filter]. rewrite Pr, IH.
    symmetry. clear IH.
    revert seen Hr. induction rows as [|r' rows IH']; intros seen Hr;
      cbn [List.filter]; [reflexivity|].
    destruct (P r') eqn:Pr'; [|apply IH', Hr].
    cbn [drop_duplicates_from].
    assert (r' <> r) as Hne by (intros ->; congruence).
    rewrite (bool_decide_ext (r' ∈ seen) (r' ∈ r :: seen)).
    2:{ rewrite !list_elem_of_In. cbn [In]. split; [tauto|].
        intros [Heq | Hin]; [congruence | exact Hin]. }
    case_bool_decide as Hr''; [apply IH', Hr|].
    f_equal.
    rewrite (drop_duplicates_from_ext (r' :: r :: seen) (r :: r' :: seen))
      by (intros row; cbn [In]; tauto).
    apply IH'. rewrite list_elem_of_In in Hr |- *. cbn [In]. intros [Heq | Hin];
      [congruence | exact (Hr Hin)].
Qed.

Lemma clean_as_filter rows :
  clean rows
  = drop_duplicates_from [] (List.filter (fun row => negb (existsb isna (map replace_inf row)))
                                         rows).
Proof. unfold clean, drop_duplicates. rewrite dropna_replace_inf. reflexivity. Qed.

Lemma filter_finite_idem rows :
  List.filter (fun row => negb (existsb isna (map replace_inf row)))
    (List.filter (fun row => negb (existsb isna (map replace_inf row))) rows)
  = List.filter (fun row => negb (existsb isna (map replace_inf row))) rows.
Proof.
  induction rows as [|r rows IH]; cbn [List.filter]; [reflexivity|].
  destruct (negb (existsb isna (map replace_inf r))) eqn:E; [|exact IH].
  cbn [List.filter]. rewrite E, IH. reflexivity.
Qed.

Lemma list_filter_sublist (P : list (cell V) -> bool) rows :
  sublist (List.filter P rows) rows.
Proof.
  induction rows as [|r rows IH]; cbn [List.filter]; [constructor|].
  destruct (P r); [apply sublist_skip, IH | apply sublist_cons, IH].
Qed.

(** Cleaned records pass the test for finite rows. *)
Lemma filter_finite_clean rows :
  List.filter (fun row => negb (existsb isna (map replace_inf row))) (clean rows)
  = clean rows.
Proof.
  rewrite (clean_as_filter rows), filter_drop_duplicates_from, filter_finite_idem.
  reflexivity.
Qed.

(** X15. The cleaned records: no row holds a NaN or an infinity, no row
    occurs twice, the rows are rows of the input in their original order,
    and every finite row of the input is still present. Cleaning cleaned
    records changes nothing; and cleaning the concatenation of frames that
    were cleaned one by one (as the preparation script leaves them) gives the
    same records as cleaning the concatenation of the raw frames. *)
Theorem clean_keeps_distinct_finite_rows :
  forall (rows : list (list (cell V))) (dfs : list (list (list (cell V)))),
    (forall row, In row (clean rows) <-> In row rows /\ finite_row row) /\
    List.NoDup (clean rows) /\
    sublist (clean rows) rows /\
    clean (clean rows) = clean rows /\
    clean (pd_concat (map clean dfs)) = clean (pd_concat dfs).
Proof.
  intros rows dfs.
  split; [|split; [|split; [|split]]].
  - intros row. rewrite clean_as_filter, drop_duplicates_from_In, List.filter_In.
    rewrite negb_true_iff, <- finite_row_no_na. cbn [In]. tauto.
  - apply drop_duplicates_from_NoDup.
  - rewrite clean_as_filter. etransitivity; [apply drop_duplicates_from_sublist|].
    apply list_filter_sublist.
  - rewrite (clean_as_filter (clean rows)), filter_finite_clean, (clean_as_filter rows).
    apply drop_duplicates_from_absorb. intros row H0. exact H0.
  - rewrite (clean_as_filter (pd_concat (map clean dfs))), (clean_as_filter (pd_concat dfs)).
    unfold pd_concat.
    generalize (@nil (list (cell V))) as seen.
    induction dfs as [|df dfs IH]; intros seen; [reflexivity|].
    cbn [map concat]. rewrite !List.filter_app, !drop_duplicates_from_app.
    rewrite IH. clear IH.
    rewrite filter_finite_clean, (clean_as_filter df).
    rewrite (drop_duplicates_from_absorb seen []) by (intros row []).
    f_equal. apply drop_duplicates_from_ext. intros row.
    rewrite !in_app_iff, <- !in_rev, drop_duplicates_from_In. cbn [In]. tauto.
Qed.

End CleaningProofs.

Lemma clean_keeps_distinct_finite_rows_witness :
  In [Finite 1%Z; Finite 2%Z]
     (clean [[Finite 1%Z; Finite 2%Z]; [Finite 1%Z; NaN]; [PlusInf; Finite 2%Z];
             [Finite 1%Z; Finite 2%Z]]).
Proof.
  destruct (clean_keeps_distinct_finite_rows
              [[Finite 1%Z; Finite 2%Z]; [Finite 1%Z; NaN]; [PlusInf; Finite 2%Z];
               [Finite 1%Z; Finite 2%Z]] []) as (Hmem & _).
  apply Hmem. split.
  - left. reflexivity.
  - repeat constructor; eexists; reflexivity.
Defined.

(* --------------------------------------------------------------------- *)
(** ** The epoch loop                                                      *)
(* --------------------------------------------------------------------- *)

Lemma agree_on_values (model : module) (h1 h2 : heap) :
  agree_on model h1 h2 -> sd_values model h1 = sd_values model h2.
Proof.
  intros Hag. unfold sd_values. apply map_ext_in. intros [n l] Hin. cbn [fst snd].
  f_equal. apply Hag. eapply elem_of_locs, list_elem_of_In, Hin.
Qed.

Lemma agree_on_trans (model : module) (h1 h2 h3 : heap) :
  agree_on model h1 h2 -> agree_on model h2 h3 -> agree_on model h1 h3.
Proof. intros H12 H23 l Hl. rewrite H12, H23 by exact Hl. reflexivity. Qed.

Lemma set_weight_agree (model : module) (name : string) (v : tensor) (h1 h2 : heap) :
  agree_on model h1 h2 ->
  agree_on model (set_weight model name v h1) (set_weight model name v h2).
Proof.
  intros Hag l Hl. unfold set_weight.
  destruct (sd_get name model) as [l0|]; [|apply Hag, Hl].
  destruct (decide (l0 = l)) as [-> | Hne].
  - rewrite !lookup_total_insert_eq. reflexivity.
  - rewrite !lookup_total_insert_ne by exact Hne. apply Hag, Hl.
Qed.

Lemma mutate_model_agree (model : module) (ws : list (string * tensor)) (h1 h2 : heap) :
  agree_on model h1 h2 ->
  agree_on model (mutate_model model ws h1) (mutate_model model ws h2).
Proof.
  unfold mutate_model. revert h1 h2.
  induction ws as [|w ws IH]; intros h1 h2 Hag; cbn [fold_left]; [exact Hag|].
  apply IH, set_weight_agree, Hag.
Qed.

Lemma deepcopy_agree (model sd : state_dict) (h : heap) :
  allocated model h -> agree_on model (snd (deepcopy sd h)) h.
Proof.
  intros Hal l Hl. rewrite !lookup_total_alt, deepcopy_preserves; [reflexivity|].
  apply Hal, Hl.
Qed.

Lemma set_weight_dom (model : module) (name : string) (v : tensor) (h : heap) (l : loc) :
  l ∈ dom h -> l ∈ dom (set_weight model name v h).
Proof.
  intros Hl. unfold set_weight. destruct (sd_get name model); [|exact Hl].
  rewrite dom_insert_L. apply elem_of_union_r, Hl.
Qed.

Lemma mutate_model_allocated (model : module) (ws : list (string * tensor)) (h : heap) :
  allocated model h -> allocated model (mutate_model model ws h).
Proof.
  unfold mutate_model. revert h.
  induction ws as [|w ws IH]; intros h Hal; cbn [fold_left]; [exact Hal|].
  apply IH. intros l Hl. apply set_weight_dom, Hal, Hl.
Qed.

Lemma deepcopy_allocated (model sd : state_dict) (h : heap) :
  allocated model h -> allocated model (snd (deepcopy sd h)).
Proof. intros Hal l Hl. apply deepcopy_dom_mono, Hal, Hl. Qed.

Lemma run_epochs_snoc (model : module) (h : heap)
    (done : list (list (string * tensor) * pyfloat)) (e : list (string * tensor) * pyfloat) :
  run_epochs model h (done ++ [e]) = mutate_model model (fst e) (run_epochs model h done).
Proof. unfold run_epochs. rewrite fold_left_app. reflexivity. Qed.

(** Shape-preserving epochs keep the shapes of the model. *)
Lemma run_epochs_shapes (model : module) (h0 : heap)
    (epochs : list (list (string * tensor) * pyfloat)) :
  List.Forall (fun e => shape_preserving model h0 (fst e)) epochs ->
  forall l, l ∈ locs model -> length (run_epochs model h0 epochs !!! l) = length (h0 !!! l).
Proof.
  unfold run_epochs.
  assert (forall h, (forall l, l ∈ locs model -> length (h !!! l) = length (h0 !!! l)) ->
            List.Forall (fun e => shape_preserving model h0 (fst e)) epochs ->
            forall l, l ∈ locs model ->
              length (fold_left (fun h' e => mutate_model model (fst e) h') epochs h !!! l)
              = length (h0 !!! l)) as Hgen.
  { induction epochs as [|e epochs IH]; intros h Hinv Hsp l Hl; cbn [fold_left].
    - apply Hinv, Hl.
    - inversion Hsp as [|? ? He Hrest]; subst.
      apply IH; [|exact Hrest | exact Hl].
      apply mutate_model_shapes; assumption. }
  intros Hsp. apply Hgen; [reflexivity | exact Hsp].
Qed.

(** A snapshot is out of reach of the training updates. *)
Lemma snapshot_of_mutate (model : module) (sd : state_dict) (h target : heap)
    (ws : list (string * tensor)) :
  snapshot_of model sd h target ->
  snapshot_of model sd (mutate_model model ws h) target.
Proof.
  intros (Hk & Hdisj & Hv). split; [exact Hk|]. split; [exact Hdisj|].
  rewrite <- Hv. apply sd_values_agree. intros l Hl.
  apply mutate_model_other, Hdisj, Hl.
Qed.

(** The snapshot that [save_checkpoint] takes. *)
Lemma snapshot_of_deepcopy (model : module) (h target : heap) :
  allocated model h ->
  agree_on model h target ->
  snapshot_of model (fst (deepcopy (state_dict_of model) h))
              (snd (deepcopy (state_dict_of model) h)) target.
Proof.
  intros Hal Hag. split; [apply deepcopy_keys|]. split.
  - intros l Hl Hm. apply deepcopy_fresh in Hl as [Hn _]. apply Hn, Hal, Hm.
  - unfold state_dict_of. rewrite (deepcopy_values model h Hal).
    apply agree_on_values, Hag.
Qed.

(** The order of the losses. *)
Lemma pyfloat_lt_irrefl (x : pyfloat) : pyfloat_lt x x = false.
Proof.
  destruct x as [| |q|]; cbn; try reflexivity.
  destruct (Qlt_le_dec q q) as [H|_]; [|reflexivity]. exfalso. Lqa.lra.
Qed.

Lemma pyfloat_lt_asym (x y : pyfloat) :
  pyfloat_lt x y = true -> pyfloat_lt y x = false.
Proof.
  destruct x as [| |a|], y as [| |b|]; cbn; try reflexivity; try discriminate.
  destruct (Qlt_le_dec a b) as [Hab|_]; [|discriminate]. intros _.
  destruct (Qlt_le_dec b a) as [Hba|_]; [|reflexivity]. exfalso. Lqa.lra.
Qed.

(** For losses that are not NaN, "not below" is transitive. *)
Lemma pyfloat_not_below_trans (x y z : pyfloat) :
  y <> FloatNaN ->
  pyfloat_lt y x = false -> pyfloat_lt z y = false -> pyfloat_lt z x = false.
Proof.
  destruct x as [| |a|], y as [| |b|], z as [| |c|]; cbn;
    try reflexivity; try discriminate; try contradiction; intros _.
  destruct (Qlt_le_dec b a) as [|Hba]; [discriminate|]. intros _.
  destruct (Qlt_le_dec c b) as [|Hcb]; [discriminate|]. intros _.
  destruct (Qlt_le_dec c a) as [Hca|_]; [|reflexivity]. exfalso. Lqa.lra.
Qed.

(** The test [score < self.best_score + self.delta] of [__call__] with the
    default [delta = 0], in terms of the losses. *)
Lemma score_test (v vb : pyfloat) :
  pyfloat_lt (pyfloat_neg v) (pyfloat_plus (pyfloat_neg vb) 0) = pyfloat_lt vb v.
Proof.
  destruct v as [| |a|], vb as [| |b|]; cbn; try reflexivity.
  destruct (Qlt_le_dec (- a) (- b + 0)) as [H1|H1], (Qlt_le_dec b a) as [H2|H2];
    try reflexivity; exfalso; Lqa.lra.
Qed.

Lemma best_epoch_single (v : pyfloat) : best_epoch [v] 0.
Proof.
  exists v. split; [reflexivity|]. split.
  - intros [|j] w Hlt Hj; [lia | destruct j; discriminate].
  - intros _ [|j] w Hj; [|destruct j; discriminate]. injection Hj as <-.
    apply pyfloat_lt_irrefl.
Qed.

Lemma best_epoch_worse (losses : list pyfloat) (b : nat) (vb v : pyfloat) :
  losses !! b = Some vb ->
  best_epoch losses b ->
  pyfloat_lt vb v = true ->
  best_epoch (losses ++ [v]) b.
Proof.
  intros Hb (vb' & Hb' & Hlater & Hleast) Hv.
  assert (vb' = vb) as -> by congruence.
  pose proof (lookup_lt_Some _ _ _ Hb) as Hlen.
  exists vb. split; [rewrite lookup_app_l by exact Hlen; exact Hb|]. split.
  - intros j w Hbj Hj. destruct (decide (j < length losses)) as [Hj' | Hj'].
    + rewrite lookup_app_l in Hj by exact Hj'. eapply Hlater; [exact Hbj | exact Hj].
    + rewrite lookup_app_r in Hj by lia.
      destruct (j - length losses) as [|k]; [|destruct k; discriminate].
      injection Hj as <-. exact Hv.
  - intros Hnan j w Hj. destruct (decide (j < length losses)) as [Hj' | Hj'].
    + rewrite lookup_app_l in Hj by exact Hj'. eapply Hleast; [|exact Hj].
      intros j0 v0 Hj0. apply (Hnan j0).
      rewrite lookup_app_l by (eapply lookup_lt_Some, Hj0). exact Hj0.
    + rewrite lookup_app_r in Hj by lia.
      destruct (j - length losses) as [|k]; [|destruct k; discriminate].
      injection Hj as <-. apply pyfloat_lt_asym, Hv.
Qed.

Lemma best_epoch_not_worse (losses : list pyfloat) (b : nat) (vb v : pyfloat) :
  losses !! b = Some vb ->
  best_epoch losses b ->
  pyfloat_lt vb v = false ->
  best_epoch (losses ++ [v]) (length losses).
Proof.
  intros Hb (vb' & Hb' & _ & Hleast) Hv.
  assert (vb' = vb) as -> by congruence.
  pose proof (lookup_lt_Some _ _ _ Hb) as Hlen.
  exists v. split.
  { rewrite lookup_app_r by lia. rewrite Nat.sub_diag. reflexivity. }
  split.
  - intros j w Hbj Hj. apply lookup_lt_Some in Hj. rewrite length_app in Hj.
    cbn [length] in Hj. lia.
  - intros Hnan j w Hj. destruct (decide (j < length losses)) as [Hj' | Hj'].
    + rewrite lookup_app_l in Hj by exact Hj'.
      assert (Hnan' : forall j0 v0, losses !! j0 = Some v0 -> v0 <> FloatNaN).
      { intros j0 v0 Hj0. apply (Hnan j0).
        rewrite lookup_app_l by (eapply lookup_lt_Some, Hj0). exact Hj0. }
      apply (pyfloat_not_below_trans v vb w).
      * eapply Hnan', Hb.
      * exact Hv.
      * eapply Hleast; [exact Hnan' | exact Hj].
    + rewrite lookup_app_r in Hj by lia.
      destruct (j - length losses) as [|k]; [|destruct k; discriminate].
      injection Hj as <-. apply pyfloat_lt_irrefl.
Qed.

Lemma tracks_weaken (model : module) (h0 : heap) (P : Z) (stopper : EarlyStoppingFloat)
    (h : heap) (done : list (list (string * tensor) * pyfloat)) :
  tracks model h0 P stopper h done 0 -> tracks model h0 P stopper h done 1.
Proof.
  intros (Hd & Hp & Hal & Hag & Hsnap). repeat (split; [assumption|]).
  destruct Hsnap as [Hnil | (b & vb & sd & H1 & H2 & H3 & H4 & H5 & H6 & H7)];
    [left; exact Hnil|].
  right. exists b, vb, sd. repeat (split; [assumption|]). lia.
Qed.

(** One epoch: the stopper keeps tracking, and when it raises [early_stop]
    the epoch of its snapshot lies exactly [max(patience, 1)] epochs back. *)
Lemma epoch_step (model : module) (h0 : heap) (P : Z) (stopper : EarlyStoppingFloat)
    (h : heap) (done : list (list (string * tensor) * pyfloat))
    (ws : list (string * tensor)) (v : pyfloat) :
  tracks model h0 P stopper h done 0 ->
  es_early_stop stopper = false ->
  let r := EarlyStoppingFloat_call stopper v model (mutate_model model ws h) in
  (es_early_stop (fst r) = false /\
   tracks model h0 P (fst r) (snd r) (done ++ [(ws, v)]) 0) \/
  (es_early_stop (fst r) = true /\
   tracks model h0 P (fst r) (snd r) (done ++ [(ws, v)]) 1 /\
   es_counter (fst r) = Z.max P 1).
Proof.
  intros (Hd & Hp & Hal & Hag & Hsnap) Hstop. cbv zeta.
  set (h1 := mutate_model model ws h).
  assert (Hal1 : allocated model h1) by (apply mutate_model_allocated, Hal).
  assert (Hag1 : agree_on model h1 (run_epochs model h0 (done ++ [(ws, v)]))).
  { rewrite run_epochs_snoc. apply mutate_model_agree, Hag. }
  assert (Hnew : snapshot_of model (fst (deepcopy (state_dict_of model) h1))
                   (snd (deepcopy (state_dict_of model) h1))
                   (run_epochs model h0 (firstn (S (length done)) (done ++ [(ws, v)]))) /\
                 agree_on model (snd (deepcopy (state_dict_of model) h1))
                          (run_epochs model h0 (done ++ [(ws, v)])) /\
                 allocated model (snd (deepcopy (state_dict_of model) h1))).
  { rewrite firstn_all2 by (rewrite length_app; cbn; lia).
    split; [apply snapshot_of_deepcopy; assumption|]. split.
    - eapply agree_on_trans; [apply deepcopy_agree, Hal1 | exact Hag1].
    - apply deepcopy_allocated, Hal1. }
  destruct Hnew as (Hs & Ha & Hall).
  unfold EarlyStoppingFloat_call.
  destruct Hsnap as [(-> & Hbs & Hbm & Hc0)
                    | (b & vb & sd & Hb & Hbs & Hbm & Hsd & Hmin & Hc & Hlt)].
  - (* the first epoch *)
    left. rewrite Hbs. cbn [fst snd es_early_stop].
    split; [exact Hstop|]. cbn [app] in *.
    split; [exact Hd|]. split; [exact Hp|]. split; [exact Hall|]. split; [exact Ha|].
    right. exists 0, v, (fst (deepcopy (state_dict_of model) h1)).
    split; [reflexivity|]. split; [reflexivity|]. split; [reflexivity|].
    split; [exact Hs|]. split; [apply best_epoch_single|].
    cbn [es_counter length]. rewrite Hc0. split; [reflexivity | lia].
  - pose proof (lookup_lt_Some _ _ _ Hb) as Hblen. rewrite length_map in Hblen.
    assert (Hlook : map snd (done ++ [(ws, v)]) !! b = Some vb).
    { rewrite map_app, lookup_app_l by (rewrite length_map; exact Hblen). exact Hb. }
    rewrite Hbs, Hd, score_test.
    destruct (pyfloat_lt vb v) eqn:Hcmp.
    + (* no improvement *)
      rewrite Hp.
      assert (Hsd1 : snapshot_of model sd h1
                       (run_epochs model h0 (firstn (S b) (done ++ [(ws, v)])))).
      { rewrite firstn_app. replace (S b - length done) with 0 by lia.
        cbn [firstn]. rewrite app_nil_r. apply snapshot_of_mutate, Hsd. }
      assert (Hmin1 : best_epoch (map snd (done ++ [(ws, v)])) b).
      { rewrite map_app. cbn [map snd]. eapply best_epoch_worse; eassumption. }
      assert (Hlen1 : Z.of_nat (length (done ++ [(ws, v)]) - 1 - b)
                      = (es_counter stopper + 1)%Z).
      { rewrite length_app. cbn [length]. lia. }
      destruct (es_counter stopper + 1 >=? P)%Z eqn:E;
        cbn [fst snd es_early_stop es_counter].
      * right. split; [reflexivity|]. split.
        -- split; [reflexivity|]. split; [reflexivity|]. split; [exact Hal1|].
           split; [exact Hag1|]. right. exists b, vb, sd.
           cbn [es_best_score es_best_model_state_dict es_counter].
           repeat (split; [first [reflexivity | assumption]|]).
           split; [lia | lia].
        -- apply Z.geb_le in E. lia.
      * left. split; [exact Hstop|].
        split; [reflexivity|]. split; [reflexivity|]. split; [exact Hal1|].
        split; [exact Hag1|]. right. exists b, vb, sd.
        cbn [es_best_score es_best_model_state_dict es_counter].
        repeat (split; [first [reflexivity | assumption]|]).
        assert (es_counter stopper + 1 < P)%Z
          by (rewrite Z.geb_leb in E; apply Z.leb_gt in E; lia).
        split; [lia | lia].
    + (* the loss is not above the best one, or one of them is NaN *)
      cbn [fst snd es_early_stop].
      left. split; [exact Hstop|].
      split; [reflexivity|]. split; [exact Hp|]. split; [exact Hall|]. split; [exact Ha|].
      right. exists (length done), v, (fst (deepcopy (state_dict_of model) h1)).
      split.
      { rewrite map_app, lookup_app_r by (rewrite length_map; lia).
        rewrite length_map, Nat.sub_diag. reflexivity. }
      split; [reflexivity|]. split; [reflexivity|]. split; [exact Hs|]. split.
      { rewrite map_app. cbn [map snd]. rewrite <- (length_map snd done).
        eapply best_epoch_not_worse; eassumption. }
      cbn [es_counter]. rewrite length_app. cbn [length].
      replace (length done + 1 - 1 - length done) with 0 by lia. split; [reflexivity | lia].
Qed.

(** The loop: it runs a prefix of the epochs, of one epoch at least, and is
    left before the last epoch only with [max(patience, 1)] epochs since the
    epoch of the snapshot. *)
Lemma epoch_loop_tracks (model : module) (h0 : heap) (P : Z)
    (rest done : list (list (string * tensor) * pyfloat)) (stopper : EarlyStoppingFloat)
    (h : heap) :
  tracks model h0 P stopper h done 0 ->
  es_early_stop stopper = false ->
  exists stopper' h' k,
    k <= length rest /\ (rest <> [] -> 1 <= k) /\
    epoch_loop stopper model h rest (map snd done)
    = (stopper', h', map snd (done ++ firstn k rest)) /\
    tracks model h0 P stopper' h' (done ++ firstn k rest) 1 /\
    (k < length rest -> es_counter stopper' = Z.max P 1).
Proof.
  revert done stopper h. induction rest as [|[ws v] rest IH]; intros done stopper h Htr Hstop.
  - exists stopper, h, 0. cbn [length firstn epoch_loop]. rewrite app_nil_r.
    split; [lia|]. split; [intros Hne; contradiction|]. split; [reflexivity|].
    split; [apply tracks_weaken, Htr | lia].
  - cbn [epoch_loop].
    replace (map snd done ++ [v]) with (map snd (done ++ [(ws, v)]))
      by (rewrite map_app; reflexivity).
    destruct (epoch_step model h0 P stopper h done ws v Htr Hstop)
      as [[Hgo Htr1] | (Hbreak & Htr1 & Hc)].
    + rewrite Hgo.
      destruct (IH _ _ _ Htr1 Hgo) as (stopper' & h' & k & Hk & _ & Hloop & Htr' & Hc').
      exists stopper', h', (S k). cbn [length firstn].
      replace (done ++ (ws, v) :: firstn k rest) with ((done ++ [(ws, v)]) ++ firstn k rest)
        by (rewrite <- app_assoc; reflexivity).
      split; [lia|]. split; [lia|]. split; [exact Hloop|]. split; [exact Htr'|].
      intros Hlt. apply Hc'. lia.
    + rewrite Hbreak. eexists _, _, 1. cbn [length firstn].
      split; [lia|]. split; [lia|]. split; [reflexivity|]. split; [exact Htr1|].
      intros _. exact Hc.
Qed.

(** X16. The epoch loop with early stopping, as [train_masking_unet] and
    [train_classifier_end_to_end] run it, for validation losses that may be
    NaN or infinite: on a well-formed model and with updates that keep the
    shapes, training returns without error; it runs a prefix of the epoch
    budget (at least one epoch when the budget is not zero) and the history
    holds the losses of exactly these epochs. The model is returned with the
    weights it had after one of the epochs run, [b], not with the weights of
    the last epoch: every epoch run after [b] has a loss that compares
    greater than the loss of [b]; and when no loss of the run is NaN, no
    epoch run has a loss below that of [b], so [b] is the last epoch that
    reached the least validation loss (an equal loss replaces the
    snapshot). The loop is left before the budget is used up only when
    [max(patience, 1)] epochs have passed since [b]; with a budget of zero
    epochs the weights are unchanged. *)
Theorem training_restores_last_best_epoch :
  forall (early_stopping_patience : Z) (model : module) (h : heap)
         (epochs : list (list (string * tensor) * pyfloat)),
    wf_model model h ->
    List.Forall (fun e => shape_preserving model h (fst e)) epochs ->
    exists h' n,
      n <= length epochs /\ (epochs <> [] -> 1 <= n) /\
      train_with_early_stopping early_stopping_patience model h epochs
      = Some (h', map snd (firstn n epochs)) /\
      ((n = 0 /\ sd_values model h' = sd_values model h) \/
       (exists b vb,
           b < n /\
           map snd epochs !! b = Some vb /\
           sd_values model h'
           = sd_values model (run_epochs model h (firstn (S b) epochs)) /\
           (forall j v, b < j < n -> map snd epochs !! j = Some v ->
                        pyfloat_lt vb v = true) /\
           ((forall j v, j < n -> map snd epochs !! j = Some v -> v <> FloatNaN) ->
            forall j v, j < n -> map snd epochs !! j = Some v ->
                        pyfloat_lt v vb = false) /\
           (Z.of_nat (n - 1 - b) <= Z.max early_stopping_patience 1)%Z /\
           (n < length epochs ->
            Z.of_nat (n - 1 - b) = Z.max early_stopping_patience 1))).
Proof.
  intros P model h epochs (Hndk & Hndl & Hal) Hsp.
  assert (Hinit : tracks model h P (EarlyStoppingFloat_init P true 0) h [] 0).
  { split; [reflexivity|]. split; [reflexivity|]. split; [exact Hal|].
    split; [intros l Hl; reflexivity|]. left. repeat split. }
  destruct (epoch_loop_tracks model h P epochs [] _ h Hinit eq_refl)
    as (stopper' & h' & n & Hn & Hn1 & Hloop & Htr & Hc).
  cbn [app map] in Hloop, Htr.
  destruct Htr as (_ & _ & Hal' & Hag' & Hsnap).
  assert (Hlenrun : length (firstn n epochs) = n) by (rewrite length_firstn; lia).
  assert (Hrun : forall j, j < n ->
             map snd (firstn n epochs) !! j = map snd epochs !! j).
  { intros j Hj. rewrite !map_is_fmap, !list_lookup_fmap.
    rewrite lookup_take_lt by exact Hj. reflexivity. }
  unfold train_with_early_stopping. rewrite Hloop.
  destruct Hsnap as [(Hnil & _ & Hbm & _)
                    | (b & vb & sd & Hb & _ & Hbm & (Hk & Hdisj & Hv) & Hmin & Hcnt & Hlt)].
  - unfold load_best_weights_float. rewrite Hbm. exists h', n.
    split; [exact Hn|]. split; [exact Hn1|]. split; [reflexivity|]. left.
    rewrite Hnil in Hlenrun, Hag'. cbn [length] in Hlenrun. split; [lia|].
    apply agree_on_values, Hag'.
  - pose proof (lookup_lt_Some _ _ _ Hb) as Hblen. rewrite length_map, Hlenrun in Hblen.
    assert (Hprefix : firstn (S b) (firstn n epochs) = firstn (S b) epochs).
    { rewrite firstn_firstn. f_equal. lia. }
    rewrite Hprefix in Hv.
    assert (Hshape_run : forall k, sd_shapes model (run_epochs model h (firstn k epochs))
                                   = sd_shapes model h).
    { intros k. apply sd_shapes_agree. apply run_epochs_shapes.
      apply List.Forall_forall. intros e He. rewrite List.Forall_forall in Hsp.
      apply Hsp. apply list_elem_of_In, elem_of_take in He as (i & Hi & _).
      apply list_elem_of_In. eapply list_elem_of_lookup_2, Hi. }
    assert (Hshapes : sd_shapes sd h' = sd_shapes model h').
    { rewrite sd_shapes_of_values, Hv, <- sd_shapes_of_values, Hshape_run.
      rewrite (sd_shapes_of_values model h'), (agree_on_values model _ _ Hag').
      rewrite <- sd_shapes_of_values, Hshape_run. reflexivity. }
    destruct (load_state_dict_restores model sd h' Hk Hndk Hndl Hdisj Hshapes)
      as (h2 & Hload & Hvals & _ & _).
    unfold load_best_weights_float. rewrite Hbm, Hload. exists h2, n.
    split; [exact Hn|]. split; [exact Hn1|]. split; [reflexivity|]. right.
    destruct Hmin as (vb' & Hb' & Hlater & Hleast).
    assert (vb' = vb) as -> by congruence.
    exists b, vb. split; [exact Hblen|].
    split; [rewrite <- Hrun by exact Hblen; exact Hb|].
    split; [rewrite Hvals; exact Hv|]. split.
    { intros j v [Hbj Hjn] Hj. apply (Hlater j v Hbj). rewrite Hrun by exact Hjn. exact Hj. }
    split.
    { intros Hnan j v Hjn Hj. apply (Hleast) with (j := j).
      - intros j0 v0 Hj0. pose proof (lookup_lt_Some _ _ _ Hj0) as Hj0n.
        rewrite length_map, Hlenrun in Hj0n. apply (Hnan j0 v0 Hj0n).
        rewrite <- Hrun by exact Hj0n. exact Hj0.
      - rewrite Hrun by exact Hjn. exact Hj. }
    rewrite Hlenrun in Hcnt. rewrite <- Hcnt. split; [lia|].
    intros Hlt'. apply Hc, Hlt'.
Qed.

Lemma training_restores_last_best_epoch_witness :
  exists h' n,
    train_with_early_stopping 1 example_model example_heap example_epochs
    = Some (h', map snd (firstn n example_epochs)) /\
    n <= 5.
Proof.
  destruct (training_restores_last_best_epoch 1 example_model example_heap example_epochs)
    as (h' & n & Hn & _ & Htrain & _).
  - exact example_model_wf.
  - unfold example_epochs.
    repeat (constructor;
            [constructor; [|constructor]; cbn [fst snd]; intros l Hl;
             vm_compute in Hl; injection Hl as <-; vm_compute; reflexivity|]).
    constructor.
  - exists h', n. split; [exact Htrain | exact Hn].
Defined.

(** The run of the example with patience 1: the second and the third epoch
    reach the least loss, the loop is left after the fourth, and the weights
    of the third epoch are returned. With the losses 1, NaN, 2, 3, 4 and
    patience 2, the NaN replaces the best score, so that the loss 2 of the
    third epoch counts as an improvement: the weights of the third epoch are
    returned, not those of the first, which had the least loss. *)
Example training_runs :
  (exists h',
      train_with_early_stopping 1 example_model example_heap example_epochs
      = Some (h', [FloatFinite (3 # 1); FloatFinite (2 # 1); FloatFinite (2 # 1);
                   FloatFinite (5 # 1)]) /\
      sd_values example_model h'
      = [("weight"%string, [3 # 1; 3 # 1]%Q); ("bias"%string, [0 # 1]%Q)]) /\
  (exists h',
      train_with_early_stopping 2 example_model example_heap example_epochs_nan
      = Some (h', [FloatFinite (1 # 1); FloatNaN; FloatFinite (2 # 1);
                   FloatFinite (3 # 1); FloatFinite (4 # 1)]) /\
      sd_values example_model h'
      = [("weight"%string, [3 # 1; 3 # 1]%Q); ("bias"%string, [0 # 1]%Q)]).
Proof.
  split.
  - destruct (train_with_early_stopping 1 example_model example_heap example_epochs)
      as [[h' hist]|] eqn:E; [|vm_compute in E; discriminate E].
    exists h'. vm_compute in E. injection E as <- <-. split; vm_compute; reflexivity.
  - destruct (train_with_early_stopping 2 example_model example_heap example_epochs_nan)
      as [[h' hist]|] eqn:E; [|vm_compute in E; discriminate E].
    exists h'. vm_compute in E. injection E as <- <-. split; vm_compute; reflexivity.
Qed.

(* --------------------------------------------------------------------- *)
(** ** Phase 2 and the frozen U-Net                                        *)
(* --------------------------------------------------------------------- *)

Section Phase2Frozen.

Context {V S : Type}.

Variable unet_forward : (param -> V) -> V -> V.
Variable masker_forward : (param -> V) -> V -> V.
Variable mul : V -> V -> V.
Variable clamp01 : V -> V.
Variable classifier_forward : (param -> V) -> V -> V.
Variable focal_loss : V -> V -> V.
Variable dloss : (param -> V) -> V -> V -> param -> V.
Variable accumulate : V -> V -> V.
Variable zeros_like : V -> V.
Variable adam_update : S -> V -> V -> S * V.
Variable n_classifier : nat.
Variable n_unet : nat.

Lemma unet_not_in_optimizer (i : nat) :
  ~ In (UnetParam i) (optimizer_params n_classifier).
Proof.
  unfold optimizer_params, classifier_parameters, masker_parameters.
  rewrite in_app_iff, !in_map_iff.
  intros [(j & Hj & _) | (g & Hg & _)]; discriminate.
Qed.

(** [zero_grad] and [step] only touch the parameters of the optimizer. *)
Lemma zero_grad_other (set_to_none : bool) (st : @store V S) (q : param) :
  ~ In q (optimizer_params n_classifier) ->
  zero_grad zeros_like n_classifier set_to_none st q = st q.
Proof.
  unfold zero_grad. generalize (optimizer_params n_classifier) as ps.
  intros ps. revert st. induction ps as [|p ps IH]; intros st Hq; cbn [fold_left].
  - reflexivity.
  - rewrite IH by (intros Hin; apply Hq; right; exact Hin).
    apply upd_other. intros ->. apply Hq. left. reflexivity.
Qed.

Lemma adam_step_other (st : @store V S) (q : param) :
  ~ In q (optimizer_params n_classifier) ->
  adam_step adam_update n_classifier st q = st q.
Proof.
  unfold adam_step. generalize (optimizer_params n_classifier) as ps.
  intros ps. revert st. induction ps as [|p ps IH]; intros st Hq; cbn [fold_left].
  - reflexivity.
  - assert (~ In q ps) as Hq' by (intros Hin; apply Hq; right; exact Hin).
    destruct (p_grad (st p)); [|apply IH, Hq'].
    rewrite IH by exact Hq'.
    apply upd_other. intros ->. apply Hq. left. reflexivity.
Qed.

Lemma phase2_batch_step_unet (set_to_none : bool) (st st' : @store V S)
    (imgs labels : V) (i : nat) :
  phase2_batch_step unet_forward masker_forward mul clamp01 classifier_forward
                    focal_loss dloss accumulate zeros_like adam_update
                    n_classifier n_unet set_to_none st imgs labels = Some st' ->
  st' (UnetParam i) = st (UnetParam i).
Proof.
  unfold phase2_batch_step.
  set (st1 := zero_grad zeros_like n_classifier set_to_none st).
  destruct (backward accumulate st1 _ _) as [st2|] eqn:Eb; [|discriminate].
  intros [= <-].
  rewrite adam_step_other by apply unet_not_in_optimizer.
  rewrite (backward_frame accumulate st1 st2 _ _ (UnetParam i) Eb).
  - apply zero_grad_other, unet_not_in_optimizer.
  - cbn [t_leaves record_op]. rewrite enhancement_has_no_graph.
    cbn [List.filter app]. rewrite app_nil_r. intros Hin.
    apply filter_In in Hin as [Hin _]. unfold classifier_parameters in Hin.
    apply in_map_iff in Hin as (j & Hj & _). discriminate.
Qed.

Lemma filter_all_false {B : Type} (f : B -> bool) (l : list B) :
  (forall x, In x l -> f x = false) -> List.filter f l = [].
Proof.
  induction l as [|x l IH]; intros Hall; cbn [List.filter]; [reflexivity|].
  rewrite (Hall x (or_introl eq_refl)). apply IH. intros y Hy. apply Hall. now right.
Qed.

(** X17. Phase 2 leaves the U-Net exactly as it was: whatever the batches,
    the value, the gradient, the [requires_grad] flag and the optimizer state
    of every U-Net parameter are unchanged (the U-Net is evaluated under
    [no_grad] and is not among the optimizer's parameters). A batch step
    raises (the loss has no graph for [backward]) exactly when no classifier
    parameter requires a gradient. *)
Theorem phase2_training_leaves_unet_untouched :
  forall set_to_none : bool,
    (forall (batches : list (V * V)) (st st' : @store V S),
        phase2_train unet_forward masker_forward mul clamp01 classifier_forward
                     focal_loss dloss accumulate zeros_like adam_update
                     n_classifier n_unet set_to_none st batches = Some st' ->
        forall i : nat, st' (UnetParam i) = st (UnetParam i)) /\
    (forall (st : @store V S) (imgs labels : V),
        phase2_batch_step unet_forward masker_forward mul clamp01 classifier_forward
                          focal_loss dloss accumulate zeros_like adam_update
                          n_classifier n_unet set_to_none st imgs labels = None
        <-> forall i, i < n_classifier ->
                      p_requires_grad (st (ClassifierParam i)) = false).
Proof.
  intros set_to_none. split.
  - induction batches as [|[imgs labels] batches IH]; intros st st' Hrun i.
    + injection Hrun as <-. reflexivity.
    + cbn [phase2_train] in Hrun.
      destruct (phase2_batch_step _ _ _ _ _ _ _ _ _ _ _ _ _ st imgs labels)
        as [st1|] eqn:Estep; [|discriminate].
      rewrite (IH st1 st' Hrun i).
      eapply phase2_batch_step_unet, Estep.
  - intros st imgs labels. split.
    + intros Hnone i Hi.
      destruct (p_requires_grad (st (ClassifierParam i))) eqn:Hreq; [|reflexivity].
      destruct (phase2_batch_step_total unet_forward masker_forward mul clamp01
                  classifier_forward focal_loss dloss accumulate zeros_like adam_update
                  n_classifier n_unet set_to_none st imgs labels i Hi Hreq)
        as (st' & Hsome & _).
      rewrite Hsome in Hnone. discriminate.
    + intros Hall. unfold phase2_batch_step, backward.
      cbn [t_leaves record_op]. rewrite enhancement_has_no_graph.
      cbn [List.filter app]. rewrite app_nil_r.
      rewrite filter_all_false; [reflexivity|].
      intros p Hp. unfold classifier_parameters in Hp.
      apply in_map_iff in Hp as (i & <- & Hi). apply in_seq in Hi.
      destruct (zero_grad_frame zeros_like n_classifier set_to_none st (ClassifierParam i))
        as (_ & Hr & _).
      rewrite Hr. apply Hall. lia.
Qed.

End Phase2Frozen.

Lemma phase2_training_leaves_unet_untouched_witness :
  exists st',
    example_phase2_step example_store 5 0 = Some st' /\
    st' (UnetParam 0) = example_store (UnetParam 0).
Proof.
  destruct (example_phase2_step example_store 5 0) as [st'|] eqn:E;
    [|vm_compute in E; discriminate E].
  exists st'. split; [reflexivity|].
  refine (proj1 (phase2_training_leaves_unet_untouched
                   (fun _ x => x)
                   (fun vals x => (x * vals (GateParam Temperature))%Z)
                   Z.mul
                   (fun x => Z.max 0 (Z.min 1 x))
                   (fun vals x => (x * vals (ClassifierParam 0))%Z)
                   (fun preds labels' => (preds - labels')%Z)
                   (fun _ imgs' _ _ => imgs')
                   Z.add
                   (fun _ => 0%Z)
                   (fun s v g => (s, (v - g)%Z))
                   2 3 true) [(5%Z, 0%Z)] example_store st' _ 0).
  cbn [phase2_train]. unfold example_phase2_step in E. rewrite E. reflexivity.
Defined.
